(** * ConvoSphere: the real-time channel clients and the Utils helpers

    A shallow embedding of
    - [static/js/websocket.js]  (class [WebSocketManager], the user-scoped channel),
    - the chat-room script       (class [ChatRoomManager], the room-scoped channel),
    - [static/js/utils.js]       ([setStorageWithExpiry], [getStorageWithExpiry],
                                  [extractMentions], [truncateText]),
    followed by the properties of the specification that concern them. *)

From Stdlib Require Import ZArith Lia Ascii String.
From stdpp Require Import base option list strings gmap pretty.
From Equations Require Import Equations.

(** ** JavaScript values *)

(** The values that travel through the clients: what [JSON.parse] produces,
    plus [undefined], which a lookup of an absent property yields.  An object
    is the list of its own properties, keys distinct, in insertion order. *)
#[warnings="-register-all"]
Inductive value : Type :=
| VUndefined
| VNull
| VBool (b : bool)
| VNum (n : Z)
| VStr (s : string)
| VArr (xs : list value)
| VObj (fields : list (string * value)).

(** The exceptions that the modelled code can meet. *)
Inductive exn : Type :=
| TypeError          (* property access on null or undefined *)
| SyntaxError        (* JSON.parse on a malformed text, new WebSocket on a bad URL *)
| InvalidStateError. (* WebSocket.send while the socket is still CONNECTING *)

(** [WebSocket.readyState]. *)
Inductive readyState : Type := CONNECTING | OPEN | CLOSING | CLOSED.

#[global] Instance readyState_eq_dec : EqDecision readyState.
Proof. solve_decision. Defined.

#[global] Instance exn_eq_dec : EqDecision exn.
Proof. solve_decision. Defined.

(** [o[k]] for an own property of an object. *)
Fixpoint assoc (k : string) (fields : list (string * value)) : option value :=
  match fields with
  | [] => None
  | (k', v) :: rest => if String.eqb k k' then Some v else assoc k rest
  end.

(** [v.k] when [v] is neither null nor undefined: own property of an object,
    [undefined] otherwise (none of the keys read by the clients is a built-in
    property of a primitive or of an array). *)
Definition prop (v : value) (k : string) : value :=
  match v with
  | VObj fields => default VUndefined (assoc k fields)
  | _ => VUndefined
  end.

(** JavaScript truthiness. *)
Definition truthy (v : value) : bool :=
  match v with
  | VUndefined | VNull => false
  | VBool b => b
  | VNum n => negb (n =? 0)%Z
  | VStr s => negb (String.eqb s "")
  | VArr _ | VObj _ => true
  end.

(** [a || b]. *)
Definition js_or (a b : value) : value := if truthy a then a else b.

(** [o[k] = v]: overwrite in place or append. *)
Fixpoint obj_set (k : string) (v : value) (fields : list (string * value))
  : list (string * value) :=
  match fields with
  | [] => [(k, v)]
  | (k', v') :: rest =>
      if String.eqb k k' then (k, v) :: rest else (k', v') :: obj_set k v rest
  end.

(** [{...fields, ...more}]. *)
Definition obj_spread (fields more : list (string * value)) : list (string * value) :=
  fold_left (fun acc kv => obj_set kv.1 kv.2 acc) more fields.

(** What [event.data] of a message event decodes to: [JSON.parse] either throws
    a [SyntaxError] or returns a value. *)
Inductive payload : Type :=
| Malformed
| Decoded (data : value).

(** ** Event handlers as state transformers that may throw *)

(** A handler runs on the state of its page; it returns or throws, and what it
    did to the state before throwing stays done. *)
Inductive outcome (A : Type) : Type :=
| Returned (a : A)
| Thrown (e : exn).
Arguments Returned {A} a.
Arguments Thrown {A} e.

Definition M (S A : Type) : Type := S -> outcome A * S.

Definition ret {S A} (a : A) : M S A := fun s => (Returned a, s).

Definition bind {S A B} (m : M S A) (k : A -> M S B) : M S B :=
  fun s => match m s with
           | (Returned a, s') => k a s'
           | (Thrown e, s') => (Thrown e, s')
           end.

Definition throw {S A} (e : exn) : M S A := fun s => (Thrown e, s).

(** [try { m } catch (error) { h error }]. *)
Definition try_catch {S A} (m : M S A) (h : exn -> M S A) : M S A :=
  fun s => match m s with
           | (Returned a, s') => (Returned a, s')
           | (Thrown e, s') => h e s'
           end.

Definition gets {S A} (f : S -> A) : M S A := fun s => (Returned (f s), s).

Definition modify {S} (f : S -> S) : M S unit := fun s => (Returned tt, f s).

(** [if (c) { m }] without an else branch. *)
Definition when {S} (c : bool) (m : M S unit) : M S unit :=
  if c then m else ret tt.

Notation "'let*' x ':=' m 'in' k" := (bind m (fun x => k))
  (at level 10, x name, m at level 100, k at level 200).
Notation "m '>>' k" := (bind m (fun _ => k))
  (at level 90, right associativity).

(** The state a handler leaves behind, whether it returned or threw. *)
Definition exec {S A} (m : M S A) (s : S) : S := (m s).2.

(** Whether a handler let an exception escape to its caller. *)
Definition throws {S A} (m : M S A) (s : S) : option exn :=
  match (m s).1 with
  | Returned _ => None
  | Thrown e => Some e
  end.

(** [JSON.parse(event.data)]. *)
Definition JSON_parse {S} (p : payload) : M S value :=
  match p with
  | Malformed => throw SyntaxError
  | Decoded data => ret data
  end.

(** [data.k] for a value that may be null or undefined. *)
Definition get_prop {S} (v : value) (k : string) : M S value :=
  match v with
  | VUndefined | VNull => throw TypeError
  | _ => ret (prop v k)
  end.

(** Console levels. *)
Inductive level : Type := Log | Warn | Error.

(** What the page observes of a client, in the order it happens. *)
Inductive effect : Type :=
| Console (l : level) (msg : string)
| Transmit (frame : value)             (* a frame accepted by an OPEN socket *)
| Schedule (delay : Z)                 (* setTimeout(() => reconnect, delay) *)
| Toast (title message lvl : value)    (* window.accountsManager.showToast *)
| BrowserNotification (title body : value)
| NotificationCount (count : value)    (* updateNotificationCount *)
| StatusIndicators (data : value)      (* the DOM update of handleUserStatus *)
| CustomEvent (name : string) (detail : value)
| AppendMessage (message : value)      (* ChatRoomManager.addMessage *)
| TypingIndicator (data : value)       (* ChatRoomManager.updateTypingIndicator *)
| ReactionDisplay (data : value)       (* ChatRoomManager.updateReaction *)
| ReplyPreviewHidden.                  (* the DOM part of cancelReply *)

(** [socket.send(frame)] on a socket in state [rs]: throws while CONNECTING,
    hands the frame to the transport when OPEN, and discards it once the
    socket is CLOSING or CLOSED, returning normally (a diagnostic that the
    browser may print then is none of the page's effects). *)
Definition socket_send {S} (emit : effect -> M S unit) (rs : readyState) (frame : value)
  : M S unit :=
  match rs with
  | CONNECTING => throw InvalidStateError
  | OPEN => emit (Transmit frame)
  | CLOSING | CLOSED => ret tt
  end.

(** [socket.close()]: a socket that is not yet closed starts closing. *)
Definition socket_close (rs : readyState) : readyState :=
  match rs with
  | CONNECTING | OPEN => CLOSING
  | CLOSING => CLOSING
  | CLOSED => CLOSED
  end.

(** ** [static/js/websocket.js]: class [WebSocketManager] *)

Module WebSocketManager.
Local Open Scope Z_scope.

(** What the client reads of the page it runs in. *)
Record page : Type := {
  url_accepted : bool;           (* new WebSocket(this.wsUrl) does not throw *)
  accountsManager : bool;        (* window.accountsManager is set *)
  notifications_granted : bool   (* Notification.permission === 'granted' *)
}.

(** The fields of the object, then the part of the browser it acts on.
    [socket] is [this.socket], seen through the [readyState] of the WebSocket
    it refers to; timer ids are the positive integers the browser hands out. *)
Record state : Type := {
  socket : option readyState;
  reconnectAttempts : Z;
  maxReconnectAttempts : Z;
  reconnectInterval : Z;
  heartbeatInterval : Z;
  heartbeatTimer : option positive;
  env : page;
  timeouts : list Z;             (* pending setTimeout(() => this.connect(), d) *)
  intervals : gset positive;     (* live setInterval timers *)
  next_timer : positive;
  out : list effect
}.

Definition set_socket (v : option readyState) (s : state) : state :=
  {| socket := v; reconnectAttempts := reconnectAttempts s;
     maxReconnectAttempts := maxReconnectAttempts s;
     reconnectInterval := reconnectInterval s;
     heartbeatInterval := heartbeatInterval s;
     heartbeatTimer := heartbeatTimer s; env := env s; timeouts := timeouts s;
     intervals := intervals s; next_timer := next_timer s; out := out s |}.

Definition set_reconnectAttempts (v : Z) (s : state) : state :=
  {| socket := socket s; reconnectAttempts := v;
     maxReconnectAttempts := maxReconnectAttempts s;
     reconnectInterval := reconnectInterval s;
     heartbeatInterval := heartbeatInterval s;
     heartbeatTimer := heartbeatTimer s; env := env s; timeouts := timeouts s;
     intervals := intervals s; next_timer := next_timer s; out := out s |}.

Definition set_heartbeatTimer (v : option positive) (s : state) : state :=
  {| socket := socket s; reconnectAttempts := reconnectAttempts s;
     maxReconnectAttempts := maxReconnectAttempts s;
     reconnectInterval := reconnectInterval s;
     heartbeatInterval := heartbeatInterval s;
     heartbeatTimer := v; env := env s; timeouts := timeouts s;
     intervals := intervals s; next_timer := next_timer s; out := out s |}.

Definition set_timeouts (v : list Z) (s : state) : state :=
  {| socket := socket s; reconnectAttempts := reconnectAttempts s;
     maxReconnectAttempts := maxReconnectAttempts s;
     reconnectInterval := reconnectInterval s;
     heartbeatInterval := heartbeatInterval s;
     heartbeatTimer := heartbeatTimer s; env := env s; timeouts := v;
     intervals := intervals s; next_timer := next_timer s; out := out s |}.

Definition set_intervals (v : gset positive) (n : positive) (s : state) : state :=
  {| socket := socket s; reconnectAttempts := reconnectAttempts s;
     maxReconnectAttempts := maxReconnectAttempts s;
     reconnectInterval := reconnectInterval s;
     heartbeatInterval := heartbeatInterval s;
     heartbeatTimer := heartbeatTimer s; env := env s; timeouts := timeouts s;
     intervals := v; next_timer := n; out := out s |}.

Definition set_out (v : list effect) (s : state) : state :=
  {| socket := socket s; reconnectAttempts := reconnectAttempts s;
     maxReconnectAttempts := maxReconnectAttempts s;
     reconnectInterval := reconnectInterval s;
     heartbeatInterval := heartbeatInterval s;
     heartbeatTimer := heartbeatTimer s; env := env s; timeouts := timeouts s;
     intervals := intervals s; next_timer := next_timer s; out := v |}.

(** *** The browser primitives the class calls *)

Definition emit (e : effect) : M state unit :=
  modify (fun s => set_out (out s ++ [e]) s).

Definition console (l : level) (msg : string) : M state unit :=
  emit (Console l msg).

(** [setTimeout(() => { this.connect(); }, delay)]. *)
Definition setTimeout (delay : Z) : M state unit :=
  modify (fun s => set_timeouts (timeouts s ++ [delay]) s) >> emit (Schedule delay).

(** [setInterval(callback, this.heartbeatInterval)]: a fresh timer id. *)
Definition setInterval : M state positive :=
  fun s => (Returned (next_timer s),
            set_intervals ({[next_timer s]} ∪ intervals s) (Pos.succ (next_timer s)) s).

Definition clearInterval (id : positive) : M state unit :=
  modify (fun s => set_intervals (intervals s ∖ {[id]}) (next_timer s) s).

(** [new WebSocket(this.wsUrl)]: the constructor throws on a URL it rejects,
    otherwise the new socket is CONNECTING. *)
Definition new_WebSocket : M state readyState :=
  let* ok := gets (fun s => url_accepted (env s)) in
  if ok then ret CONNECTING else throw SyntaxError.

(** *** The methods *)

(** The three hooks are empty in the class. *)
Definition onConnect : M state unit := ret tt.
Definition onDisconnect : M state unit := ret tt.
Definition onError : M state unit := ret tt.

Definition onMaxReconnectAttemptsReached : M state unit :=
  let* present := gets (fun s => accountsManager (env s)) in
  when present
    (emit (Toast (VStr "Connection Lost")
                 (VStr "Unable to reconnect to server. Please refresh the page.")
                 (VStr "error"))).

Definition handleReconnect : M state unit :=
  let* attempts := gets reconnectAttempts in
  let* max := gets maxReconnectAttempts in
  if attempts <? max then
    modify (set_reconnectAttempts (attempts + 1)) >>
    console Log "Attempting to reconnect..." >>
    let* interval := gets reconnectInterval in
    let* attempts' := gets reconnectAttempts in
    setTimeout (interval * attempts')
  else
    console Error "Max reconnection attempts reached" >>
    onMaxReconnectAttemptsReached.

Definition startHeartbeat : M state unit :=
  let* id := setInterval in
  modify (set_heartbeatTimer (Some id)).

Definition stopHeartbeat : M state unit :=
  let* timer := gets heartbeatTimer in
  match timer with
  | Some id => clearInterval id >> modify (set_heartbeatTimer None)
  | None => ret tt
  end.

(** [setupEventHandlers] only installs the four handlers below on the socket. *)
Definition setupEventHandlers : M state unit := ret tt.

Definition connect : M state unit :=
  try_catch
    (let* sock := new_WebSocket in
     modify (set_socket (Some sock)) >>
     setupEventHandlers)
    (fun _ => console Error "WebSocket connection error:" >> handleReconnect).

Definition sendMessage (type : string) (data : list (string * value)) : M state unit :=
  let* sock := gets socket in
  match sock with
  | Some rs =>
      if decide (rs = OPEN)
      then socket_send emit rs (VObj (obj_spread [("type"%string, VStr type)] data))
      else console Warn "WebSocket not connected, message not sent:"
  | None => console Warn "WebSocket not connected, message not sent:"
  end.

Definition sendTypingIndicator (isTyping : bool) (roomId : value) : M state unit :=
  sendMessage "typing" [("is_typing"%string, VBool isTyping); ("room_id"%string, roomId)].

Definition sendStatusUpdate (status : value) : M state unit :=
  sendMessage "status_update" [("status"%string, status)].

(** The callback of the heartbeat interval; [now] is [Date.now()]. *)
Definition heartbeat_tick (now : Z) : M state unit :=
  sendMessage "heartbeat" [("timestamp"%string, VNum now)].

Definition disconnect : M state unit :=
  stopHeartbeat >>
  let* sock := gets socket in
  match sock with
  | Some rs => modify (set_socket (Some (socket_close rs)))
  | None => ret tt
  end.

(** *** The dispatcher *)

Definition handleUserStatus (data : value) : M state unit :=
  emit (StatusIndicators data).

Definition updateNotificationCount (count : value) : M state unit :=
  emit (NotificationCount count).

Definition handleNotification (data : value) : M state unit :=
  let* granted := gets (fun s => notifications_granted (env s)) in
  when granted (emit (BrowserNotification (prop data "title") (prop data "message"))) >>
  let* present := gets (fun s => accountsManager (env s)) in
  when present
    (emit (Toast (prop data "title") (prop data "message")
                 (js_or (prop data "level") (VStr "info")))) >>
  updateNotificationCount (prop data "unread_count").

Definition handleChatMessage (data : value) : M state unit :=
  emit (CustomEvent "chatMessage" data).

Definition handleTypingIndicator (data : value) : M state unit :=
  emit (CustomEvent "typingIndicator" data).

Definition handleUserPresence (data : value) : M state unit :=
  emit (CustomEvent "userPresence" data).

(** The arms of the [switch], and the arm a tag selects ([===] on strings). *)
Inductive handler : Type :=
| UserStatus | Notification | ChatMessage | TypingIndicatorMsg | UserPresence.

Definition select (tag : value) : option handler :=
  match tag with
  | VStr t =>
      if String.eqb t "user_status" then Some UserStatus
      else if String.eqb t "notification" then Some Notification
      else if String.eqb t "chat_message" then Some ChatMessage
      else if String.eqb t "typing_indicator" then Some TypingIndicatorMsg
      else if String.eqb t "user_joined" then Some UserPresence
      else if String.eqb t "user_left" then Some UserPresence
      else None
  | _ => None
  end.

Definition call (h : handler) (data : value) : M state unit :=
  match h with
  | UserStatus => handleUserStatus data
  | Notification => handleNotification data
  | ChatMessage => handleChatMessage data
  | TypingIndicatorMsg => handleTypingIndicator data
  | UserPresence => handleUserPresence data
  end.

Definition handleMessage (data : value) : M state unit :=
  let* tag := get_prop data "type" in
  match select tag with
  | Some h => call h data
  | None => console Log "Unknown message type:"
  end.

(** *** The handlers installed on the socket *)

Definition onopen : M state unit :=
  console Log "WebSocket connected" >>
  modify (set_reconnectAttempts 0) >>
  startHeartbeat >>
  onConnect.

Definition onmessage (p : payload) : M state unit :=
  try_catch
    (let* data := JSON_parse p in handleMessage data)
    (fun _ => console Error "Error parsing WebSocket message:").

Definition onclose (wasClean : bool) : M state unit :=
  console Log "WebSocket disconnected:" >>
  stopHeartbeat >>
  onDisconnect >>
  when (negb wasClean) handleReconnect.

Definition onerror : M state unit :=
  console Error "WebSocket error:" >> onError.

(** *** Construction and the event loop *)

(** [new WebSocketManager(userId)] on a page. *)
Definition construct (pg : page) : state :=
  exec connect
    {| socket := None; reconnectAttempts := 0; maxReconnectAttempts := 5;
       reconnectInterval := 5000; heartbeatInterval := 30000;
       heartbeatTimer := None; env := pg; timeouts := []; intervals := ∅;
       next_timer := 1%positive; out := [] |}.

(** What can happen to a constructed client: the four socket events (the
    browser moves [readyState] to OPEN, resp. CLOSED, as it fires [open],
    resp. [close]), the two kinds of timer callbacks, the calls of the
    public methods [sendMessage] and [disconnect], and the start of a closing
    handshake by the server, on which the browser moves [readyState] of an
    open socket to CLOSING and runs no handler.  [connect] is entered from
    the constructor and from the reconnect timer only, as in the repository. *)
Inductive event : Type :=
| Open
| Message (p : payload)
| Close (wasClean : bool)
| SocketError
| ReconnectTimer (i : nat)               (* the i-th pending timeout fires *)
| HeartbeatTimer (id : positive) (now : Z)
| CallSendMessage (type : string) (data : list (string * value))
| CallDisconnect
| ServerClosing.                         (* the server sends its Close frame *)

(** The browser on the Close frame of the server: no code of the page runs. *)
Definition closing_handshake : M state unit :=
  let* sock := gets socket in
  match sock with
  | Some OPEN => modify (set_socket (Some CLOSING))
  | _ => ret tt
  end.

Definition react (ev : event) : M state unit :=
  match ev with
  | Open => modify (set_socket (Some OPEN)) >> onopen
  | Message p => onmessage p
  | Close wasClean => modify (set_socket (Some CLOSED)) >> onclose wasClean
  | SocketError => onerror
  | ReconnectTimer i => modify (fun s => set_timeouts (delete i (timeouts s)) s) >> connect
  | HeartbeatTimer _ now => heartbeat_tick now
  | CallSendMessage type data => sendMessage type data
  | CallDisconnect => disconnect
  | ServerClosing => closing_handshake
  end.

Definition step (s : state) (ev : event) : state := exec (react ev) s.

Definition run (s : state) (evs : list event) : state := fold_left step evs s.

(** When the browser can deliver an event: [open] to a CONNECTING socket,
    [message] to an OPEN or CLOSING one, [close] and [error] to one that is
    not yet CLOSED, a timer callback when that timer is pending or live; the
    server can start the closing handshake on an OPEN socket. *)
Definition live (s : state) : bool :=
  match socket s with
  | Some CONNECTING | Some OPEN | Some CLOSING => true
  | Some CLOSED | None => false
  end.

Definition enabled (s : state) (ev : event) : bool :=
  match ev with
  | Open => bool_decide (socket s = Some CONNECTING)
  | Message _ => bool_decide (socket s = Some OPEN ∨ socket s = Some CLOSING)
  | Close _ | SocketError => live s
  | ReconnectTimer i => bool_decide (is_Some (timeouts s !! i))
  | HeartbeatTimer id _ => bool_decide (id ∈ intervals s)
  | CallSendMessage _ _ | CallDisconnect => true
  | ServerClosing => bool_decide (socket s = Some OPEN)
  end.

Inductive reachable : state -> Prop :=
| reachable_construct (pg : page) : reachable (construct pg)
| reachable_step (s : state) (ev : event) :
    reachable s -> enabled s ev = true -> reachable (step s ev).

(** The connection state of the specification, read off [this.socket]. *)
Inductive ConnectionState : Type := Disconnected | Connecting | Connected | Closing.

Definition connectionState (s : state) : ConnectionState :=
  match socket s with
  | None | Some CLOSED => Disconnected
  | Some CONNECTING => Connecting
  | Some OPEN => Connected
  | Some CLOSING => Closing
  end.

(** The delays of the reconnect attempts scheduled so far, oldest first. *)
Definition delay_of (e : effect) : option Z :=
  match e with Schedule d => Some d | _ => None end.

Definition scheduled (s : state) : list Z := omap delay_of (out s).

(** The frames handed to the transport so far. *)
Definition frame_of (e : effect) : option value :=
  match e with Transmit f => Some f | _ => None end.

Definition transmitted (s : state) : list value := omap frame_of (out s).

End WebSocketManager.

(** ** The chat-room script: class [ChatRoomManager] *)

Module ChatRoomManager.
Local Open Scope Z_scope.

(** The two callbacks the class hands to [setTimeout]. *)
Inductive callback : Type :=
| Reconnect      (* () => this.connectWebSocket() *)
| StopTyping.    (* () => { this.stopTyping(); } *)

(** The fields of the object that the channel code uses, the value of the
    [#message-input] element, and the browser's pending timeouts. *)
Record state : Type := {
  socket : option readyState;
  typingTimeout : option positive;
  isTyping : bool;
  replyTo : value;
  input_value : string;
  url_accepted : bool;           (* new WebSocket(wsUrl) does not throw *)
  timeouts : gmap positive callback;
  next_timer : positive;
  out : list effect
}.

Definition set_socket (v : option readyState) (s : state) : state :=
  {| socket := v; typingTimeout := typingTimeout s; isTyping := isTyping s;
     replyTo := replyTo s; input_value := input_value s;
     url_accepted := url_accepted s; timeouts := timeouts s;
     next_timer := next_timer s; out := out s |}.

Definition set_typingTimeout (v : option positive) (s : state) : state :=
  {| socket := socket s; typingTimeout := v; isTyping := isTyping s;
     replyTo := replyTo s; input_value := input_value s;
     url_accepted := url_accepted s; timeouts := timeouts s;
     next_timer := next_timer s; out := out s |}.

Definition set_isTyping (v : bool) (s : state) : state :=
  {| socket := socket s; typingTimeout := typingTimeout s; isTyping := v;
     replyTo := replyTo s; input_value := input_value s;
     url_accepted := url_accepted s; timeouts := timeouts s;
     next_timer := next_timer s; out := out s |}.

Definition set_replyTo (v : value) (s : state) : state :=
  {| socket := socket s; typingTimeout := typingTimeout s; isTyping := isTyping s;
     replyTo := v; input_value := input_value s;
     url_accepted := url_accepted s; timeouts := timeouts s;
     next_timer := next_timer s; out := out s |}.

Definition set_input_value (v : string) (s : state) : state :=
  {| socket := socket s; typingTimeout := typingTimeout s; isTyping := isTyping s;
     replyTo := replyTo s; input_value := v;
     url_accepted := url_accepted s; timeouts := timeouts s;
     next_timer := next_timer s; out := out s |}.

Definition set_timeouts (v : gmap positive callback) (n : positive) (s : state) : state :=
  {| socket := socket s; typingTimeout := typingTimeout s; isTyping := isTyping s;
     replyTo := replyTo s; input_value := input_value s;
     url_accepted := url_accepted s; timeouts := v;
     next_timer := n; out := out s |}.

Definition set_out (v : list effect) (s : state) : state :=
  {| socket := socket s; typingTimeout := typingTimeout s; isTyping := isTyping s;
     replyTo := replyTo s; input_value := input_value s;
     url_accepted := url_accepted s; timeouts := timeouts s;
     next_timer := next_timer s; out := v |}.

Definition emit (e : effect) : M state unit :=
  modify (fun s => set_out (out s ++ [e]) s).

Definition console (l : level) (msg : string) : M state unit :=
  emit (Console l msg).

Definition setTimeout (cb : callback) : M state positive :=
  fun s => (Returned (next_timer s),
            set_timeouts (<[next_timer s := cb]> (timeouts s)) (Pos.succ (next_timer s)) s).

(** [clearTimeout(id)]; clearing [null] does nothing. *)
Definition clearTimeout (id : option positive) : M state unit :=
  match id with
  | Some i => modify (fun s => set_timeouts (delete i (timeouts s)) (next_timer s) s)
  | None => ret tt
  end.

(** [this.socket.send(frame)]. *)
Definition send (frame : value) : M state unit :=
  let* sock := gets socket in
  match sock with
  | Some rs => socket_send emit rs frame
  | None => throw TypeError
  end.

(** A character of a text is a code unit below 256.  Of these, the white
    space and the line terminators of JavaScript, which [String.prototype.trim]
    strips and the class [\s] of a regular expression matches, are the
    characters 9 to 13, the space and the no-break space U+00A0. *)
Definition is_space (c : ascii) : bool :=
  let n := nat_of_ascii c in
  ((9 <=? n)%nat && (n <=? 13)%nat) || (n =? 32)%nat || (n =? 160)%nat.

Fixpoint trimStart (s : string) : string :=
  match s with
  | EmptyString => EmptyString
  | String c rest => if is_space c then trimStart rest else s
  end.

Fixpoint trimEnd (s : string) : string :=
  match s with
  | EmptyString => EmptyString
  | String c rest =>
      match trimEnd rest with
      | EmptyString => if is_space c then EmptyString else String c EmptyString
      | rest' => String c rest'
      end
  end.

Definition trim (s : string) : string := trimEnd (trimStart s).

(** *** Outbound *)

Definition cancelReply : M state unit :=
  modify (set_replyTo VNull) >> emit ReplyPreviewHidden.

Definition stopTyping : M state unit :=
  let* typing := gets isTyping in
  when typing
    (modify (set_isTyping false) >>
     send (VObj [("type"%string, VStr "typing"); ("is_typing"%string, VBool false)])).

Definition sendMessage : M state unit :=
  let* text := gets input_value in
  let content := trim text in
  if String.eqb content "" then ret tt
  else
    let* reply := gets replyTo in
    send (VObj [("type"%string, VStr "chat_message");
                ("content"%string, VStr content);
                ("reply_to"%string, reply)]) >>
    modify (set_input_value "") >>
    cancelReply >>
    stopTyping.

Definition handleTyping : M state unit :=
  let* typing := gets isTyping in
  when (negb typing)
    (modify (set_isTyping true) >>
     send (VObj [("type"%string, VStr "typing"); ("is_typing"%string, VBool true)])) >>
  let* pending := gets typingTimeout in
  clearTimeout pending >>
  let* id := setTimeout StopTyping in
  modify (set_typingTimeout (Some id)).

(** *** The dispatcher *)

Definition addMessage (message : value) : M state unit :=
  emit (AppendMessage message).

Definition updateTypingIndicator (data : value) : M state unit :=
  emit (TypingIndicator data).

Definition updateUserPresence (data : value) : M state unit :=
  console Log "${data.username} ${data.action}".

Definition updateReaction (data : value) : M state unit :=
  emit (ReactionDisplay data).

(** The arms of the [switch]; it has no [default] arm. *)
Inductive handler : Type :=
| ChatMessage | TypingIndicatorMsg | UserPresence | MessageReaction.

Definition select (tag : value) : option handler :=
  match tag with
  | VStr t =>
      if String.eqb t "chat_message" then Some ChatMessage
      else if String.eqb t "typing_indicator" then Some TypingIndicatorMsg
      else if String.eqb t "user_presence" then Some UserPresence
      else if String.eqb t "message_reaction" then Some MessageReaction
      else None
  | _ => None
  end.

Definition call (h : handler) (data : value) : M state unit :=
  match h with
  | ChatMessage => addMessage (prop data "message")
  | TypingIndicatorMsg => updateTypingIndicator data
  | UserPresence => updateUserPresence data
  | MessageReaction => updateReaction data
  end.

Definition handleWebSocketMessage (data : value) : M state unit :=
  let* tag := get_prop data "type" in
  match select tag with
  | Some h => call h data
  | None => ret tt
  end.

(** *** The socket and its handlers *)

(** [this.socket = new WebSocket(wsUrl)] and the installation of the four
    handlers; a throwing constructor is not caught here. *)
Definition connectWebSocket : M state unit :=
  let* ok := gets url_accepted in
  if ok then modify (set_socket (Some CONNECTING)) else throw SyntaxError.

Definition onopen : M state unit :=
  console Log "WebSocket connected".

Definition onmessage (p : payload) : M state unit :=
  let* data := JSON_parse p in
  handleWebSocketMessage data.

(** The handler takes no argument: it does not look at the close event. *)
Definition onclose : M state unit :=
  console Log "WebSocket disconnected" >>
  let* _ := setTimeout Reconnect in
  emit (Schedule 3000).

Definition onerror : M state unit :=
  console Error "WebSocket error:".

(** *** Construction and the event loop *)

(** [new ChatRoomManager(roomId, userId, userName)] up to the end of
    [connectWebSocket], on a page whose socket URL the browser accepts. *)
Definition construct : state :=
  exec connectWebSocket
    {| socket := None; typingTimeout := None; isTyping := false;
       replyTo := VNull; input_value := ""; url_accepted := true;
       timeouts := ∅; next_timer := 1%positive; out := [] |}.

Inductive event : Type :=
| Open
| Message (p : payload)
| Close (wasClean : bool)
| SocketError
| Timer (id : positive)          (* a pending timeout fires *)
| Input (text : string)          (* the user edits the message box *)
| Submit.                        (* the user submits the message form *)

Definition react (ev : event) : M state unit :=
  match ev with
  | Open => modify (set_socket (Some OPEN)) >> onopen
  | Message p => onmessage p
  | Close _ => modify (set_socket (Some CLOSED)) >> onclose
  | SocketError => onerror
  | Timer id =>
      let* pending := gets (fun s => timeouts s !! id) in
      modify (fun s => set_timeouts (delete id (timeouts s)) (next_timer s) s) >>
      match pending with
      | Some Reconnect => connectWebSocket
      | Some StopTyping => stopTyping
      | None => ret tt
      end
  | Input text => modify (set_input_value text) >> handleTyping
  | Submit => sendMessage
  end.

Definition step (s : state) (ev : event) : state := exec (react ev) s.

Definition run (s : state) (evs : list event) : state := fold_left step evs s.

(** The exception, if any, that an event handler lets escape to the browser. *)
Definition uncaught (s : state) (ev : event) : option exn := throws (react ev) s.

Definition delay_of (e : effect) : option Z :=
  match e with Schedule d => Some d | _ => None end.

Definition scheduled (s : state) : list Z := omap delay_of (out s).

Definition frame_of (e : effect) : option value :=
  match e with Transmit f => Some f | _ => None end.

Definition transmitted (s : state) : list value := omap frame_of (out s).

End ChatRoomManager.

(** ** [static/js/utils.js]: class [Utils] *)

Module Utils.

(** *** Local storage with expiration *)

(** The JSON texts, by their syntax. *)
#[warnings="-register-all"]
Inductive json : Type :=
| JNull
| JBool (b : bool)
| JNum (n : Z)
| JStr (s : string)
| JArr (elements : list json)
| JObj (members : list (string * json)).

(** [JSON.stringify(v)], [None] when it returns [undefined]: an [undefined]
    element of an array is written as [null], a property whose value is
    [undefined] is left out. *)
Fixpoint JSON_stringify (v : value) : option json :=
  match v with
  | VUndefined => None
  | VNull => Some JNull
  | VBool b => Some (JBool b)
  | VNum n => Some (JNum n)
  | VStr s => Some (JStr s)
  | VArr xs => Some (JArr (map (fun x => default JNull (JSON_stringify x)) xs))
  | VObj fields =>
      Some (JObj (omap (fun kv => match kv with
                                  | (k, x) => pair k <$> JSON_stringify x
                                  end) fields))
  end.

(** What [JSON.parse] makes of a JSON text. *)
Fixpoint JSON_value (text : json) : value :=
  match text with
  | JNull => VNull
  | JBool b => VBool b
  | JNum n => VNum n
  | JStr s => VStr s
  | JArr elements => VArr (map JSON_value elements)
  | JObj members =>
      VObj (map (fun km => match km with (k, m) => (k, JSON_value m) end) members)
  end.

(** The text that [JSON.stringify] makes of the object [{value, expiry}] that
    [setStorageWithExpiry] builds: the member [value] is there unless the
    value is [undefined]. *)
Record item : Type := { item_value : option json; expiry : Z }.

(** [localStorage], by key, holding the texts that [setStorageWithExpiry]
    wrote.  [now] is [new Date().getTime()], in milliseconds. *)
Definition setStorageWithExpiry (now : Z) (key : string) (v : value) (ttl : Z)
    (localStorage : gmap string item) : gmap string item :=
  let item := {| item_value := JSON_stringify v; expiry := (now + ttl)%Z |} in
  <[key := item]> localStorage.

(** [item.value] of the parsed text. *)
Definition parsed_value (it : item) : value :=
  match item_value it with
  | Some text => JSON_value text
  | None => VUndefined
  end.

(** The returned value ([VNull] for [null]) and the store afterwards. *)
Definition getStorageWithExpiry (now : Z) (key : string)
    (localStorage : gmap string item) : value * gmap string item :=
  match localStorage !! key with
  | None => (VNull, localStorage)
  | Some item =>
      if (now >? expiry item)%Z
      then (VNull, delete key localStorage)
      else (parsed_value item, localStorage)
  end.

(** *** Strings *)

(** A text is the list of its characters; of these only the ASCII letters,
    digits, underscore and the at sign are told apart by the functions below. *)
Definition text_of (s : string) : list ascii := list_ascii_of_string s.

(** [\w] *)
Definition is_word (c : ascii) : bool :=
  let n := nat_of_ascii c in
  ((48 <=? n) && (n <=? 57)) || ((65 <=? n) && (n <=? 90))
  || (n =? 95) || ((97 <=? n) && (n <=? 122)).

Definition is_at (c : ascii) : bool := nat_of_ascii c =? 64.

(** *** [extractMentions] *)

(** The longest run of word characters at the head: what the greedy [\w+]
    takes when it is not empty. *)
Fixpoint take_word (s : list ascii) : list ascii :=
  match s with
  | c :: rest => if is_word c then c :: take_word rest else []
  | [] => []
  end.

(** The leftmost match of [/@(\w+)/] in [s], whose first character sits at
    index [pos] of the text: the index of the match and its group 1. *)
Fixpoint search (s : list ascii) (pos : nat) : option (nat * list ascii) :=
  match s with
  | [] => None
  | c :: rest =>
      if is_at c then
        match take_word rest with
        | [] => search rest (S pos)
        | w => Some (pos, w)
        end
      else search rest (S pos)
  end.

(** [mentionRegex.exec(text)] when [mentionRegex.lastIndex] is [lastIndex]:
    [null], or [match.index] and [match[1]]; after a match the regex sets
    [lastIndex] to the end of the match, [index + 1 + match[1].length]. *)
Definition regex_exec (text : list ascii) (lastIndex : nat) : option (nat * list ascii) :=
  search (drop lastIndex text) lastIndex.

Definition inspect {A} (a : A) : {b : A | a = b} := exist _ a eq_refl.

(** The [while] loop: the groups pushed to [mentions]. *)
Equations? exec_loop (text : list ascii) (lastIndex : nat) : list (list ascii)
  by wf (length text - lastIndex) lt :=
  exec_loop text lastIndex with inspect (regex_exec text lastIndex) := {
    | exist _ None _ := [];
    | exist _ (Some (index, w)) Hm := w :: exec_loop text (index + 1 + length w) }.
Proof.
  unfold regex_exec in Hm.
  assert (Hb : forall s pos i g, search s pos = Some (i, g) ->
                pos <= i /\ i + 1 + length g <= pos + length s).
  { clear. induction s as [|c rest IH]; intros pos i g; simpl; [discriminate|].
    assert (Hlen : length (take_word rest) <= length rest).
    { clear. induction rest as [|c r IHr]; simpl; [lia|]. destruct (is_word c); simpl; lia. }
    destruct (is_at c).
    - destruct (take_word rest) as [|a w'] eqn:Hw.
      + intros H. apply IH in H. lia.
      + intros [= <- <-]. simpl in *. lia.
    - intros H. apply IH in H. lia. }
  apply Hb in Hm. rewrite length_drop in Hm.
  destruct (decide (lastIndex <= length text)); lia.
Qed.

(** [[...new Set(mentions)]]: the elements in the order of their insertion,
    an element that is already in the set not being inserted again. *)
Definition Set_add (seen : list (list ascii)) (x : list ascii) : list (list ascii) :=
  if decide (x ∈ seen) then seen else seen ++ [x].

Definition Set_of (l : list (list ascii)) : list (list ascii) :=
  fold_left Set_add l [].

Definition extractMentions (text : list ascii) : list (list ascii) :=
  Set_of (exec_loop text 0).

(** *** [truncateText] *)

(** [s.substring(start, end)]: both indices are clamped to [0, s.length] and
    swapped when out of order. *)
Definition substring (s : list ascii) (start end_ : Z) : list ascii :=
  let len := Z.of_nat (length s) in
  let a := Z.max 0 (Z.min start len) in
  let b := Z.max 0 (Z.min end_ len) in
  let lo := Z.min a b in
  let hi := Z.max a b in
  take (Z.to_nat (hi - lo)) (drop (Z.to_nat lo) s).

Definition truncateText (text : list ascii) (maxLength : Z) (suffix : list ascii)
  : list ascii :=
  if (Z.of_nat (length text) <=? maxLength)%Z then text
  else substring text 0 (maxLength - Z.of_nat (length suffix)) ++ suffix.

(** The default value of the parameter [suffix]. *)
Definition default_suffix : list ascii := text_of "...".

End Utils.

(** ** [static/js/utils.js], the other helpers of class [Utils] *)

Module UtilsHelpers.
Local Open Scope Z_scope.

(** *** [timeAgo] *)

(** The table [intervals], in the order of its keys. *)
Definition intervals : list (string * Z) :=
  [("year"%string, 31536000); ("month"%string, 2592000); ("week"%string, 604800);
   ("day"%string, 86400); ("hour"%string, 3600); ("minute"%string, 60)].

(** The template [`${interval} ${unit}${interval > 1 ? 's' : ''} ago`]. *)
Definition ago (interval : Z) (unit : string) : string :=
  pretty interval +:+ " " +:+ unit +:+ (if 1 <? interval then "s" else "") +:+ " ago".

(** The [for] loop: the first unit of the table of which a whole one fits. *)
Fixpoint first_fit (diffInSeconds : Z) (table : list (string * Z)) : option (Z * string) :=
  match table with
  | [] => None
  | (unit, seconds) :: rest =>
      let interval := diffInSeconds / seconds in
      if 1 <=? interval then Some (interval, unit) else first_fit diffInSeconds rest
  end.

(** [now] is [new Date()] and [date] the instant of [new Date(date)], both in
    milliseconds; on such integers [Math.floor] of the quotient is the
    integer quotient rounded down. *)
Definition timeAgo (now date : Z) : string :=
  let diffInSeconds := (now - date) / 1000 in
  match first_fit diffInSeconds intervals with
  | Some (interval, unit) => ago interval unit
  | None => "Just now"%string
  end.

(** *** [debounce] *)

(** The closure that [debounce(func, wait)] returns: its variable [timeout],
    the timers of the browser that it has set (each [later] remembers the
    arguments of its call), and the calls of [func] made so far. *)
Record debounced (A : Type) : Type := {
  wait : Z;
  timeout : option positive;
  pending : gmap positive (A * Z);
  next_timer : positive;
  calls : list A
}.
Arguments wait {A} _.
Arguments timeout {A} _.
Arguments pending {A} _.
Arguments next_timer {A} _.
Arguments calls {A} _.

Definition debounce {A : Type} (wait : Z) : debounced A :=
  {| wait := wait; timeout := None; pending := ∅; next_timer := 1%positive; calls := [] |}.

Definition clearTimeout {A : Type} (id : option positive) (d : debounced A) : debounced A :=
  match id with
  | Some i =>
      {| wait := wait d; timeout := timeout d; pending := delete i (pending d);
         next_timer := next_timer d; calls := calls d |}
  | None => d
  end.

(** [executedFunction(...args)]. *)
Definition executedFunction {A : Type} (args : A) (d : debounced A) : debounced A :=
  let d := clearTimeout (timeout d) d in
  {| wait := wait d; timeout := Some (next_timer d);
     pending := <[next_timer d := (args, wait d)]> (pending d);
     next_timer := Pos.succ (next_timer d); calls := calls d |}.

(** The browser runs the timer [id]: the closure [later] of that call. *)
Definition later {A : Type} (id : positive) (d : debounced A) : debounced A :=
  match pending d !! id with
  | Some (args, _) =>
      let d := {| wait := wait d; timeout := timeout d; pending := delete id (pending d);
                  next_timer := next_timer d; calls := calls d |} in
      let d := clearTimeout (timeout d) d in
      {| wait := wait d; timeout := timeout d; pending := pending d;
         next_timer := next_timer d; calls := calls d ++ [args] |}
  | None => d
  end.

(** *** [checkPasswordStrength] *)

Definition is_upper (c : ascii) : bool :=
  let n := nat_of_ascii c in ((65 <=? n) && (n <=? 90))%nat.

Definition is_lower (c : ascii) : bool :=
  let n := nat_of_ascii c in ((97 <=? n) && (n <=? 122))%nat.

Definition is_digit (c : ascii) : bool :=
  let n := nat_of_ascii c in ((48 <=? n) && (n <=? 57))%nat.

(** One of the five [if (test) score += 1; else feedback.push(message);]. *)
Definition check (passed : bool) (message : string) (acc : Z * list string)
  : Z * list string :=
  if passed then (acc.1 + 1, acc.2) else (acc.1, acc.2 ++ [message]).

(** The result object without its [percentage], a floating-point product. *)
Record strength_report : Type := {
  score : Z;
  strength : string;
  feedback : string
}.

Definition checkPasswordStrength (password : list ascii) : strength_report :=
  let acc := (0, []) in
  let acc := check (8 <=? length password)%nat "At least 8 characters" acc in
  let acc := check (existsb is_upper password) "One uppercase letter" acc in
  let acc := check (existsb is_lower password) "One lowercase letter" acc in
  let acc := check (existsb is_digit password) "One number" acc in
  let acc := check (existsb (fun c => negb (is_upper c || is_lower c || is_digit c)) password)
                   "One special character" acc in
  let score := acc.1 in
  let feedback := acc.2 in
  {| score := score;
     strength := if score <=? 2 then "weak" else if score <=? 3 then "medium" else "strong";
     feedback := match feedback with
                 | [] => "Strong password!"
                 | _ => "Missing: " +:+ String.concat ", " feedback
                 end |}.

(** *** [generateAvatarPlaceholder]: the hue of the background *)

(** Conversion to a signed 32-bit integer, as [<<] and [&] apply it. *)
Definition to_int32 (x : Z) : Z := (x + 2 ^ 31) mod 2 ^ 32 - 2 ^ 31.

(** The reducer [(a, b) => { a = ((a << 5) - a) + b.charCodeAt(0); return a & a; }]. *)
Definition hash_step (a : Z) (b : ascii) : Z :=
  let a := to_int32 (to_int32 a * 2 ^ 5) - a + Z.of_nat (nat_of_ascii b) in
  to_int32 a.

Definition name_hash (name : list ascii) : Z := fold_left hash_step name 0.

(** [Math.abs(hash) % 360]. *)
Definition name_hue (name : list ascii) : Z := Z.rem (Z.abs (name_hash name)) 360.

(** *** [formatUserMention] *)

Definition formatUserMention (username : list ascii) : list ascii :=
  "@"%char :: username.

End UtilsHelpers.

(** ** Regular expressions *)

(** The fragment of the regular expressions that the validated patterns use,
    with the matcher by derivatives: [test] of an expression anchored by [^]
    and [$] is the match of the whole text. *)
Module Regex.

Inductive regex : Type :=
| Void                                (* matches nothing *)
| Eps                                 (* the empty text *)
| Class (member : ascii -> bool)      (* one character of a class *)
| Seq (r1 r2 : regex)
| Alt (r1 r2 : regex)
| Star (r : regex).

(** [r+] *)
Definition Plus (r : regex) : regex := Seq r (Star r).

Fixpoint nullable (r : regex) : bool :=
  match r with
  | Void => false
  | Eps => true
  | Class _ => false
  | Seq r1 r2 => nullable r1 && nullable r2
  | Alt r1 r2 => nullable r1 || nullable r2
  | Star _ => true
  end.

Fixpoint deriv (c : ascii) (r : regex) : regex :=
  match r with
  | Void => Void
  | Eps => Void
  | Class member => if member c then Eps else Void
  | Seq r1 r2 =>
      if nullable r1 then Alt (Seq (deriv c r1) r2) (deriv c r2)
      else Seq (deriv c r1) r2
  | Alt r1 r2 => Alt (deriv c r1) (deriv c r2)
  | Star r => Seq (deriv c r) (Star r)
  end.

Fixpoint test (r : regex) (text : list ascii) : bool :=
  match text with
  | [] => nullable r
  | c :: rest => test (deriv c r) rest
  end.

End Regex.

(** ** [static/js/accounts.js]: class [AccountsManager] *)

Module AccountsManager.
Import Regex.
Local Open Scope Z_scope.

(** *** Form validation *)

(** [[^\s@]]: neither white space nor an at sign. *)
Definition plain (c : ascii) : bool :=
  negb (ChatRoomManager.is_space c || Utils.is_at c).

Definition is_dot (c : ascii) : bool := (nat_of_ascii c =? 46)%nat.

(** [/^[^\s@]+@[^\s@]+\.[^\s@]+$/] *)
Definition emailRegex : regex :=
  Seq (Plus (Class plain))
    (Seq (Class Utils.is_at)
       (Seq (Plus (Class plain))
          (Seq (Class is_dot) (Plus (Class plain))))).

Definition isValidEmail (email : string) : bool :=
  test emailRegex (list_ascii_of_string email).

(** What [validateField] reads of a form field. *)
Record field : Type := {
  value : string;
  required : bool;           (* field.hasAttribute('required') *)
  type : string;
  name : string
}.

(** What [validateField] leaves on the field, after clearing the previous
    validation: the message of [showFieldError], or [showFieldSuccess]; it
    returns [false] in the first case and [true] in the second. *)
Inductive validation : Type :=
| FieldError (message : string)
| FieldSuccess.

Definition isValid (v : validation) : bool :=
  match v with FieldSuccess => true | FieldError _ => false end.

(** [password1] is the value of the element [[name="password1"]] of the
    document, if there is one. *)
Definition validateField (password1 : option string) (f : field) : validation :=
  let value := ChatRoomManager.trim (value f) in
  if required f && String.eqb value "" then
    FieldError "This field is required"
  else if String.eqb (type f) "email" && negb (String.eqb value "")
          && negb (isValidEmail value) then
    FieldError "Please enter a valid email address"
  else if String.eqb (name f) "password1" && negb (String.eqb value "")
          && (Z.of_nat (String.length value) <? 8) then
    FieldError "Password must be at least 8 characters long"
  else if String.eqb (name f) "password2" then
    match password1 with
    | Some p1 =>
        if negb (String.eqb value p1) then FieldError "Passwords do not match"
        else FieldSuccess
    | None => FieldSuccess
    end
  else FieldSuccess.

(** *** User search *)

(** The closure of [setupUserSearch]: its variable [searchTimeout], the
    timers it has set with the query each will search for, and what has
    happened to the results so far. *)
Inductive search_effect : Type :=
| ClearSearchResults
| PerformUserSearch (query : string).

Record search : Type := {
  searchTimeout : option positive;
  pending : gmap positive string;
  next_timer : positive;
  done : list search_effect
}.

Definition setupUserSearch : search :=
  {| searchTimeout := None; pending := ∅; next_timer := 1%positive; done := [] |}.

(** The listener of the [input] event; [text] is [e.target.value]. *)
Definition oninput (text : string) (s : search) : search :=
  let pending := match searchTimeout s with
                 | Some id => delete id (pending s)
                 | None => pending s
                 end in
  let query := ChatRoomManager.trim text in
  if Z.of_nat (String.length query) <? 2 then
    {| searchTimeout := searchTimeout s; pending := pending;
       next_timer := next_timer s; done := done s ++ [ClearSearchResults] |}
  else
    {| searchTimeout := Some (next_timer s);
       pending := <[next_timer s := query]> pending;
       next_timer := Pos.succ (next_timer s); done := done s |}.

(** The browser runs the timer [id], set 300 ms before. *)
Definition ontimer (id : positive) (s : search) : search :=
  match pending s !! id with
  | Some query =>
      {| searchTimeout := searchTimeout s; pending := delete id (pending s);
         next_timer := next_timer s; done := done s ++ [PerformUserSearch query] |}
  | None => s
  end.

End AccountsManager.

(** ** [static/js/chat.js]: class [ChatHomeManager] *)

Module ChatHomeManager.

(** [this.selectedMembers], a list of user ids. *)
Definition addMemberToGroup (userId : string) (selectedMembers : list string) : list string :=
  if bool_decide (userId ∈ selectedMembers) then selectedMembers
  else selectedMembers ++ [userId].

Definition removeMember (userId : string) (selectedMembers : list string) : list string :=
  filter (fun id => id <> userId) selectedMembers.

(** What [createGroupChat] ends in, before any answer of the server:
    an [alert], or the call of [createRoom] with the form data, a list of
    entries in the order of their insertion. *)
Inductive creation : Type :=
| Alert (message : string)
| CreateRoom (formData : list (string * string)).

(** [formData.get(key)]: the first value under the key. *)
Fixpoint formData_get (key : string) (formData : list (string * string)) : option string :=
  match formData with
  | [] => None
  | (k, v) :: rest => if String.eqb k key then Some v else formData_get key rest
  end.

(** [form] is what [new FormData(form)] collects from [#create-group-form]. *)
Definition createGroupChat (form : list (string * string)) (selectedMembers : list string)
  : creation :=
  match formData_get "name" form with
  | None | Some EmptyString => Alert "Please enter a group name"
  | Some _ =>
      if (length selectedMembers =? 0)%nat then Alert "Please add at least one member"
      else CreateRoom (form ++ map (fun id => ("members[]"%string, id)) selectedMembers)
  end.

End ChatHomeManager.

(** * Properties *)

(** Unfolding of the handler combinators. *)
Ltac unfold_M :=
  unfold exec, throws, socket_send, JSON_parse, get_prop, when,
    bind, try_catch, ret, throw, gets, modify in *.

(** ** The reconnection policy of the user-scoped channel *)

Module Reconnection.
Import WebSocketManager.
Local Open Scope Z_scope.

Ltac unfold_client :=
  unfold step, react, onopen, onmessage, onclose, onerror, connect, disconnect,
    closing_handshake, heartbeat_tick, sendMessage, handleMessage, call, handleUserStatus,
    handleNotification, handleChatMessage, handleTypingIndicator,
    handleUserPresence, updateNotificationCount, handleReconnect,
    onMaxReconnectAttemptsReached, startHeartbeat, stopHeartbeat,
    setupEventHandlers, new_WebSocket, onConnect, onDisconnect, onError,
    setTimeout, setInterval, clearInterval, console, emit in *.

Ltac crunch :=
  unfold_client; unfold_M; simpl in *;
  repeat (case_match; simplify_eq/=).

(** An event that opens no socket and reports no failure. *)
Definition uneventful (ev : event) : Prop :=
  ev <> Open /\ ev <> Close false.

(** The number of unclean closes in a run. *)
Definition is_unclean_close (ev : event) : bool :=
  match ev with Close false => true | _ => false end.

Definition unclean_closes (evs : list event) : nat :=
  length (filter (fun ev => is_unclean_close ev = true) evs).

(** The delays [(a + 1) * 5000, ..., (a + n) * 5000]. *)
Definition backoff (a : Z) (n : nat) : list Z :=
  map (fun k => (a + Z.of_nat k) * 5000) (seq 1 n).

Lemma step_config (s : state) (ev : event) :
  maxReconnectAttempts (step s ev) = maxReconnectAttempts s /\
  reconnectInterval (step s ev) = reconnectInterval s /\
  heartbeatInterval (step s ev) = heartbeatInterval s /\
  env (step s ev) = env s.
Proof. destruct s, ev; crunch; auto. Qed.

Lemma step_uneventful (s : state) (ev : event) :
  url_accepted (env s) = true -> uneventful ev ->
  reconnectAttempts (step s ev) = reconnectAttempts s /\
  scheduled (step s ev) = scheduled s.
Proof.
  intros Hurl [Hopen Hclose].
  destruct s, ev as [| |[|]| | | | | |]; unfold scheduled; crunch;
    rewrite ?omap_app; simpl; rewrite ?app_nil_r; auto; try congruence; try lia.
Qed.

Lemma step_unclean_close (s : state) :
  reconnectAttempts s < maxReconnectAttempts s ->
  reconnectAttempts (step s (Close false)) = reconnectAttempts s + 1 /\
  scheduled (step s (Close false)) =
    scheduled s ++ [reconnectInterval s * (reconnectAttempts s + 1)].
Proof.
  intros Hlt. apply Z.ltb_lt in Hlt.
  destruct s; unfold scheduled; crunch;
    rewrite ?omap_app; simpl; rewrite ?app_nil_r; auto; try congruence; try lia.
Qed.

Lemma step_exhausted (s : state) (ev : event) :
  maxReconnectAttempts s <= reconnectAttempts s -> ev <> Open ->
  reconnectAttempts (step s ev) = reconnectAttempts s /\
  scheduled (step s ev) = scheduled s /\
  timeouts (step s ev) = match ev with
                         | ReconnectTimer i => delete i (timeouts s)
                         | _ => timeouts s
                         end.
Proof.
  intros Hge Hopen. apply Z.ltb_ge in Hge.
  destruct s, ev; unfold scheduled; crunch;
    rewrite ?omap_app; simpl; rewrite ?app_nil_r; auto; try congruence; try lia.
Qed.

Lemma backoff_shift (a : Z) (n : nat) :
  backoff a (S n) = (a + 1) * 5000 :: backoff (a + 1) n.
Proof.
  unfold backoff. simpl. f_equal. rewrite <- seq_shift, map_map.
  apply map_ext. intros k. f_equal. lia.
Qed.

Lemma backoff_length (a : Z) (n : nat) : length (backoff a n) = n.
Proof. unfold backoff. rewrite length_map. apply length_seq. Qed.

Lemma backoff_lookup (a : Z) (n k : nat) :
  (1 <= k <= n)%nat -> backoff a n !! (k - 1)%nat = Some ((a + Z.of_nat k) * 5000).
Proof.
  intros Hk. unfold backoff. rewrite list_lookup_fmap.
  rewrite lookup_seq_lt by lia. simpl. do 3 f_equal. lia.
Qed.

Lemma backoff_increasing (a : Z) (n i j : nat) (x y : Z) :
  backoff a n !! i = Some x -> backoff a n !! j = Some y -> (i < j)%nat -> x < y.
Proof.
  unfold backoff. rewrite !list_lookup_fmap. intros Hi Hj Hij.
  destruct (seq 1 n !! i) as [ki|] eqn:Ei; [|discriminate].
  destruct (seq 1 n !! j) as [kj|] eqn:Ej; [|discriminate].
  apply lookup_seq in Ei as [-> _]. apply lookup_seq in Ej as [-> _].
  simpl in *. injection Hi as <-. injection Hj as <-. lia.
Qed.

(** The run of a client whose counter stands at [a]: every unclean close
    within the budget schedules the next multiple of the interval. *)
Lemma run_backoff (evs : list event) : forall (s : state) (n : nat),
  url_accepted (env s) = true ->
  maxReconnectAttempts s = 5 -> reconnectInterval s = 5000 ->
  Forall (fun ev => ev <> Open) evs ->
  unclean_closes evs = n ->
  reconnectAttempts s + Z.of_nat n <= 5 ->
  reconnectAttempts (run s evs) = reconnectAttempts s + Z.of_nat n /\
  scheduled (run s evs) = scheduled s ++ backoff (reconnectAttempts s) n.
Proof.
  induction evs as [|ev evs IH]; intros s n Hurl Hmax Hint Hno Hn Hle.
  - unfold unclean_closes in Hn. simpl in Hn. subst n. simpl.
    rewrite app_nil_r. split; [lia | reflexivity].
  - apply Forall_cons in Hno as [Hev Hno]. simpl.
    destruct (step_config s ev) as (Hmax' & Hint' & _ & Henv').
    destruct (is_unclean_close ev) eqn:Hu.
    + assert (ev = Close false) as -> by (destruct ev as [| |[]| | | | | |]; simpl in Hu; congruence).
      unfold unclean_closes in Hn. rewrite filter_cons_True in Hn by reflexivity.
      simpl in Hn. destruct n as [|n]; [discriminate|]. injection Hn as Hn.
      destruct (step_unclean_close s) as [Ha Hs]; [lia|].
      destruct (IH (step s (Close false)) n) as [IHa IHs];
        [congruence | congruence | congruence | assumption | assumption | lia |].
      split; [lia|].
      rewrite IHs, Hs, Ha, Hint, backoff_shift, <- app_assoc. simpl.
      do 2 f_equal. lia.
    + assert (Hq : uneventful ev).
      { split; [assumption|]. intros ->. simpl in Hu. discriminate. }
      unfold unclean_closes in Hn. rewrite filter_cons_False in Hn by congruence.
      destruct (step_uneventful s ev Hurl Hq) as [Ha Hs].
      destruct (IH (step s ev) n) as [IHa IHs];
        [congruence | congruence | congruence | assumption | assumption | lia |].
      rewrite IHa, IHs, Hs, Ha. split; reflexivity.
Qed.

End Reconnection.

(** ** The life cycle of the user-scoped channel: socket, timers, heartbeat *)

Module Lifecycle.
Import WebSocketManager.
Import Reconnection.
Local Open Scope Z_scope.

(** A heartbeat timer is live in the browser. *)
Definition heartbeat_active (s : state) : Prop := intervals s <> ∅.

(** What every reachable state satisfies: the constants of the constructor;
    one heartbeat timer whenever the socket is OPEN, and then the one that
    [heartbeatTimer] holds, none unless the socket is OPEN or CLOSING; and a
    reconnect timer pending only while no socket is alive, never two. *)
Record invariant (s : state) : Prop := {
  inv_max : maxReconnectAttempts s = 5;
  inv_interval : reconnectInterval s = 5000;
  inv_heartbeat :
    match heartbeatTimer s with
    | Some id => intervals s = {[id]} /\ (socket s = Some OPEN \/ socket s = Some CLOSING)
    | None => intervals s = ∅ /\ socket s <> Some OPEN
    end;
  inv_pending : live s = true -> timeouts s = [];
  inv_single : (length (timeouts s) <= 1)%nat;
  inv_socket : socket s <> None -> url_accepted (env s) = true
}.

Lemma invariant_construct (pg : page) : invariant (construct pg).
Proof.
  destruct pg as [[|] am ng]; unfold construct; crunch;
    split; simpl; auto; try lia; try done.
Qed.

Lemma delete_single (l : list Z) (i : nat) :
  (length l <= 1)%nat -> is_Some (l !! i) -> delete i l = [].
Proof.
  destruct l as [|d [|d' l]]; simpl; intros Hl [x Hx]; try lia.
  - rewrite lookup_nil in Hx. discriminate.
  - destruct i; [reflexivity|]. simpl in Hx. rewrite lookup_nil in Hx. discriminate.
Qed.

(** Frames, errors, heartbeat ticks and [sendMessage] touch nothing but the
    observable output. *)
Definition output_only (ev : event) : bool :=
  match ev with
  | Message _ | SocketError | HeartbeatTimer _ _ | CallSendMessage _ _ => true
  | _ => false
  end.

Lemma step_output_only (s : state) (ev : event) :
  output_only ev = true -> step s ev = set_out (out (step s ev)) s.
Proof. destruct s, ev; intros Hev; try discriminate; crunch; reflexivity. Qed.

Lemma invariant_set_out (s : state) (o : list effect) :
  invariant s -> invariant (set_out o s).
Proof. intros []. split; assumption. Qed.

Ltac close_invariant :=
  split; unfold live in *; simpl in *; auto; try lia; try done;
  try (split; [set_solver | (congruence || auto)]); try congruence.

Lemma invariant_step (s : state) (ev : event) :
  invariant s -> enabled s ev = true -> invariant (step s ev).
Proof.
  intros Hinv Hen.
  destruct (output_only ev) eqn:Hout.
  { rewrite step_output_only by assumption. apply invariant_set_out, Hinv. }
  destruct Hinv as [Hmax Hint Hhb Hpend Hsingle Hsock].
  destruct s as [sock att mx itv hbi hbt pg tos ivs nt o]; simpl in *.
  destruct ev as [|p|c| |i|id now|ty d| |]; simpl in Hen; try discriminate.
  - (* open *)
    apply bool_decide_eq_true in Hen. subst sock.
    unfold live in Hpend. simpl in Hpend. rewrite Hpend in * by reflexivity.
    destruct hbt as [id|]; [destruct Hhb as [_ [?|?]]; discriminate|].
    destruct Hhb as [-> _].
    crunch. close_invariant.
  - (* close *)
    unfold live in Hen, Hpend. simpl in Hen, Hpend.
    assert (Htos : tos = []) by (apply Hpend; repeat case_match; congruence).
    assert (Hurl : url_accepted pg = true) by (apply Hsock; destruct sock; congruence).
    subst tos.
    destruct hbt as [id|]; destruct Hhb as [-> Hs]; destruct c; crunch; close_invariant.
  - (* reconnect timer *)
    apply bool_decide_eq_true in Hen.
    pose proof (delete_single tos i Hsingle Hen) as Hdel.
    assert (Hdead : match sock with
                    | Some CONNECTING | Some OPEN | Some CLOSING => false
                    | _ => true
                    end = true).
    { unfold live in Hpend. simpl in Hpend.
      destruct sock as [[]|]; try reflexivity; rewrite Hpend in Hen by reflexivity;
        rewrite lookup_nil in Hen; destruct Hen; discriminate. }
    destruct hbt as [id|]; [destruct Hhb as [_ [->| ->]]; discriminate|].
    destruct Hhb as [-> Hs].
    crunch; rewrite ?Hdel; close_invariant; naive_solver.
  - (* disconnect *)
    unfold live in Hpend. simpl in Hpend.
    destruct hbt as [id|]; destruct Hhb as [-> Hs]; crunch; close_invariant;
      intros; apply Hpend; reflexivity.
  - (* the server starts the closing handshake *)
    apply bool_decide_eq_true in Hen. subst sock.
    unfold live in Hpend. simpl in Hpend.
    destruct hbt as [id|]; destruct Hhb as [-> Hs]; [|congruence].
    crunch. close_invariant.
Qed.

Lemma reachable_invariant (s : state) : reachable s -> invariant s.
Proof.
  induction 1 as [pg|s ev _ IH Hen];
    [apply invariant_construct | apply invariant_step; assumption].
Qed.

(** Reachability along a run whose events are all deliverable. *)
Fixpoint deliverable (s : state) (evs : list event) : bool :=
  match evs with
  | [] => true
  | ev :: rest => enabled s ev && deliverable (step s ev) rest
  end.

Lemma reachable_run (evs : list event) : forall s : state,
  reachable s -> deliverable s evs = true -> reachable (run s evs).
Proof.
  induction evs as [|ev evs IH]; intros s Hs Hd; simpl in *; [assumption|].
  apply andb_true_iff in Hd as [Hen Hd].
  apply IH; [apply reachable_step|]; assumption.
Qed.

End Lifecycle.

(** ** Section 4.2 of the specification: the reconnection policy *)

Module ReconnectionPolicy.
Import WebSocketManager.
Import Reconnection.
Import Lifecycle.
Local Open Scope Z_scope.

(** A page with the accounts script loaded, and one without. *)
Definition full_page : page :=
  {| url_accepted := true; accountsManager := true; notifications_granted := false |}.

Definition bare_page : page :=
  {| url_accepted := true; accountsManager := false; notifications_granted := false |}.

(** Three connections in a row that the server drops. *)
Definition three_drops : list event :=
  [Close false; ReconnectTimer 0; Close false; ReconnectTimer 0; Close false].

(** C1.  Take the user-scoped client in any reachable state in which it has
    a socket and its counter stands at zero.  In every run from there that
    contains no successful open and [N < 5] unclean closes, exactly [N]
    reconnect attempts are scheduled; the k-th is scheduled after [k * 5000]
    ms, and the delays are strictly increasing. *)
Theorem reconnect_backoff (s : state) (evs : list event) (N : nat) :
  reachable s ->
  socket s <> None ->
  reconnectAttempts s = 0 ->
  Forall (fun ev => ev <> Open) evs ->
  unclean_closes evs = N ->
  (N < 5)%nat ->
  exists delays : list Z,
    scheduled (run s evs) = scheduled s ++ delays /\
    length delays = N /\
    (forall k : nat, (1 <= k <= N)%nat ->
       delays !! (k - 1)%nat = Some (Z.of_nat k * 5000)) /\
    (forall (i j : nat) (x y : Z),
       delays !! i = Some x -> delays !! j = Some y -> (i < j)%nat -> x < y).
Proof.
  intros Hreach Hsock Hzero Hno Hn Hlt.
  destruct (reachable_invariant s Hreach) as [Hmax Hint _ _ _ Hurl].
  destruct (run_backoff evs s N (Hurl Hsock) Hmax Hint Hno Hn) as [_ Hs]; [lia|].
  exists (backoff 0 N). rewrite Hs, Hzero. split; [reflexivity|].
  split; [apply backoff_length|]. split.
  - intros k Hk. rewrite backoff_lookup by assumption. reflexivity.
  - apply backoff_increasing.
Qed.

Lemma reconnect_backoff_witness :
  exists delays : list Z,
    scheduled (run (construct full_page) three_drops)
      = scheduled (construct full_page) ++ delays /\
    length delays = 3%nat /\
    (forall k : nat, (1 <= k <= 3)%nat ->
       delays !! (k - 1)%nat = Some (Z.of_nat k * 5000)) /\
    (forall (i j : nat) (x y : Z),
       delays !! i = Some x -> delays !! j = Some y -> (i < j)%nat -> x < y).
Proof.
  apply (reconnect_backoff (construct full_page) three_drops 3).
  - apply reachable_construct.
  - vm_compute. discriminate.
  - reflexivity.
  - unfold three_drops. repeat constructor; discriminate.
  - reflexivity.
  - lia.
Defined.

Example three_drops_delays :
  scheduled (run (construct full_page) three_drops) = [5000; 10000; 15000].
Proof. reflexivity. Qed.

(** The toasts shown so far. *)
Definition toast_of (e : effect) : option (value * value * value) :=
  match e with Toast t m l => Some (t, m, l) | _ => None end.

Definition notices (s : state) : list (value * value * value) := omap toast_of (out s).

Definition connection_lost : effect :=
  Toast (VStr "Connection Lost")
        (VStr "Unable to reconnect to server. Please refresh the page.")
        (VStr "error").

Lemma length_delete_le (l : list Z) : forall i : nat,
  (length (delete i l) <= length l)%nat.
Proof.
  induction l as [|d l IH]; intros [|i]; simpl; try lia.
  specialize (IH i). lia.
Qed.

Lemma run_exhausted (evs : list event) : forall s : state,
  maxReconnectAttempts s <= reconnectAttempts s ->
  Forall (fun ev => ev <> Open) evs ->
  scheduled (run s evs) = scheduled s /\
  (length (timeouts (run s evs)) <= length (timeouts s))%nat.
Proof.
  induction evs as [|ev evs IH]; intros s Hge Hno; simpl; [split; [reflexivity|lia]|].
  apply Forall_cons in Hno as [Hev Hno].
  destruct (step_exhausted s ev Hge Hev) as (Ha & Hs & Ht).
  destruct (step_config s ev) as (Hmax & _).
  destruct (IH (step s ev)) as [IHs IHt]; [lia | assumption |].
  split; [congruence|].
  etransitivity; [exact IHt|]. rewrite Ht.
  destruct ev; try lia. apply length_delete_le.
Qed.

(** C7, as the code has it.  When an unclean close finds the counter at the
    maximum, the client logs the exhaustion, shows the "Connection Lost" toast
    if [window.accountsManager] is set (and nothing otherwise), schedules no
    reconnect attempt, and schedules none in whatever follows as long as no
    socket opens. *)
Theorem budget_exhausted (s : state) (evs : list event) :
  maxReconnectAttempts s <= reconnectAttempts s ->
  Forall (fun ev => ev <> Open) evs ->
  let s' := step s (Close false) in
  out s' = out s ++ [Console Log "WebSocket disconnected:";
                     Console Error "Max reconnection attempts reached"]
                 ++ (if accountsManager (env s) then [connection_lost] else []) /\
  timeouts s' = timeouts s /\
  reconnectAttempts s' = reconnectAttempts s /\
  scheduled (run s' evs) = scheduled s /\
  (length (timeouts (run s' evs)) <= length (timeouts s))%nat.
Proof.
  intros Hge Hno s'.
  destruct (step_exhausted s (Close false) Hge) as (Ha & Hs & Ht); [discriminate|].
  destruct (step_config s (Close false)) as (Hmax & _).
  destruct (run_exhausted evs s') as [Hrs Hrt]; [subst s'; lia | assumption |].
  fold s' in Ha, Hs, Ht. repeat split; try congruence.
  subst s'. apply Z.ltb_ge in Hge. destruct s as [? ? ? ? ? [id|] [? [|] ?] ? ? ? ?];
    crunch; rewrite <- ?app_assoc; reflexivity.
Qed.

(** Five connections in a row that the server drops, each followed by the
    reconnect it triggers: the budget is spent. *)
Definition five_drops : list event :=
  [Close false; ReconnectTimer 0; Close false; ReconnectTimer 0;
   Close false; ReconnectTimer 0; Close false; ReconnectTimer 0;
   Close false; ReconnectTimer 0].

Lemma budget_exhausted_witness :
  let s := run (construct full_page) five_drops in
  let evs := [CallDisconnect; CallSendMessage "status_update" []] in
  let s' := step s (Close false) in
  out s' = out s ++ [Console Log "WebSocket disconnected:";
                     Console Error "Max reconnection attempts reached"]
                 ++ (if accountsManager (env s) then [connection_lost] else []) /\
  timeouts s' = timeouts s /\
  reconnectAttempts s' = reconnectAttempts s /\
  scheduled (run s' evs) = scheduled s /\
  (length (timeouts (run s' evs)) <= length (timeouts s))%nat.
Proof.
  apply (budget_exhausted (run (construct full_page) five_drops)
           [CallDisconnect; CallSendMessage "status_update" []]).
  - vm_compute. discriminate.
  - repeat constructor; discriminate.
Defined.

(** On a page where [window.accountsManager] is not set, the sixth unclean
    close in a row shows no notice at all. *)
Lemma no_notice_on_bare_page :
  let s := run (construct bare_page) five_drops in
  reachable s /\
  reconnectAttempts s = 5 /\ maxReconnectAttempts s = 5 /\
  enabled s (Close false) = true /\
  notices (step s (Close false)) = [] /\
  out (step s (Close false)) =
    out s ++ [Console Log "WebSocket disconnected:";
              Console Error "Max reconnection attempts reached"].
Proof.
  intros s. split.
  { apply reachable_run; [apply reachable_construct | vm_compute; reflexivity]. }
  split; [vm_compute; reflexivity|].
  split; [vm_compute; reflexivity|].
  split; [vm_compute; reflexivity|].
  split; vm_compute; reflexivity.
Qed.

End ReconnectionPolicy.

(** ** The room-scoped channel *)

Module Room.
Import ChatRoomManager.
Local Open Scope Z_scope.

Ltac unfold_room :=
  unfold step, uncaught, react, onopen, onmessage, onclose, onerror,
    connectWebSocket, sendMessage, handleTyping, stopTyping, cancelReply,
    handleWebSocketMessage, call, addMessage, updateTypingIndicator,
    updateUserPresence, updateReaction, send, setTimeout, clearTimeout,
    console, emit in *.

Ltac crunch :=
  unfold_room; unfold_M; simpl in *;
  repeat (case_match; simplify_eq/=).

(** Every close, clean or not, schedules a reconnect after 3000 ms. *)
Lemma close_reconnects (s : state) (wasClean : bool) :
  scheduled (step s (Close wasClean)) = scheduled s ++ [3000] /\
  timeouts (step s (Close wasClean)) = <[next_timer s := Reconnect]> (timeouts s).
Proof.
  destruct s; unfold scheduled; crunch. rewrite !omap_app. simpl.
  rewrite app_nil_r. split; reflexivity.
Qed.

End Room.

(** ** Clean closes *)

Module CleanClose.
Local Open Scope Z_scope.

(** C3 at the room-scoped client.  Its [onclose] takes no argument and never
    looks at the close event: in every state a close that the browser reports
    as clean schedules a reconnect after 3000 ms like any other; the handler
    raises nothing, and the timer it leaves pending is the one that calls
    [connectWebSocket]. *)
Theorem room_clean_close_reconnects (r : ChatRoomManager.state) :
  let r' := ChatRoomManager.step r (ChatRoomManager.Close true) in
  ChatRoomManager.uncaught r (ChatRoomManager.Close true) = None /\
  ChatRoomManager.scheduled r' = ChatRoomManager.scheduled r ++ [3000] /\
  ChatRoomManager.timeouts r' !! ChatRoomManager.next_timer r
    = Some ChatRoomManager.Reconnect.
Proof.
  intros r'. destruct (Room.close_reconnects r true) as [Hs Ht]. subst r'.
  split; [|split].
  - destruct r; reflexivity.
  - exact Hs.
  - rewrite Ht. apply lookup_insert_eq.
Qed.

(** A room whose socket has opened and is then closed cleanly. *)
Example room_clean_close_after_open :
  let r := ChatRoomManager.run ChatRoomManager.construct [ChatRoomManager.Open] in
  ChatRoomManager.scheduled r = [] /\
  ChatRoomManager.scheduled (ChatRoomManager.step r (ChatRoomManager.Close true)) = [3000] /\
  ChatRoomManager.socket
    (ChatRoomManager.run r [ChatRoomManager.Close true; ChatRoomManager.Timer 1])
    = Some CONNECTING.
Proof.
  intros r. split; [vm_compute; reflexivity|].
  split; vm_compute; reflexivity.
Qed.

(** The user-scoped client tests [event.wasClean]: a close event that the
    browser reports as clean schedules nothing, whatever the state before,
    and neither does the call of [disconnect] itself. *)
Lemma user_clean_close (s : WebSocketManager.state) :
  (WebSocketManager.scheduled (WebSocketManager.step s (WebSocketManager.Close true))
     = WebSocketManager.scheduled s /\
   WebSocketManager.timeouts (WebSocketManager.step s (WebSocketManager.Close true))
     = WebSocketManager.timeouts s) /\
  (WebSocketManager.scheduled (WebSocketManager.step s WebSocketManager.CallDisconnect)
     = WebSocketManager.scheduled s /\
   WebSocketManager.timeouts (WebSocketManager.step s WebSocketManager.CallDisconnect)
     = WebSocketManager.timeouts s).
Proof.
  split.
  - destruct s; unfold WebSocketManager.scheduled; Reconnection.crunch;
      rewrite ?omap_app; simpl; rewrite ?app_nil_r; auto.
  - destruct s; unfold WebSocketManager.scheduled; Reconnection.crunch;
      rewrite ?omap_app; simpl; rewrite ?app_nil_r; auto.
Qed.

(** It keeps no record of having called [close], though: it judges the close
    event that follows by [wasClean] alone.  When [disconnect] is called on a
    socket that is still connecting, the browser fails the connection and
    reports the close as unclean, and a reconnect is scheduled. *)
Lemma user_disconnect_while_connecting :
  let s := WebSocketManager.run
             (WebSocketManager.construct ReconnectionPolicy.full_page)
             [WebSocketManager.CallDisconnect] in
  WebSocketManager.socket s = Some CLOSING /\
  WebSocketManager.enabled s (WebSocketManager.Close false) = true /\
  WebSocketManager.scheduled (WebSocketManager.step s (WebSocketManager.Close false))
    = [5000].
Proof.
  intros s. split; [vm_compute; reflexivity|].
  split; vm_compute; reflexivity.
Qed.

(** Nor does [disconnect] clear a reconnect that is already scheduled: called
    after a drop, it leaves the timer pending, and the client connects again. *)
Lemma user_disconnect_keeps_reconnect :
  let evs := [WebSocketManager.Open; WebSocketManager.Close false;
              WebSocketManager.CallDisconnect; WebSocketManager.ReconnectTimer 0;
              WebSocketManager.Open] in
  let s := WebSocketManager.construct ReconnectionPolicy.full_page in
  Lifecycle.deliverable s evs = true /\
  WebSocketManager.connectionState (WebSocketManager.run s evs)
    = WebSocketManager.Connected.
Proof. intros evs s. split; vm_compute; reflexivity. Qed.

End CleanClose.

(** ** Section 4.3 of the specification: the heartbeat *)

Module Heartbeat.
Import WebSocketManager.
Import Reconnection.
Import Lifecycle.
Local Open Scope Z_scope.

Lemma connected_iff_open (s : state) :
  connectionState s = Connected <-> socket s = Some OPEN.
Proof.
  unfold connectionState. destruct (socket s) as [[]|]; split; congruence.
Qed.

(** The timer runs through the whole Connected state, and outside of it only
    in the Closing state. *)
Lemma invariant_active (s : state) :
  invariant s ->
  (connectionState s = Connected -> heartbeat_active s) /\
  (heartbeat_active s ->
   connectionState s = Connected \/ connectionState s = Closing).
Proof.
  intros [_ _ Hhb _ _ _]. unfold heartbeat_active, connectionState.
  destruct (heartbeatTimer s) as [id|]; destruct Hhb as [Hi Hs]; rewrite Hi.
  - split; [intros _; set_solver|]. intros _. destruct Hs as [-> | ->]; auto.
  - split; [|intros; contradiction].
    destruct (socket s) as [[]|]; congruence.
Qed.

Lemma invariant_idle (s : state) :
  invariant s -> socket s <> Some OPEN -> socket s <> Some CLOSING ->
  ~ heartbeat_active s.
Proof.
  intros Hinv Hopen Hclosing Hactive.
  apply (invariant_active s Hinv) in Hactive. unfold connectionState in Hactive.
  destruct (socket s) as [[]|]; destruct Hactive; congruence.
Qed.

(** No event but [open] starts a timer. *)
Lemma step_intervals (s : state) (ev : event) :
  ev <> Open -> intervals s = ∅ -> intervals (step s ev) = ∅.
Proof.
  intros Hev Hempty. destruct s, ev; crunch; set_solver.
Qed.

Lemma step_close_socket (s : state) (wasClean : bool) :
  socket (step s (Close wasClean)) = Some CLOSED.
Proof. destruct s, wasClean; crunch; reflexivity. Qed.

Lemma step_disconnect_timer (s : state) :
  intervals (step s CallDisconnect)
    = match heartbeatTimer s with
      | Some id => intervals s ∖ {[id]}
      | None => intervals s
      end.
Proof. destruct s; crunch; reflexivity. Qed.

(** A callback that finds the socket CLOSING hands nothing to the transport. *)
Lemma tick_while_closing (s : state) (id : positive) (now : Z) :
  connectionState s = Closing ->
  step s (HeartbeatTimer id now) =
    set_out (out s ++ [Console Warn "WebSocket not connected, message not sent:"]) s /\
  transmitted (step s (HeartbeatTimer id now)) = transmitted s.
Proof.
  unfold connectionState. intros Hc.
  destruct s as [[[]|] ? ? ? ? ? ? ? ? ? ?]; simpl in Hc; try discriminate.
  split; [reflexivity|]. unfold transmitted. simpl.
  rewrite omap_app. simpl. apply app_nil_r.
Qed.

(** C4, as the code has it.  In every reachable state of the user-scoped
    client a heartbeat timer is live whenever the connection state is
    Connected, and it is live in no state but Connected and Closing; its
    callback can only run in these two states, and in the second it sends
    nothing; a timer appears only on the [open] event; after every [close]
    event and after [disconnect] none is left. *)
Theorem heartbeat_while_connected (s : state) :
  reachable s ->
  (connectionState s = Connected -> heartbeat_active s) /\
  (heartbeat_active s ->
   connectionState s = Connected \/ connectionState s = Closing) /\
  (forall (id : positive) (now : Z),
     enabled s (HeartbeatTimer id now) = true ->
     (connectionState s = Connected \/ connectionState s = Closing) /\
     (connectionState s = Closing ->
      transmitted (step s (HeartbeatTimer id now)) = transmitted s)) /\
  (forall ev : event,
     enabled s ev = true -> ~ heartbeat_active s -> heartbeat_active (step s ev) ->
     ev = Open) /\
  (forall wasClean : bool,
     enabled s (Close wasClean) = true -> ~ heartbeat_active (step s (Close wasClean))) /\
  ~ heartbeat_active (step s CallDisconnect).
Proof.
  intros Hreach. pose proof (reachable_invariant s Hreach) as Hinv.
  destruct (invariant_active s Hinv) as [Hon Honly].
  split; [exact Hon|]. split; [exact Honly|]. split; [|split; [|split]].
  - intros id now Hen. simpl in Hen. apply bool_decide_eq_true in Hen. split.
    + apply Honly. unfold heartbeat_active. set_solver.
    + intros Hc. apply (tick_while_closing s id now Hc).
  - intros ev Hen Hoff Hon'.
    assert (Hcase : ev = Open \/ ev <> Open)
      by (destruct ev; (left; reflexivity) || (right; discriminate)).
    destruct Hcase as [|Hne]; [assumption|].
    exfalso. apply Hon'. apply step_intervals; [assumption|].
    unfold heartbeat_active in Hoff. destruct (decide (intervals s = ∅)); tauto.
  - intros wasClean Hen.
    apply (invariant_idle _ (invariant_step s _ Hinv Hen));
      rewrite step_close_socket; discriminate.
  - unfold heartbeat_active. rewrite step_disconnect_timer.
    destruct Hinv as [_ _ Hhb _ _ _].
    destruct (heartbeatTimer s) as [id|]; destruct Hhb as [-> _]; set_solver.
Qed.

Lemma heartbeat_while_connected_witness :
  let s := run (construct ReconnectionPolicy.full_page) [Open] in
  (connectionState s = Connected -> heartbeat_active s) /\
  (heartbeat_active s ->
   connectionState s = Connected \/ connectionState s = Closing) /\
  (forall (id : positive) (now : Z),
     enabled s (HeartbeatTimer id now) = true ->
     (connectionState s = Connected \/ connectionState s = Closing) /\
     (connectionState s = Closing ->
      transmitted (step s (HeartbeatTimer id now)) = transmitted s)) /\
  (forall ev : event,
     enabled s ev = true -> ~ heartbeat_active s -> heartbeat_active (step s ev) ->
     ev = Open) /\
  (forall wasClean : bool,
     enabled s (Close wasClean) = true -> ~ heartbeat_active (step s (Close wasClean))) /\
  ~ heartbeat_active (step s CallDisconnect).
Proof.
  apply (heartbeat_while_connected (run (construct ReconnectionPolicy.full_page) [Open])).
  apply reachable_run; [apply reachable_construct | vm_compute; reflexivity].
Defined.

(** The server starts the closing handshake on an open connection: the
    browser moves the socket to CLOSING and tells the page nothing until the
    close event.  In between the timer set on [open] is still live, in a state
    that is not Connected, and its callback can run. *)
Lemma heartbeat_live_while_closing :
  let s := run (construct ReconnectionPolicy.full_page) [Open; ServerClosing] in
  reachable s /\
  connectionState s = Closing /\
  heartbeat_active s /\
  enabled s (HeartbeatTimer 1 1700000000000) = true /\
  out (step s (HeartbeatTimer 1 1700000000000)) =
    out s ++ [Console Warn "WebSocket not connected, message not sent:"].
Proof.
  intros s.
  assert (Hen : enabled s (HeartbeatTimer 1 1700000000000) = true)
    by (vm_compute; reflexivity).
  split; [apply reachable_run; [apply reachable_construct | vm_compute; reflexivity]|].
  split; [vm_compute; reflexivity|].
  split; [|split; [exact Hen | vm_compute; reflexivity]].
  simpl in Hen. apply bool_decide_eq_true in Hen.
  unfold heartbeat_active. set_solver.
Qed.

End Heartbeat.

(** ** Section 4.1 of the specification: sending on a channel that is not open *)

Module Sending.
Local Open Scope Z_scope.

(** The user-scoped client checks [readyState] first: when the socket is
    absent or not OPEN, [sendMessage] returns, hands nothing to the transport
    and leaves a warning on the console. *)
Lemma user_send_not_connected
    (s : WebSocketManager.state) (type : string) (data : list (string * value)) :
  WebSocketManager.connectionState s <> WebSocketManager.Connected ->
  WebSocketManager.sendMessage type data s =
    (Returned tt,
     WebSocketManager.set_out
       (WebSocketManager.out s
          ++ [Console Warn "WebSocket not connected, message not sent:"]) s) /\
  WebSocketManager.transmitted (exec (WebSocketManager.sendMessage type data) s)
    = WebSocketManager.transmitted s.
Proof.
  intros Hstate. rewrite Heartbeat.connected_iff_open in Hstate.
  destruct s as [[[]|] ? ? ? ? ? ? ? ? ? ?]; simpl in Hstate; try congruence;
    (split; [reflexivity|]);
    unfold WebSocketManager.transmitted; Reconnection.crunch;
    rewrite omap_app; simpl; apply app_nil_r.
Qed.

(** C2 at the room-scoped client.  [ChatRoomManager.sendMessage] calls
    [socket.send] without looking at [readyState]: submitting a non-blank
    message while the socket is still CONNECTING throws [InvalidStateError] to
    the caller, and nothing is logged. *)
Theorem room_send_while_connecting (r : ChatRoomManager.state) :
  ChatRoomManager.socket r = Some CONNECTING ->
  ChatRoomManager.trim (ChatRoomManager.input_value r) <> ""%string ->
  ChatRoomManager.uncaught r ChatRoomManager.Submit = Some InvalidStateError /\
  ChatRoomManager.step r ChatRoomManager.Submit = r.
Proof.
  intros Hsock Hinput. apply String.eqb_neq in Hinput.
  destruct r; simpl in *; subst. Room.crunch. split; reflexivity.
Qed.

(** The room just constructed, the user having typed "hi". *)
Lemma room_send_while_connecting_witness :
  let r := ChatRoomManager.run ChatRoomManager.construct [ChatRoomManager.Input "hi"] in
  ChatRoomManager.uncaught r ChatRoomManager.Submit = Some InvalidStateError /\
  ChatRoomManager.step r ChatRoomManager.Submit = r.
Proof.
  apply (room_send_while_connecting
           (ChatRoomManager.run ChatRoomManager.construct [ChatRoomManager.Input "hi"])).
  - vm_compute. reflexivity.
  - vm_compute. discriminate.
Defined.

End Sending.

(** ** Section 4.4 of the specification: the dispatcher *)

Module Dispatch.
Local Open Scope Z_scope.

(** The [case] labels of the two [switch] statements. *)
Definition user_tags : list value :=
  [VStr "user_status"; VStr "notification"; VStr "chat_message";
   VStr "typing_indicator"; VStr "user_joined"; VStr "user_left"].

Definition room_tags : list value :=
  [VStr "chat_message"; VStr "typing_indicator"; VStr "user_presence";
   VStr "message_reaction"].

Lemma user_select_None (tag : value) :
  WebSocketManager.select tag = None <-> tag ∉ user_tags.
Proof.
  unfold user_tags, WebSocketManager.select. rewrite !not_elem_of_cons.
  destruct tag as [| | | |t| |]; try (split; [intros _; repeat split; (discriminate || apply not_elem_of_nil) | reflexivity]).
  repeat match goal with
         | |- context [String.eqb t ?l] =>
             destruct (String.eqb_spec t l) as [->|?]
         end;
    split; try discriminate; try tauto;
    intros; repeat split; try congruence; apply not_elem_of_nil.
Qed.

Lemma room_select_None (tag : value) :
  ChatRoomManager.select tag = None <-> tag ∉ room_tags.
Proof.
  unfold room_tags, ChatRoomManager.select. rewrite !not_elem_of_cons.
  destruct tag as [| | | |t| |]; try (split; [intros _; repeat split; (discriminate || apply not_elem_of_nil) | reflexivity]).
  repeat match goal with
         | |- context [String.eqb t ?l] =>
             destruct (String.eqb_spec t l) as [->|?]
         end;
    split; try discriminate; try tauto;
    intros; repeat split; try congruence; apply not_elem_of_nil.
Qed.

(** On a decoded object the [switch] is entered with its [type] property. *)
Lemma user_handleMessage_object (fields : list (string * value)) (s : WebSocketManager.state) :
  WebSocketManager.handleMessage (VObj fields) s =
    match WebSocketManager.select (prop (VObj fields) "type") with
    | Some h => WebSocketManager.call h (VObj fields)
    | None => WebSocketManager.console Log "Unknown message type:"
    end s.
Proof. reflexivity. Qed.

Lemma room_handleMessage_object (fields : list (string * value)) (r : ChatRoomManager.state) :
  ChatRoomManager.handleWebSocketMessage (VObj fields) r =
    match ChatRoomManager.select (prop (VObj fields) "type") with
    | Some h => ChatRoomManager.call h (VObj fields)
    | None => ret tt
    end r.
Proof. reflexivity. Qed.

(** Both dispatchers route a decoded object by its [type] to the handler
    that the tag selects; the user-scoped one logs a tag that is none of its
    [case] labels and changes nothing else. *)
Lemma routed_by_tag (fields : list (string * value))
    (s : WebSocketManager.state) (r : ChatRoomManager.state) (tag : value) :
  tag = prop (VObj fields) "type" ->
  (forall h, WebSocketManager.select tag = Some h ->
     WebSocketManager.handleMessage (VObj fields) s
       = WebSocketManager.call h (VObj fields) s) /\
  (forall h, ChatRoomManager.select tag = Some h ->
     ChatRoomManager.handleWebSocketMessage (VObj fields) r
       = ChatRoomManager.call h (VObj fields) r).
Proof.
  intros ->. rewrite user_handleMessage_object, room_handleMessage_object.
  split; intros h ->; reflexivity.
Qed.

Lemma user_unknown_tag_logged (fields : list (string * value)) (s : WebSocketManager.state) :
  prop (VObj fields) "type" ∉ user_tags ->
  WebSocketManager.onmessage (Decoded (VObj fields)) s =
    (Returned tt,
     WebSocketManager.set_out
       (WebSocketManager.out s ++ [Console Log "Unknown message type:"]) s).
Proof.
  intros Hout. apply user_select_None in Hout.
  unfold WebSocketManager.onmessage, try_catch, bind, JSON_parse, ret.
  rewrite user_handleMessage_object, Hout. reflexivity.
Qed.

(** C5 at the room-scoped client.  The [switch] of [handleWebSocketMessage]
    has no [default] arm: a decoded object whose [type] is none of the four
    [case] labels reaches no handler and raises nothing, but it is not logged
    either: the handler leaves the whole state, console included, as it
    was. *)
Theorem room_unknown_tag_not_logged
    (fields : list (string * value)) (r : ChatRoomManager.state) :
  let frame := ChatRoomManager.Message (Decoded (VObj fields)) in
  prop (VObj fields) "type" ∉ room_tags ->
  ChatRoomManager.uncaught r frame = None /\
  ChatRoomManager.step r frame = r /\
  ChatRoomManager.out (ChatRoomManager.step r frame) = ChatRoomManager.out r.
Proof.
  intros frame Hout. apply room_select_None in Hout.
  assert (Hrun : ChatRoomManager.onmessage (Decoded (VObj fields)) r = (Returned tt, r)).
  { unfold ChatRoomManager.onmessage, bind, JSON_parse, ret.
    rewrite room_handleMessage_object, Hout. reflexivity. }
  subst frame.
  unfold ChatRoomManager.uncaught, ChatRoomManager.step, ChatRoomManager.react,
    throws, exec.
  rewrite Hrun. repeat split; reflexivity.
Qed.

(** The JSON text [null] decodes, but reading its [type] throws: the
    user-scoped client catches that in [onmessage], the room-scoped one does
    not. *)
Lemma user_null_frame (s : WebSocketManager.state) :
  throws (WebSocketManager.handleMessage VNull) s = Some TypeError /\
  WebSocketManager.onmessage (Decoded VNull) s =
    (Returned tt,
     WebSocketManager.set_out
       (WebSocketManager.out s ++ [Console Error "Error parsing WebSocket message:"]) s).
Proof. split; reflexivity. Qed.

Lemma room_null_frame (r : ChatRoomManager.state) :
  ChatRoomManager.uncaught r (ChatRoomManager.Message (Decoded VNull)) = Some TypeError.
Proof. reflexivity. Qed.

(** A frame of each kind, delivered to freshly opened clients. *)
Definition joined : list (string * value) :=
  [("type"%string, VStr "user_joined"); ("username"%string, VStr "bob")].

Definition chat : list (string * value) :=
  [("type"%string, VStr "chat_message"); ("message"%string, VObj [])].

Definition open_user : WebSocketManager.state :=
  WebSocketManager.run (WebSocketManager.construct ReconnectionPolicy.full_page)
    [WebSocketManager.Open].

Definition open_room : ChatRoomManager.state :=
  ChatRoomManager.run ChatRoomManager.construct [ChatRoomManager.Open].

(** [user_joined] is a tag of the external interface that only the
    user-scoped dispatcher knows. *)
Lemma room_unknown_tag_not_logged_witness :
  let frame := ChatRoomManager.Message (Decoded (VObj joined)) in
  ChatRoomManager.uncaught open_room frame = None /\
  ChatRoomManager.step open_room frame = open_room /\
  ChatRoomManager.out (ChatRoomManager.step open_room frame) = ChatRoomManager.out open_room.
Proof.
  apply (room_unknown_tag_not_logged joined open_room).
  apply room_select_None. reflexivity.
Defined.

Example frames_dispatched :
  WebSocketManager.out
    (WebSocketManager.run open_user
       [WebSocketManager.Message (Decoded (VObj chat));
        WebSocketManager.Message (Decoded (VObj [("type"%string, VStr "bogus")]))])
    = WebSocketManager.out open_user
        ++ [CustomEvent "chatMessage" (VObj chat); Console Log "Unknown message type:"] /\
  ChatRoomManager.out
    (ChatRoomManager.run open_room
       [ChatRoomManager.Message (Decoded (VObj chat));
        ChatRoomManager.Message (Decoded (VObj [("type"%string, VStr "bogus")]))])
    = ChatRoomManager.out open_room ++ [AppendMessage (VObj [])].
Proof. split; vm_compute; reflexivity. Qed.

End Dispatch.

(** ** Section 4.4 of the specification: frames that fail to decode *)

Module Decoding.
Local Open Scope Z_scope.

(** The user-scoped client catches the error of [JSON.parse]: the frame costs
    one line on the console, nothing else changes, and the client goes on
    accepting the same events as before. *)
Lemma user_malformed_frame (s : WebSocketManager.state) :
  WebSocketManager.onmessage Malformed s =
    (Returned tt,
     WebSocketManager.set_out
       (WebSocketManager.out s ++ [Console Error "Error parsing WebSocket message:"]) s) /\
  forall ev : WebSocketManager.event,
    WebSocketManager.enabled
      (WebSocketManager.step s (WebSocketManager.Message Malformed)) ev
    = WebSocketManager.enabled s ev.
Proof.
  split; [reflexivity|]. intros ev. destruct s, ev; reflexivity.
Qed.

(** Two states of the user-scoped client that differ in their output only. *)
Definition same_channel (s1 s2 : WebSocketManager.state) : Prop :=
  WebSocketManager.set_out [] s1 = WebSocketManager.set_out [] s2.

Lemma same_channel_step (s1 s2 : WebSocketManager.state) (ev : WebSocketManager.event) :
  same_channel s1 s2 ->
  same_channel (WebSocketManager.step s1 ev) (WebSocketManager.step s2 ev).
Proof.
  unfold same_channel. destruct s1, s2. intros [= -> -> -> -> -> -> -> -> -> ->].
  destruct ev; Reconnection.crunch; reflexivity.
Qed.

(** The frames and events that follow a malformed frame are handled as if it
    had not arrived. *)
Lemma user_malformed_frame_skipped (evs : list WebSocketManager.event) :
  forall s1 s2 : WebSocketManager.state,
    same_channel s1 s2 ->
    same_channel (WebSocketManager.run (WebSocketManager.step s1 (WebSocketManager.Message Malformed)) evs)
                 (WebSocketManager.run s2 evs).
Proof.
  assert (Hrun : forall s1 s2, same_channel s1 s2 ->
            same_channel (WebSocketManager.run s1 evs) (WebSocketManager.run s2 evs)).
  { induction evs as [|ev evs IH]; intros s1 s2 Hs; simpl; [assumption|].
    apply IH, same_channel_step, Hs. }
  intros s1 s2 Hs. apply Hrun.
  destruct (user_malformed_frame s1) as [Hm _].
  unfold WebSocketManager.step, WebSocketManager.react, exec. rewrite Hm. simpl.
  unfold same_channel in *. destruct s1, s2. exact Hs.
Qed.

(** C6 at the room-scoped client.  Its [onmessage] calls [JSON.parse] outside
    any [try]: on a malformed frame the [SyntaxError] leaves the handler
    uncaught, and the handler logs nothing. *)
Theorem room_malformed_frame_uncaught (r : ChatRoomManager.state) :
  ChatRoomManager.uncaught r (ChatRoomManager.Message Malformed) = Some SyntaxError /\
  ChatRoomManager.step r (ChatRoomManager.Message Malformed) = r.
Proof. split; reflexivity. Qed.

End Decoding.

(** ** Persisted client state: entries with an expiry *)

Module Storage.
Import Utils.
Local Open Scope Z_scope.

(** Induction on values, through arrays and objects. *)
Section value_induction.
Variable P : value -> Prop.
Hypothesis Hundefined : P VUndefined.
Hypothesis Hnull : P VNull.
Hypothesis Hbool : forall b, P (VBool b).
Hypothesis Hnum : forall n, P (VNum n).
Hypothesis Hstr : forall s, P (VStr s).
Hypothesis Harr : forall xs, Forall P xs -> P (VArr xs).
Hypothesis Hobj : forall fields, Forall (fun kv => P kv.2) fields -> P (VObj fields).

Fixpoint value_induction (v : value) : P v :=
  match v with
  | VUndefined => Hundefined
  | VNull => Hnull
  | VBool b => Hbool b
  | VNum n => Hnum n
  | VStr s => Hstr s
  | VArr xs =>
      Harr xs ((fix go (l : list value) : Forall P l :=
                  match l with
                  | [] => @List.Forall_nil _ P
                  | x :: rest => @List.Forall_cons _ P x rest (value_induction x) (go rest)
                  end) xs)
  | VObj fields =>
      Hobj fields ((fix go (l : list (string * value)) : Forall (fun kv => P kv.2) l :=
                      match l with
                      | [] => @List.Forall_nil _ _
                      | (k, x) :: rest =>
                          @List.Forall_cons _ (fun kv => P kv.2) (k, x) rest
                            (value_induction x) (go rest)
                      end) fields)
  end.
End value_induction.

(** The values that JSON carries: no [undefined] anywhere inside. *)
Fixpoint is_JSON (v : value) : bool :=
  match v with
  | VUndefined => false
  | VNull | VBool _ | VNum _ | VStr _ => true
  | VArr xs => forallb is_JSON xs
  | VObj fields => forallb (fun kv => match kv with (_, x) => is_JSON x end) fields
  end.

(** [JSON.parse(JSON.stringify({value: v, ...})).value]: what is read back of
    a value that was stored. *)
Definition read_back (v : value) : value :=
  parsed_value {| item_value := JSON_stringify v; expiry := 0 |}.

Lemma JSON_stringify_value (v : value) :
  is_JSON v = true -> exists text, JSON_stringify v = Some text /\ JSON_value text = v.
Proof.
  induction v as [| | | | |xs IH|fields IH] using value_induction; simpl; intros Hv;
    try discriminate; try (eexists; split; reflexivity).
  - eexists. split; [reflexivity|]. simpl. f_equal.
    rewrite map_map. induction IH as [|x xs Hx _ IHxs]; [reflexivity|].
    simpl in Hv. apply andb_true_iff in Hv as [Hv1 Hv2].
    simpl. destruct (Hx Hv1) as (text & -> & <-). simpl. f_equal. apply IHxs, Hv2.
  - eexists. split; [reflexivity|]. simpl. f_equal.
    induction IH as [|[k x] fields Hx _ IHfields]; [reflexivity|].
    simpl in Hv. apply andb_true_iff in Hv as [Hv1 Hv2].
    simpl in Hx. destruct (Hx Hv1) as (text & Ht & <-).
    cbn [omap list_omap]. rewrite Ht. simpl. f_equal. apply IHfields, Hv2.
Qed.

(** A JSON value is read back as it was stored. *)
Lemma read_back_JSON (v : value) : is_JSON v = true -> read_back v = v.
Proof.
  intros Hv. destruct (JSON_stringify_value v Hv) as (text & Ht & Hr).
  unfold read_back, parsed_value. simpl. rewrite Ht. exact Hr.
Qed.

(** In an array [undefined] is read back as [null]; in an object a property
    that is [undefined] is not read back at all. *)
Lemma read_back_array (xs : list value) :
  read_back (VArr xs) =
    VArr (map (fun x => match x with VUndefined => VNull | _ => read_back x end) xs).
Proof.
  unfold read_back, parsed_value. simpl. f_equal. rewrite map_map.
  apply map_ext. intros x. destruct x; reflexivity.
Qed.

Lemma read_back_object (fields : list (string * value)) :
  read_back (VObj fields) =
    VObj (omap (fun kv => match kv.2 with
                          | VUndefined => None
                          | x => Some (kv.1, read_back x)
                          end) fields).
Proof.
  unfold read_back, parsed_value. simpl. f_equal.
  induction fields as [|[k x] fields IH]; [reflexivity|].
  cbn [omap list_omap] in *. destruct x; simpl; rewrite ?IH; reflexivity.
Qed.

Lemma stored_lookup (localStorage : gmap string item) (key : string) (v : value) (ttl t : Z) :
  setStorageWithExpiry t key v ttl localStorage !! key
    = Some {| item_value := JSON_stringify v; expiry := t + ttl |}.
Proof. unfold setStorageWithExpiry. apply lookup_insert_eq. Qed.

(** Writing or reading another key does not touch the entry of [key]. *)
Lemma other_key_set (localStorage : gmap string item) (key key' : string) (v : value) (ttl t : Z) :
  key' <> key ->
  setStorageWithExpiry t key' v ttl localStorage !! key = localStorage !! key.
Proof. intros Hne. unfold setStorageWithExpiry. by apply lookup_insert_ne. Qed.

Lemma other_key_get (localStorage : gmap string item) (key key' : string) (t : Z) :
  key' <> key ->
  (getStorageWithExpiry t key' localStorage).2 !! key = localStorage !! key.
Proof.
  intros Hne. unfold getStorageWithExpiry.
  destruct (localStorage !! key') as [it|]; [|reflexivity].
  destruct (t >? expiry it); simpl; [by apply lookup_delete_ne | reflexivity].
Qed.

(** What a read does to a store that holds the text of [v] under [key], with
    expiry [e]. *)
Lemma read_entry (localStorage : gmap string item) (key : string) (v : value) (e t' : Z) :
  localStorage !! key = Some {| item_value := JSON_stringify v; expiry := e |} ->
  getStorageWithExpiry t' key localStorage =
    if t' >? e then (VNull, delete key localStorage) else (read_back v, localStorage).
Proof. intros Hl. unfold getStorageWithExpiry. rewrite Hl. reflexivity. Qed.

(** C8, as the code has it.  After [setStorageWithExpiry(key, v, ttl)] at time
    [t], a read of [key] at a time strictly after [t + ttl] removes the entry
    and returns [null]; a read at or before [t + ttl] leaves the store as it
    is and returns what [JSON.parse] reads back of the text that
    [JSON.stringify] wrote, which is [v] itself when [v] is a JSON value; a
    read of a key that the store does not hold returns [null]. *)
Theorem storage_expiry (localStorage : gmap string item) (key : string) (v : value)
    (ttl t t' : Z) :
  let stored := setStorageWithExpiry t key v ttl localStorage in
  (t + ttl < t' ->
   getStorageWithExpiry t' key stored = (VNull, delete key stored) /\
   (getStorageWithExpiry t' key stored).2 !! key = None) /\
  (t' <= t + ttl ->
   getStorageWithExpiry t' key stored = (read_back v, stored) /\
   (is_JSON v = true -> getStorageWithExpiry t' key stored = (v, stored))) /\
  (localStorage !! key = None ->
   getStorageWithExpiry t' key localStorage = (VNull, localStorage)).
Proof.
  intros stored. split; [|split].
  - intros Hlate.
    rewrite (read_entry stored key v (t + ttl) t') by apply stored_lookup.
    assert ((t' >? t + ttl) = true) as -> by lia.
    split; [reflexivity | apply lookup_delete_eq].
  - intros Hearly.
    rewrite (read_entry stored key v (t + ttl) t') by apply stored_lookup.
    assert ((t' >? t + ttl) = false) as -> by lia.
    split; [reflexivity|]. intros Hv. rewrite read_back_JSON by assumption. reflexivity.
  - intros Habsent. unfold getStorageWithExpiry. rewrite Habsent. reflexivity.
Qed.

(** The theme preference, kept for one second. *)
Lemma storage_expiry_witness :
  let stored := setStorageWithExpiry 5000 "theme" (VStr "dark") 1000 ∅ in
  (getStorageWithExpiry 6001 "theme" stored = (VNull, delete "theme" stored) /\
   (getStorageWithExpiry 6001 "theme" stored).2 !! "theme" = None) /\
  getStorageWithExpiry 6000 "theme" stored = (VStr "dark", stored) /\
  getStorageWithExpiry 6000 "theme" ∅ = (VNull, ∅).
Proof.
  intros stored.
  destruct (storage_expiry ∅ "theme" (VStr "dark") 1000 5000 6001) as (Hlate & _ & _).
  destruct (storage_expiry ∅ "theme" (VStr "dark") 1000 5000 6000) as (_ & Hearly & Habsent).
  split; [apply Hlate; lia|]. split.
  - destruct Hearly as [_ Hjson]; [lia|]. apply Hjson. reflexivity.
  - apply Habsent. reflexivity.
Defined.

(** A value with [undefined] inside is not read back as it was stored: an
    array loses its holes to [null], an object loses the property. *)
Lemma undefined_not_kept :
  let stored :=
    setStorageWithExpiry 5000 "draft" (VArr [VStr "hi"; VUndefined]) 1000
      (setStorageWithExpiry 5000 "prefs" (VObj [("theme"%string, VUndefined)]) 1000 ∅) in
  5500 <= 5000 + 1000 /\
  (getStorageWithExpiry 5500 "draft" stored).1 = VArr [VStr "hi"; VNull] /\
  (getStorageWithExpiry 5500 "draft" stored).1 <> VArr [VStr "hi"; VUndefined] /\
  (getStorageWithExpiry 5500 "prefs" stored).1 = VObj [] /\
  (getStorageWithExpiry 5500 "prefs" stored).1 <> VObj [("theme"%string, VUndefined)].
Proof.
  intros stored. split; [lia|].
  assert (Hd : (getStorageWithExpiry 5500 "draft" stored).1 = VArr [VStr "hi"; VNull])
    by (vm_compute; reflexivity).
  assert (Hp : (getStorageWithExpiry 5500 "prefs" stored).1 = VObj [])
    by (vm_compute; reflexivity).
  rewrite Hd, Hp. repeat split; discriminate.
Qed.

End Storage.

(** ** [truncateText] *)

Module Truncation.
Import Utils.
Local Open Scope Z_scope.

Lemma substring_from_start (s : list ascii) (n : Z) :
  0 <= n <= Z.of_nat (length s) -> substring s 0 n = take (Z.to_nat n) s.
Proof.
  intros Hn. unfold substring.
  rewrite (Z.min_l 0), (Z.max_l 0 0), (Z.min_l n), (Z.max_r 0 n) by lia.
  rewrite (Z.min_l 0 n), (Z.max_r 0 n) by lia.
  simpl. f_equal. lia.
Qed.

(** C10.  For [maxLength] at least the length of the suffix, [truncateText]
    returns a text of length at most [maxLength] unchanged, and otherwise a
    text of length exactly [maxLength] made of a prefix of the text followed
    by the suffix. *)
Theorem truncateText_spec (text suffix : list ascii) (maxLength : Z) :
  Z.of_nat (length suffix) <= maxLength ->
  (Z.of_nat (length text) <= maxLength -> truncateText text maxLength suffix = text) /\
  (maxLength < Z.of_nat (length text) ->
   Z.of_nat (length (truncateText text maxLength suffix)) = maxLength /\
   exists p : list ascii,
     p `prefix_of` text /\ truncateText text maxLength suffix = p ++ suffix).
Proof.
  intros Hsuffix. unfold truncateText. split.
  - intros Hshort. apply Z.leb_le in Hshort. rewrite Hshort. reflexivity.
  - intros Hlong. assert ((Z.of_nat (length text) <=? maxLength) = false) as -> by lia.
    rewrite substring_from_start by lia. split.
    + rewrite length_app, length_take. lia.
    + exists (take (Z.to_nat (maxLength - Z.of_nat (length suffix))) text).
      split; [apply prefix_take | reflexivity].
Qed.

Lemma truncateText_spec_witness :
  truncateText (text_of "hi") 8 default_suffix = text_of "hi" /\
  Z.of_nat (length (truncateText (text_of "hello world") 8 default_suffix)) = 8 /\
  exists p : list ascii,
    p `prefix_of` text_of "hello world" /\
    truncateText (text_of "hello world") 8 default_suffix = p ++ default_suffix.
Proof.
  destruct (truncateText_spec (text_of "hi") default_suffix 8) as [Hshort _];
    [vm_compute; discriminate|].
  destruct (truncateText_spec (text_of "hello world") default_suffix 8) as [_ Hlong];
    [vm_compute; discriminate|].
  split; [apply Hshort; vm_compute; discriminate|].
  apply Hlong. vm_compute. reflexivity.
Defined.

Example truncateText_hello :
  truncateText (text_of "hello world") 8 default_suffix = text_of "hello...".
Proof. reflexivity. Qed.

End Truncation.

(** ** [extractMentions] *)

Module Mentions.
Import Utils.

(** *** Mentions of a text *)

(** Nothing of a word follows: the text ends or goes on with a character
    that [\w] rejects. *)
Definition stops (after : list ascii) : Prop :=
  match after with
  | [] => True
  | d :: _ => is_word d = false
  end.

(** The text mentions [w] at index [i]: an at sign sits at [i], and [w] is the
    maximal, non-empty run of word characters that follows it. *)
Definition mention_at (text : list ascii) (i : nat) (w : list ascii) : Prop :=
  exists (c : ascii) (after : list ascii),
    drop i text = c :: w ++ after /\
    is_at c = true /\
    w <> [] /\
    Forall (fun d => is_word d = true) w /\
    stops after.

Lemma at_is_no_word (c : ascii) : is_at c = true -> is_word c = false.
Proof.
  unfold is_at, is_word. intros H. apply Nat.eqb_eq in H. rewrite H. reflexivity.
Qed.

Lemma take_word_split (s : list ascii) :
  exists after : list ascii,
    s = take_word s ++ after /\
    Forall (fun d => is_word d = true) (take_word s) /\
    stops after.
Proof.
  induction s as [|c s (after & Hs & Hw & Hstop)]; simpl.
  - exists []. repeat split; constructor.
  - destruct (is_word c) eqn:Hc.
    + exists after. simpl. split; [congruence|]. split; [constructor|]; assumption.
    + exists (c :: s). simpl. repeat split; [constructor | assumption].
Qed.

Lemma take_word_maximal (w after : list ascii) :
  Forall (fun d => is_word d = true) w -> stops after -> take_word (w ++ after) = w.
Proof.
  induction 1 as [|c w Hc _ IH]; intros Hstop; simpl.
  - destruct after as [|d after]; [reflexivity|]. simpl in *. rewrite Hstop. reflexivity.
  - rewrite Hc, IH by assumption. reflexivity.
Qed.

Lemma mention_at_head (c : ascii) (s w : list ascii) :
  mention_at (c :: s) 0 w <-> is_at c = true /\ take_word s = w /\ w <> [].
Proof.
  unfold mention_at. simpl. split.
  - intros (c' & after & [= <- ->] & Hat & Hne & Hw & Hstop).
    rewrite take_word_maximal by assumption. auto.
  - intros (Hat & <- & Hne). destruct (take_word_split s) as (after & Hs & Hw & Hstop).
    exists c, after. rewrite <- Hs. auto.
Qed.

Lemma mention_at_drop (text w : list ascii) (k j : nat) :
  mention_at (drop k text) j w <-> mention_at text (k + j) w.
Proof. unfold mention_at. rewrite drop_drop. reflexivity. Qed.

Lemma mention_at_unique (text w w' : list ascii) (i : nat) :
  mention_at text i w -> mention_at text i w' -> w = w'.
Proof.
  intros (c & after & Hd & _ & _ & Hw & Hstop) (c' & after' & Hd' & _ & _ & Hw' & Hstop').
  rewrite Hd in Hd'. injection Hd' as _ He.
  rewrite <- (take_word_maximal w after), <- (take_word_maximal w' after') by assumption.
  congruence.
Qed.

(** No mention starts inside another: the characters of a mention are word
    characters, none of them an at sign. *)
Lemma mention_at_apart (text w w' : list ascii) (i i' : nat) :
  mention_at text i w -> mention_at text i' w' -> i < i' -> i + 1 + length w <= i'.
Proof.
  intros (c & after & Hd & _ & _ & Hw & _) (c' & after' & Hd' & Hat' & _) Hlt.
  destruct (decide (i + 1 + length w <= i')) as [|Hin]; [assumption|]. exfalso.
  assert (Hc' : text !! i' = Some c').
  { rewrite <- (Nat.add_0_r i'), <- lookup_drop, Hd'. reflexivity. }
  assert (Hi' : text !! i' = w !! (i' - i - 1)).
  { replace i' with (i + S (i' - i - 1)) at 1 by lia.
    rewrite <- lookup_drop, Hd. simpl. apply lookup_app_l. lia. }
  rewrite Hc' in Hi'. symmetry in Hi'.
  rewrite Forall_lookup in Hw. apply Hw in Hi'.
  apply at_is_no_word in Hat'. congruence.
Qed.

(** *** The regex *)

Lemma search_spec (s : list ascii) : forall pos : nat,
  match search s pos with
  | Some (i, w) =>
      exists j : nat, i = pos + j /\ mention_at s j w /\
        forall (j' : nat) (w' : list ascii), j' < j -> ~ mention_at s j' w'
  | None => forall (j : nat) (w : list ascii), ~ mention_at s j w
  end.
Proof.
  induction s as [|c s IH]; intros pos; simpl.
  - intros j w (c & after & Hd & _). rewrite drop_nil in Hd. discriminate.
  - assert (Hshift :
      (forall w, ~ mention_at (c :: s) 0 w) ->
      match search s (S pos) with
      | Some (i, w) =>
          exists j : nat, i = pos + j /\ mention_at (c :: s) j w /\
            forall (j' : nat) (w' : list ascii), j' < j -> ~ mention_at (c :: s) j' w'
      | None => forall (j : nat) (w : list ascii), ~ mention_at (c :: s) j w
      end).
    { intros Hhead. specialize (IH (S pos)).
      destruct (search s (S pos)) as [[i w]|].
      - destruct IH as (j & -> & Hm & Hmin). exists (S j).
        split; [lia|]. split; [assumption|].
        intros [|j'] w' Hlt; [apply Hhead | apply Hmin; lia].
      - intros [|j] w; [apply Hhead | apply IH]. }
    destruct (is_at c) eqn:Hat.
    + destruct (take_word s) as [|a w] eqn:Hw.
      * apply Hshift. intros w Hm. apply mention_at_head in Hm as (_ & Hw' & Hne).
        congruence.
      * exists 0. split; [lia|]. split; [|intros; lia].
        apply mention_at_head. rewrite Hw. auto.
    + apply Hshift. intros w Hm. apply mention_at_head in Hm as (Hat' & _). congruence.
Qed.

(** [exec] returns the first mention at or after [lastIndex], if there is one. *)
Lemma regex_exec_Some (text w : list ascii) (lastIndex i : nat) :
  regex_exec text lastIndex = Some (i, w) ->
  lastIndex <= i /\ mention_at text i w /\
  forall (i' : nat) (w' : list ascii), lastIndex <= i' < i -> ~ mention_at text i' w'.
Proof.
  unfold regex_exec. intros Hs.
  pose proof (search_spec (drop lastIndex text) lastIndex) as H. rewrite Hs in H.
  destruct H as (j & -> & Hm & Hmin). split; [lia|].
  split; [apply mention_at_drop, Hm|].
  intros i' w' Hi' Hm'. apply (Hmin (i' - lastIndex) w'); [lia|].
  apply mention_at_drop. replace (lastIndex + (i' - lastIndex)) with i' by lia. exact Hm'.
Qed.

Lemma regex_exec_None (text : list ascii) (lastIndex : nat) :
  regex_exec text lastIndex = None ->
  forall (i : nat) (w : list ascii), lastIndex <= i -> ~ mention_at text i w.
Proof.
  unfold regex_exec. intros Hs i w Hi Hm.
  pose proof (search_spec (drop lastIndex text) lastIndex) as H. rewrite Hs in H.
  apply (H (i - lastIndex) w). apply mention_at_drop.
  replace (lastIndex + (i - lastIndex)) with i by lia. exact Hm.
Qed.

(** *** The loop *)

(** The loop pushes the words of the mentions at or after [lastIndex], one
    for each, in the order of their indices. *)
Lemma exec_loop_spec (text : list ascii) (lastIndex : nat) :
  exists ms : list (nat * list ascii),
    exec_loop text lastIndex = ms.*2 /\
    (forall (p q : nat) (x y : nat * list ascii),
       ms !! p = Some x -> ms !! q = Some y -> p < q -> x.1 < y.1) /\
    (forall (i : nat) (w : list ascii),
       (i, w) ∈ ms <-> lastIndex <= i /\ mention_at text i w).
Proof.
  funelim (exec_loop text lastIndex).
  - match goal with IH : exists _, _ |- _ => destruct IH as (ms & Hloop & Hsorted & Hms) end.
    destruct (regex_exec_Some _ _ _ _ Hm) as (Hle & Hhere & Hfirst).
    exists ((index, w) :: ms). split; [rewrite Hloop; reflexivity|]. split.
    + intros [|p] [|q] x y Hx Hy Hpq; try lia; simpl in Hx, Hy.
      * injection Hx as <-. destruct y as [i' w']. simpl.
        apply list_elem_of_lookup_2, Hms in Hy. lia.
      * apply (Hsorted p q); [assumption | assumption | lia].
    + intros i w0. rewrite elem_of_cons, Hms. split.
      * intros [[= -> ->] | [Hi Hm0]]; split; (assumption || lia).
      * intros [Hi Hm0].
        destruct (Nat.lt_trichotomy i index) as [Hlt | [-> | Hgt]].
        -- exfalso. apply (Hfirst i w0); [lia | assumption].
        -- left. f_equal. apply (mention_at_unique text w0 w index); assumption.
        -- right. split; [|assumption].
           apply (mention_at_apart text w w0 index i); assumption.
  - exists []. split; [reflexivity|]. split.
    + intros p q x y Hx. rewrite lookup_nil in Hx. discriminate.
    + intros i w. rewrite elem_of_nil. split; [contradiction|].
      intros [Hi Hm]. eapply regex_exec_None; eassumption.
Qed.

(** *** The set *)

Lemma Set_of_snoc (l : list (list ascii)) (x : list ascii) :
  Set_of (l ++ [x]) = Set_add (Set_of l) x.
Proof. unfold Set_of. rewrite fold_left_app. reflexivity. Qed.

(** The set keeps one copy of every element, at the place of its first
    occurrence. *)
Lemma Set_of_spec (l : list (list ascii)) :
  NoDup (Set_of l) /\
  (forall x : list ascii, x ∈ Set_of l <-> x ∈ l) /\
  (forall (i j : nat) (a b : list ascii),
     Set_of l !! i = Some a -> Set_of l !! j = Some b -> i < j ->
     exists p : nat, l !! p = Some a /\ forall q : nat, l !! q = Some b -> p < q).
Proof.
  induction l as [|x l (Hnd & Hin & Hord)] using rev_ind.
  - split; [constructor|]. split; [reflexivity|].
    intros i j a b Hi. unfold Set_of in Hi. simpl in Hi.
    rewrite ?lookup_nil in Hi. discriminate.
  - rewrite Set_of_snoc. unfold Set_add.
    assert (Hkeep : forall (i j : nat) (a b : list ascii),
      Set_of l !! i = Some a -> Set_of l !! j = Some b -> i < j ->
      exists p : nat, (l ++ [x]) !! p = Some a /\
        forall q : nat, (l ++ [x]) !! q = Some b -> p < q).
    { intros i j a b Hi Hj Hij. destruct (Hord i j a b Hi Hj Hij) as (p & Hp & Hq).
      exists p. split; [apply lookup_app_l_Some, Hp|].
      intros q Hqb. apply lookup_lt_Some in Hp as Hpl.
      destruct (decide (q < length l)) as [Hql|Hql]; [|lia].
      apply Hq. rewrite lookup_app_l in Hqb; assumption. }
    destruct (decide (x ∈ Set_of l)) as [Hx|Hx].
    + split; [assumption|]. split; [|exact Hkeep].
      intros y. rewrite elem_of_app, list_elem_of_singleton, Hin.
      split; [tauto|]. intros [Hy | ->]; [assumption | apply Hin, Hx].
    + split; [|split].
      * apply NoDup_app. split; [assumption|]. split; [|apply NoDup_singleton].
        intros y Hy ->%list_elem_of_singleton. contradiction.
      * intros y. rewrite !elem_of_app, Hin. reflexivity.
      * intros i j a b Hi Hj Hij.
        destruct (decide (j < length (Set_of l))) as [Hjl|Hjl].
        -- rewrite lookup_app_l in Hi, Hj by lia. apply (Hkeep i j); assumption.
        -- apply lookup_lt_Some in Hj as Hjb. rewrite length_app in Hjb. simpl in Hjb.
           assert (j = length (Set_of l)) as -> by lia.
           rewrite lookup_app_l in Hi by lia.
           rewrite list_lookup_middle in Hj by reflexivity. injection Hj as <-.
           apply list_elem_of_lookup_2, Hin, list_elem_of_lookup_1 in Hi as [p Hp].
           exists p. split; [apply lookup_app_l_Some, Hp|].
           intros q Hqx. apply lookup_lt_Some in Hp as Hpl.
           destruct (decide (q < length l)) as [Hql|Hql]; [|lia].
           rewrite lookup_app_l in Hqx by assumption.
           exfalso. apply Hx, Hin. eapply list_elem_of_lookup_2, Hqx.
Qed.

(** C9.  [extractMentions] returns a list without duplicates; its elements
    are exactly the words that the text mentions (the maximal runs of word
    characters that follow an at sign); and they come in the order of their
    first occurrence in the text. *)
Theorem extractMentions_spec (text : list ascii) :
  NoDup (extractMentions text) /\
  (forall w : list ascii,
     w ∈ extractMentions text <-> exists i : nat, mention_at text i w) /\
  (forall (i j : nat) (a b : list ascii),
     extractMentions text !! i = Some a -> extractMentions text !! j = Some b -> i < j ->
     exists p : nat, mention_at text p a /\
       forall q : nat, mention_at text q b -> p < q).
Proof.
  unfold extractMentions.
  destruct (exec_loop_spec text 0) as (ms & -> & Hsorted & Hms).
  destruct (Set_of_spec ms.*2) as (Hnd & Hin & Hord).
  split; [assumption|]. split.
  - intros w. rewrite Hin, list_elem_of_fmap. split.
    + intros ([i w'] & -> & Hiw). exists i. apply Hms, Hiw.
    + intros [i Hm]. exists (i, w). split; [reflexivity|]. apply Hms. split; [lia|assumption].
  - intros i j a b Hi Hj Hij. destruct (Hord i j a b Hi Hj Hij) as (p & Hp & Hq).
    rewrite list_lookup_fmap in Hp.
    destruct (ms !! p) as [[ip a']|] eqn:Hmp; [|discriminate]. injection Hp as ->.
    exists ip. split; [eapply Hms, list_elem_of_lookup_2, Hmp|].
    intros iq Hmq.
    assert (Hq' : (iq, b) ∈ ms) by (apply Hms; split; [lia|assumption]).
    apply list_elem_of_lookup_1 in Hq' as [q Hmq'].
    assert (Hpq : p < q) by (apply Hq; rewrite list_lookup_fmap, Hmq'; reflexivity).
    apply (Hsorted p q _ _ Hmp Hmq' Hpq).
Qed.

Lemma extractMentions_spec_witness :
  let text := text_of "@bob, @alice and @bob" in
  NoDup (extractMentions text) /\
  text_of "alice" ∈ extractMentions text /\
  exists p : nat, mention_at text p (text_of "bob") /\
    forall q : nat, mention_at text q (text_of "alice") -> p < q.
Proof.
  intros text. destruct (extractMentions_spec text) as (Hnd & Hin & Hord).
  split; [exact Hnd|]. split.
  - apply Hin. exists 6, "@"%char, (text_of " and @bob").
    split; [reflexivity|]. split; [reflexivity|]. split; [discriminate|].
    split; [repeat constructor | reflexivity].
  - apply (Hord 0 1); [reflexivity | reflexivity | lia].
Defined.

Example extractMentions_example :
  extractMentions (text_of "hi @bob and @alice, @bob! mail user@example.com @ @@x")
  = [text_of "bob"; text_of "alice"; text_of "example"; text_of "x"].
Proof. reflexivity. Qed.

End Mentions.

(** ** More on the user-scoped channel *)

Module UserChannel.
Import WebSocketManager.
Import Reconnection.
Import Lifecycle.
Local Open Scope Z_scope.

(** *** The reconnect counter and the reconnect timer *)

Definition counter_in_budget (s : state) : Prop :=
  0 <= reconnectAttempts s <= maxReconnectAttempts s /\
  (socket s = Some OPEN -> reconnectAttempts s = 0).

Lemma counter_construct (pg : page) : counter_in_budget (construct pg).
Proof.
  destruct pg as [[|] am ng]; unfold construct, counter_in_budget; crunch;
    split; (lia || congruence).
Qed.

Lemma counter_step (s : state) (ev : event) :
  invariant s -> enabled s ev = true ->
  counter_in_budget s -> counter_in_budget (step s ev).
Proof.
  intros Hinv Hen [Hrange Hopen].
  destruct (output_only ev) eqn:Hout.
  { rewrite step_output_only by assumption. split; assumption. }
  destruct Hinv as [Hmax Hint Hhb Hpend Hsingle Hsock].
  destruct s as [sock att mx itv hbi hbt pg tos ivs nt o]; unfold counter_in_budget in *;
    simpl in *.
  destruct ev as [|p|c| |i|id now|ty d| |]; simpl in Hen; try discriminate.
  - crunch; split; intros; (lia || reflexivity).
  - destruct c; crunch; split; intros; (lia || congruence).
  - apply bool_decide_eq_true in Hen.
    assert (Hdead : sock <> Some OPEN).
    { intros ->. unfold live in Hpend. simpl in Hpend.
      rewrite Hpend in Hen by reflexivity. rewrite lookup_nil in Hen.
      destruct Hen; discriminate. }
    crunch; split; intros; (lia || congruence).
  - destruct sock as [[]|]; crunch; split; intros; (lia || congruence).
  - crunch; split; intros; (lia || congruence).
Qed.

(** X1.  In every reachable state of the user-scoped client the reconnect
    counter lies between 0 and the maximum, 5, and it is 0 whenever the socket
    is open. *)
Theorem reconnect_counter_bounded (s : state) :
  reachable s ->
  0 <= reconnectAttempts s <= 5 /\
  (connectionState s = Connected -> reconnectAttempts s = 0).
Proof.
  intros Hreach.
  assert (H : invariant s /\ counter_in_budget s).
  { induction Hreach as [pg|s ev Hreach [Hinv Hc] Hen].
    - split; [apply invariant_construct | apply counter_construct].
    - split; [apply invariant_step | apply counter_step]; assumption. }
  destruct H as [[Hmax _ _ _ _ _] [Hrange Hopen]].
  split; [lia|]. intros Hc. apply Hopen. apply Heartbeat.connected_iff_open, Hc.
Qed.

Lemma reconnect_counter_bounded_witness :
  let s := run (construct ReconnectionPolicy.full_page) ReconnectionPolicy.three_drops in
  0 <= reconnectAttempts s <= 5 /\
  (connectionState s = Connected -> reconnectAttempts s = 0).
Proof.
  apply (reconnect_counter_bounded
           (run (construct ReconnectionPolicy.full_page) ReconnectionPolicy.three_drops)).
  apply reachable_run; [apply reachable_construct | vm_compute; reflexivity].
Defined.

(** X2.  In every reachable state at most one reconnect timer is pending, and
    none while a socket is connecting, open or closing: a reconnect timer only
    fires on a disconnected client, so that [connect] never replaces a socket
    that is still alive. *)
Theorem single_reconnect_timer (s : state) :
  reachable s ->
  (length (timeouts s) <= 1)%nat /\
  (live s = true -> timeouts s = []) /\
  (forall i : nat, enabled s (ReconnectTimer i) = true ->
     connectionState s = Disconnected).
Proof.
  intros Hreach. pose proof (reachable_invariant s Hreach) as Hinv.
  destruct Hinv as [Hmax Hint Hhb Hpend Hsingle Hsock].
  split; [assumption|]. split; [assumption|].
  intros i Hen. simpl in Hen. apply bool_decide_eq_true in Hen.
  unfold connectionState. unfold live in Hpend.
  destruct (socket s) as [[]|]; try reflexivity;
    rewrite Hpend in Hen by reflexivity; rewrite lookup_nil in Hen;
    destruct Hen; discriminate.
Qed.

Lemma single_reconnect_timer_witness :
  let s := run (construct ReconnectionPolicy.full_page) [Close false] in
  (length (timeouts s) <= 1)%nat /\
  (live s = true -> timeouts s = []) /\
  (forall i : nat, enabled s (ReconnectTimer i) = true ->
     connectionState s = Disconnected).
Proof.
  apply (single_reconnect_timer (run (construct ReconnectionPolicy.full_page) [Close false])).
  apply reachable_run; [apply reachable_construct | vm_compute; reflexivity].
Defined.

(** *** Outbound frames *)

(** X3.  In a reachable state a heartbeat callback never throws, and it finds
    the socket open or closing.  On an open socket it hands exactly one
    [heartbeat] frame with the current time to the transport and logs
    nothing; on a closing one (the server has started the closing handshake
    and the close event is still to come) it sends nothing and ends in the
    "not connected" warning. *)
Theorem heartbeat_sent_or_warned (s : state) (id : positive) (now : Z) :
  reachable s ->
  enabled s (HeartbeatTimer id now) = true ->
  throws (react (HeartbeatTimer id now)) s = None /\
  (connectionState s = Connected \/ connectionState s = Closing) /\
  (connectionState s = Connected ->
   step s (HeartbeatTimer id now) =
     set_out (out s ++ [Transmit (VObj [("type"%string, VStr "heartbeat");
                                        ("timestamp"%string, VNum now)])]) s) /\
  (connectionState s = Closing ->
   step s (HeartbeatTimer id now) =
     set_out (out s ++ [Console Warn "WebSocket not connected, message not sent:"]) s).
Proof.
  intros Hreach Hen. simpl in Hen. apply bool_decide_eq_true in Hen.
  destruct (Heartbeat.invariant_active s (reachable_invariant s Hreach)) as [_ Honly].
  assert (Hstate : connectionState s = Connected \/ connectionState s = Closing).
  { apply Honly. unfold heartbeat_active. set_solver. }
  unfold connectionState in *.
  destruct s as [[[]|] ? ? ? ? ? ? ? ? ? ?]; simpl in *;
    (destruct Hstate as [?|?]; try discriminate);
    (split; [reflexivity|]); (split; [auto|]);
    split; intros; (reflexivity || discriminate).
Qed.

Lemma heartbeat_sent_or_warned_witness :
  let s := run (construct ReconnectionPolicy.full_page) [Open; ServerClosing] in
  throws (react (HeartbeatTimer 1 1700000000000)) s = None /\
  (connectionState s = Connected \/ connectionState s = Closing) /\
  (connectionState s = Connected ->
   step s (HeartbeatTimer 1 1700000000000) =
     set_out (out s ++ [Transmit (VObj [("type"%string, VStr "heartbeat");
                                        ("timestamp"%string, VNum 1700000000000)])]) s) /\
  (connectionState s = Closing ->
   step s (HeartbeatTimer 1 1700000000000) =
     set_out (out s ++ [Console Warn "WebSocket not connected, message not sent:"]) s).
Proof.
  apply (heartbeat_sent_or_warned
           (run (construct ReconnectionPolicy.full_page) [Open; ServerClosing])).
  - apply reachable_run; [apply reachable_construct | vm_compute; reflexivity].
  - vm_compute. reflexivity.
Defined.

Example heartbeat_on_open_socket :
  let s := run (construct ReconnectionPolicy.full_page) [Open] in
  transmitted (step s (HeartbeatTimer 1 1700000000000))
    = [VObj [("type"%string, VStr "heartbeat"); ("timestamp"%string, VNum 1700000000000)]].
Proof. vm_compute. reflexivity. Qed.






(** *** A socket URL that the browser rejects *)

Definition never_connected (s : state) : Prop :=
  socket s = None /\
  intervals s = ∅ /\
  1 <= reconnectAttempts s <= 5 /\
  scheduled s = backoff 0 (Z.to_nat (reconnectAttempts s)) /\
  transmitted s = [].

Lemma never_connected_construct (pg : page) :
  url_accepted pg = false -> never_connected (construct pg).
Proof.
  destruct pg as [u am ng]. simpl. intros ->.
  unfold never_connected. repeat split; try (vm_compute; congruence).
Qed.

Lemma never_connected_step (s : state) (ev : event) :
  invariant s -> url_accepted (env s) = false -> enabled s ev = true ->
  never_connected s -> never_connected (step s ev).
Proof.
  intros [Hmax Hint _ _ _ _] Hurl Hen (Hsock & Hiv & Hrange & Hsched & Htx).
  destruct s as [sock att mx itv hbi hbt pg tos ivs nt o];
    unfold never_connected, scheduled, transmitted in *; simpl in *; subst.
  destruct ev as [|p|c| |i|id now|ty d| |]; simpl in Hen; try discriminate.
  - crunch; rewrite ?omap_app, ?Hsched, ?Htx; simpl; rewrite ?app_nil_r;
      repeat split; try lia.
    replace (Z.to_nat (att + 1)) with (S (Z.to_nat att)) by lia.
    unfold backoff. rewrite seq_S, map_app. simpl. do 2 f_equal. lia.
  - crunch. rewrite !omap_app, Hsched, Htx. simpl. rewrite !app_nil_r.
    repeat split; try lia.
  - crunch; repeat split; auto; try lia; set_solver.
Qed.

(** X5.  When the browser rejects the socket URL, the constructor and every
    reconnect end in the [catch] of [connect]: in every reachable state there
    is no socket and no heartbeat, nothing has been transmitted, and the
    reconnects scheduled so far are the first [reconnectAttempts] steps of the
    same backoff, 5000, 10000, ... ms, at most five of them. *)
Theorem rejected_url_backoff (s : state) :
  reachable s ->
  url_accepted (env s) = false ->
  connectionState s = Disconnected /\
  ~ heartbeat_active s /\
  transmitted s = [] /\
  1 <= reconnectAttempts s <= 5 /\
  scheduled s = backoff 0 (Z.to_nat (reconnectAttempts s)).
Proof.
  intros Hreach Hurl.
  assert (H : never_connected s).
  { induction Hreach as [pg|s ev Hreach IH Hen].
    - apply never_connected_construct.
      destruct pg as [[|] am ng]; [discriminate Hurl | reflexivity].
    - destruct (step_config s ev) as (_ & _ & _ & Henv). rewrite Henv in Hurl.
      apply never_connected_step; auto. apply reachable_invariant, Hreach. }
  destruct H as (Hsock & Hiv & Hrange & Hsched & Htx).
  unfold connectionState, heartbeat_active. rewrite Hsock. auto.
Qed.

Definition broken_page : page :=
  {| url_accepted := false; accountsManager := true; notifications_granted := false |}.

Lemma rejected_url_backoff_witness :
  let s := run (construct broken_page) [ReconnectTimer 0; ReconnectTimer 0] in
  connectionState s = Disconnected /\
  ~ heartbeat_active s /\
  transmitted s = [] /\
  1 <= reconnectAttempts s <= 5 /\
  scheduled s = backoff 0 (Z.to_nat (reconnectAttempts s)).
Proof.
  apply (rejected_url_backoff (run (construct broken_page) [ReconnectTimer 0; ReconnectTimer 0])).
  - apply reachable_run; [apply reachable_construct | vm_compute; reflexivity].
  - vm_compute. reflexivity.
Defined.

Example rejected_url_gives_up :
  let s := run (construct broken_page)
             [ReconnectTimer 0; ReconnectTimer 0; ReconnectTimer 0; ReconnectTimer 0;
              ReconnectTimer 0] in
  scheduled s = [5000; 10000; 15000; 20000; 25000] /\ timeouts s = [] /\
  ReconnectionPolicy.notices s
    = [(VStr "Connection Lost",
        VStr "Unable to reconnect to server. Please refresh the page.", VStr "error")].
Proof. vm_compute. repeat split; reflexivity. Qed.

End UserChannel.

(** ** More on the room-scoped channel *)

Module RoomChannel.
Import ChatRoomManager.
Import Room.
Local Open Scope Z_scope.

(** *** Reconnection without a cap *)

Definition is_close (ev : event) : bool :=
  match ev with Close _ => true | _ => false end.

Definition closes (evs : list event) : nat :=
  length (filter (fun ev => is_close ev = true) evs).

Lemma step_not_close (r : state) (ev : event) :
  is_close ev = false -> scheduled (step r ev) = scheduled r.
Proof.
  intros Hev. destruct r, ev; try discriminate; unfold scheduled; crunch;
    rewrite ?omap_app; simpl; rewrite ?app_nil_r; reflexivity.
Qed.

(** X6.  The room-scoped client has no retry budget and no backoff: in every
    run, from every state, each close event schedules one more reconnect
    after 3000 ms, however many came before, and nothing else schedules one. *)
Theorem room_reconnects_without_cap (evs : list event) : forall r : state,
  scheduled (run r evs) = scheduled r ++ replicate (closes evs) 3000.
Proof.
  induction evs as [|ev evs IH]; intros r; simpl.
  - unfold closes. simpl. rewrite app_nil_r. reflexivity.
  - rewrite IH. unfold closes. destruct (is_close ev) eqn:Hev.
    + rewrite filter_cons_True by assumption. simpl.
      destruct ev; try discriminate.
      destruct (close_reconnects r wasClean) as [-> _].
      rewrite <- app_assoc. reflexivity.
    + rewrite filter_cons_False by congruence.
      rewrite step_not_close by assumption. reflexivity.
Qed.

(** *** Blank and non-blank messages *)

Fixpoint blank (s : string) : bool :=
  match s with
  | EmptyString => true
  | String c rest => is_space c && blank rest
  end.

Lemma trimStart_blank (s : string) : blank s = true -> trimStart s = ""%string.
Proof.
  induction s as [|c s IH]; simpl; [reflexivity|].
  intros [Hc Hs]%andb_true_iff. rewrite Hc. apply IH, Hs.
Qed.

Lemma trim_blank (s : string) : blank s = true -> trim s = ""%string.
Proof. intros H. unfold trim. rewrite trimStart_blank by assumption. reflexivity. Qed.

Lemma trimEnd_empty (s : string) : trimEnd s = ""%string -> blank s = true.
Proof.
  induction s as [|c s IH]; simpl; [reflexivity|].
  destruct (trimEnd s) eqn:Hs; [|discriminate].
  destruct (is_space c); [intros _; apply IH; reflexivity | discriminate].
Qed.

Lemma trimStart_empty (s : string) : trimStart s = ""%string -> blank s = true.
Proof.
  induction s as [|c s IH]; simpl; [reflexivity|].
  destruct (is_space c); [exact IH | discriminate].
Qed.

Lemma trim_empty_iff (s : string) : trim s = ""%string <-> blank s = true.
Proof.
  split; [|apply trim_blank]. unfold trim. intros H. apply trimEnd_empty in H.
  clear -H. induction s as [|c s IH]; simpl in *; [reflexivity|].
  destruct (is_space c) eqn:Hc; simpl; [apply IH, H|].
  simpl in H. rewrite Hc in H. discriminate.
Qed.

(** The no-break space is stripped like the space. *)
Definition nbsp : ascii := "160"%char.

Example trim_nbsp :
  blank (String nbsp " ") = true /\
  trim (String nbsp (String "h" (String "i" (String nbsp " ")))) = "hi"%string.
Proof. split; vm_compute; reflexivity. Qed.

(** X7.  Submitting a message box that is empty or holds only white space
    (every character is one that [trim] strips) does nothing at all, whatever
    the state of the socket: nothing is sent, nothing is raised, and the box,
    the reply and the typing flag stay as they are. *)
Theorem blank_message_ignored (r : state) :
  blank (input_value r) = true ->
  uncaught r Submit = None /\ step r Submit = r.
Proof.
  intros Hblank. apply trim_blank in Hblank.
  destruct r; simpl in *. crunch; try (split; reflexivity).
  all: rewrite Hblank in *; discriminate.
Qed.

Lemma blank_message_ignored_witness :
  let r := run construct [Open; Input (String nbsp "  ")] in
  uncaught r Submit = None /\ step r Submit = r.
Proof.
  apply (blank_message_ignored (run construct [Open; Input (String nbsp "  ")])).
  vm_compute. reflexivity.
Defined.

Definition chat_frame (content : string) (reply : value) : value :=
  VObj [("type"%string, VStr "chat_message"); ("content"%string, VStr content);
        ("reply_to"%string, reply)].

Definition typing_frame (is_typing : bool) : value :=
  VObj [("type"%string, VStr "typing"); ("is_typing"%string, VBool is_typing)].

(** X8.  On an open socket, submitting a message that is not blank (some
    character of the box is not white space) raises nothing and transmits the
    trimmed text with the current reply reference, followed
    by a [typing: false] frame if the user was marked as typing; afterwards
    the box is empty, the reply reference is cleared and the user is no
    longer marked as typing. *)
Theorem message_sent_when_open (r : state) :
  socket r = Some OPEN ->
  blank (input_value r) = false ->
  uncaught r Submit = None /\
  transmitted (step r Submit) =
    transmitted r ++ chat_frame (trim (input_value r)) (replyTo r)
                  :: (if isTyping r then [typing_frame false] else []) /\
  input_value (step r Submit) = ""%string /\
  replyTo (step r Submit) = VNull /\
  isTyping (step r Submit) = false.
Proof.
  intros Hsock Hblank.
  assert (Hne : String.eqb (trim (input_value r)) "" = false).
  { apply String.eqb_neq. intros H. apply trim_empty_iff in H. congruence. }
  destruct r as [sock tt [|] rp iv ua tos nt o]; simpl in *; subst;
    unfold transmitted; crunch; rewrite ?omap_app; simpl;
    rewrite ?app_nil_r, <- ?app_assoc; repeat split; reflexivity.
Qed.

Lemma message_sent_when_open_witness :
  let r := run construct [Open; Input " hello "] in
  uncaught r Submit = None /\
  transmitted (step r Submit) =
    transmitted r ++ chat_frame (trim (input_value r)) (replyTo r)
                  :: (if isTyping r then [typing_frame false] else []) /\
  input_value (step r Submit) = ""%string /\
  replyTo (step r Submit) = VNull /\
  isTyping (step r Submit) = false.
Proof.
  apply (message_sent_when_open (run construct [Open; Input " hello "]));
    vm_compute; reflexivity.
Defined.

(** X9.  On a socket that is closing or closed (as it is during the three
    seconds before a reconnect), submitting a message that is not blank
    raises nothing and transmits nothing, and the script neither logs the
    loss nor tells the user (whatever diagnostic the browser prints for the
    [send] is its own); and yet the box is emptied and the reply reference
    cleared: the only thing the script does is to hide the reply preview. *)
Theorem message_lost_when_closed (r : state) :
  socket r = Some CLOSING \/ socket r = Some CLOSED ->
  blank (input_value r) = false ->
  uncaught r Submit = None /\
  transmitted (step r Submit) = transmitted r /\
  out (step r Submit) = out r ++ [ReplyPreviewHidden] /\
  input_value (step r Submit) = ""%string /\
  replyTo (step r Submit) = VNull.
Proof.
  intros Hsock Hblank.
  assert (Hne : String.eqb (trim (input_value r)) "" = false).
  { apply String.eqb_neq. intros H. apply trim_empty_iff in H. congruence. }
  destruct r as [sock tt [|] rp iv ua tos nt o]; simpl in *;
    destruct Hsock; subst; unfold transmitted; crunch; rewrite ?omap_app; simpl;
    rewrite ?app_nil_r; repeat split; reflexivity.
Qed.

Lemma message_lost_when_closed_witness :
  let r := run construct [Open; Close false; Input "hello"] in
  uncaught r Submit = None /\
  transmitted (step r Submit) = transmitted r /\
  out (step r Submit) = out r ++ [ReplyPreviewHidden] /\
  input_value (step r Submit) = ""%string /\
  replyTo (step r Submit) = VNull.
Proof.
  apply (message_lost_when_closed (run construct [Open; Close false; Input "hello"])).
  - right. vm_compute. reflexivity.
  - vm_compute. reflexivity.
Defined.

(** *** The typing indicator *)

(** Timer ids are fresh, and the only [StopTyping] timer that can be pending
    is the one that [typingTimeout] names. *)
Record typing_invariant (r : state) : Prop := {
  ti_fresh : forall (id : positive) (cb : callback),
    timeouts r !! id = Some cb -> (id < next_timer r)%positive;
  ti_named : forall id : positive,
    timeouts r !! id = Some StopTyping -> typingTimeout r = Some id
}.

Lemma typing_invariant_construct : typing_invariant construct.
Proof. split; intros id; vm_compute; discriminate. Qed.

Lemma typing_invariant_step (r : state) (ev : event) :
  typing_invariant r -> typing_invariant (step r ev).
Proof.
  intros [Hfresh Hnamed].
  destruct r as [sock tt ty rp iv ua tos nt o]; simpl in *.
  destruct ev; crunch; split; simpl; intros j; intros;
    repeat match goal with
           | H : <[_ := _]> _ !! _ = Some _ |- _ => apply lookup_insert_Some in H
           | H : delete _ _ !! _ = Some _ |- _ => apply lookup_delete_Some in H
           | H : _ /\ _ |- _ => destruct H
           | H : _ \/ _ |- _ => destruct H
           end; subst; try discriminate; try reflexivity; try lia;
    try (match goal with H : tos !! _ = Some _ |- _ => apply Hfresh in H end; lia);
    try (match goal with H : tos !! _ = Some StopTyping |- _ => apply Hnamed in H end;
         congruence).
Qed.

Lemma typing_invariant_run (evs : list event) : forall r : state,
  typing_invariant r -> typing_invariant (run r evs).
Proof.
  induction evs as [|ev evs IH]; intros r Hr; simpl; [assumption|].
  apply IH, typing_invariant_step, Hr.
Qed.

(** X10.  Whatever happens to a room after its construction, at most one
    stop-typing timer is pending, and it is the one that [typingTimeout]
    holds: each keystroke replaces the timer of the one before. *)
Theorem single_typing_timer (evs : list event) (id id' : positive) :
  let r := run construct evs in
  timeouts r !! id = Some StopTyping ->
  timeouts r !! id' = Some StopTyping ->
  id = id' /\ typingTimeout r = Some id.
Proof.
  intros r Hid Hid'.
  destruct (typing_invariant_run evs construct typing_invariant_construct) as [_ Hnamed].
  fold r in Hnamed. apply Hnamed in Hid as Hid1. apply Hnamed in Hid'. split; congruence.
Qed.

Lemma single_typing_timer_witness :
  let r := run construct [Open; Input "h"; Input "hi"] in
  2%positive = 2%positive /\ typingTimeout r = Some 2%positive.
Proof.
  apply (single_typing_timer [Open; Input "h"; Input "hi"] 2 2); vm_compute; reflexivity.
Defined.

(** The user is marked as typing on an open socket, [sent] is what has been
    transmitted, and the stop-typing timer is pending. *)
Definition typing_session (r : state) (sent : list value) : Prop :=
  socket r = Some OPEN /\ isTyping r = true /\ transmitted r = sent /\
  typing_invariant r /\
  exists id : positive, typingTimeout r = Some id /\ timeouts r !! id = Some StopTyping.

Lemma first_keystroke (r : state) (text : string) :
  typing_invariant r -> socket r = Some OPEN -> isTyping r = false ->
  typing_session (step r (Input text)) (transmitted r ++ [typing_frame true]).
Proof.
  intros Hinv Hsock Htyping.
  pose proof (typing_invariant_step r (Input text) Hinv) as Hinv'.
  destruct r as [sock tt ty rp iv ua tos nt o]; simpl in *; subst.
  unfold typing_session, transmitted in *. revert Hinv'. crunch; intros Hinv';
    rewrite ?omap_app; simpl; rewrite ?app_nil_r;
    (split; [reflexivity|]); (split; [reflexivity|]); (split; [reflexivity|]);
    (split; [exact Hinv'|]); exists nt; (split; [reflexivity|]);
    apply lookup_insert_eq.
Qed.

Lemma next_keystroke (r : state) (sent : list value) (text : string) :
  typing_session r sent -> typing_session (step r (Input text)) sent.
Proof.
  intros (Hsock & Htyping & Hsent & Hinv & id & Hid & Hpending).
  pose proof (typing_invariant_step r (Input text) Hinv) as Hinv'.
  destruct r as [sock tt ty rp iv ua tos nt o]; simpl in *; subst.
  unfold typing_session, transmitted in *. revert Hinv'. crunch; intros Hinv'.
  split; [reflexivity|]. split; [reflexivity|]. split; [reflexivity|].
  split; [exact Hinv'|]. exists nt. split; [reflexivity | apply lookup_insert_eq].
Qed.

Lemma keystrokes (texts : list string) : forall (r : state) (sent : list value),
  typing_session r sent -> typing_session (run r (map Input texts)) sent.
Proof.
  induction texts as [|text texts IH]; intros r sent Hr; simpl; [assumption|].
  apply IH, next_keystroke, Hr.
Qed.

Lemma typing_timer_fires (r : state) (sent : list value) (id : positive) :
  typing_session r sent -> typingTimeout r = Some id ->
  transmitted (step r (Timer id)) = sent ++ [typing_frame false] /\
  isTyping (step r (Timer id)) = false /\
  forall j : positive, timeouts (step r (Timer id)) !! j <> Some StopTyping.
Proof.
  intros (Hsock & Htyping & Hsent & [Hfresh Hnamed] & id' & Hid' & Hpending) Hid.
  destruct r as [sock tt ty rp iv ua tos nt o]; simpl in *; subst.
  injection Hid as ->. unfold transmitted in *. crunch.
  rewrite omap_app. simpl. split; [reflexivity|]. split; [reflexivity|].
  intros j Hj. apply lookup_delete_Some in Hj as [Hne Hj].
  apply Hnamed in Hj. congruence.
Qed.

(** X11.  Take a room, at any point of its life, whose socket is open and
    whose user is not marked as typing.  A burst of keystrokes, however long,
    transmits a single [typing: true] frame and leaves one stop-typing timer
    pending; when that timer fires, a single [typing: false] frame follows,
    the mark is removed and no stop-typing timer is left. *)
Theorem typing_round_trip (evs : list event) (first : string) (more : list string) :
  let r := run construct evs in
  let r' := run r (map Input (first :: more)) in
  socket r = Some OPEN ->
  isTyping r = false ->
  exists id : positive,
    typingTimeout r' = Some id /\
    timeouts r' !! id = Some StopTyping /\
    transmitted r' = transmitted r ++ [typing_frame true] /\
    transmitted (step r' (Timer id)) =
      transmitted r ++ [typing_frame true; typing_frame false] /\
    isTyping (step r' (Timer id)) = false /\
    forall j : positive, timeouts (step r' (Timer id)) !! j <> Some StopTyping.
Proof.
  intros r r' Hsock Htyping.
  assert (Hinv : typing_invariant r)
    by apply typing_invariant_run, typing_invariant_construct.
  assert (Hsession : typing_session r' (transmitted r ++ [typing_frame true])).
  { subst r'. simpl. apply keystrokes, first_keystroke; assumption. }
  destruct Hsession as (H1 & H2 & H3 & H4 & id & Hid & Hpending) eqn:E.
  exists id. split; [assumption|]. split; [assumption|]. split; [assumption|].
  destruct (typing_timer_fires r' _ id
              (conj H1 (conj H2 (conj H3 (conj H4 (ex_intro _ id (conj Hid Hpending))))))
              Hid) as (Ht & Hi & Hn).
  rewrite <- app_assoc in Ht. auto.
Qed.

Lemma typing_round_trip_witness :
  let r := run construct [Open] in
  let r' := run r (map Input ["h"; "he"; "hey"]%string) in
  exists id : positive,
    typingTimeout r' = Some id /\
    timeouts r' !! id = Some StopTyping /\
    transmitted r' = transmitted r ++ [typing_frame true] /\
    transmitted (step r' (Timer id)) =
      transmitted r ++ [typing_frame true; typing_frame false] /\
    isTyping (step r' (Timer id)) = false /\
    forall j : positive, timeouts (step r' (Timer id)) !! j <> Some StopTyping.
Proof.
  apply (typing_round_trip [Open] "h" ["he"; "hey"]%string); vm_compute; reflexivity.
Defined.

End RoomChannel.

(** ** [timeAgo] *)

Module TimeAgo.
Import UtilsHelpers.
Local Open Scope Z_scope.

Lemma whole_unit_fits (diff seconds : Z) :
  0 < seconds -> (1 <=? diff / seconds) = true <-> seconds <= diff.
Proof.
  intros Hs. rewrite Z.leb_le. split; intros H.
  - pose proof (Z.mul_div_le diff seconds Hs). nia.
  - apply Z.div_le_lower_bound; lia.
Qed.

(** The loop stops at the first row of the table that fits. *)
Lemma first_fit_spec (diff : Z) (table : list (string * Z)) :
  Forall (fun row => 0 < row.2) table ->
  match first_fit diff table with
  | Some (interval, unit) =>
      exists (before after : list (string * Z)) (seconds : Z),
        table = before ++ (unit, seconds) :: after /\
        interval = diff / seconds /\ seconds <= diff /\
        Forall (fun row => diff < row.2) before
  | None => Forall (fun row => diff < row.2) table
  end.
Proof.
  induction 1 as [|[unit seconds] table Hpos _ IH]; simpl; [constructor|].
  simpl in Hpos. destruct (1 <=? diff / seconds) eqn:E.
  - apply whole_unit_fits in E; [|assumption].
    exists [], table, seconds. repeat split; [assumption | constructor].
  - assert (Hlt : diff < seconds).
    { destruct (Z.lt_ge_cases diff seconds) as [|Hge]; [assumption|].
      apply whole_unit_fits in Hge; [congruence | assumption]. }
    destruct (first_fit diff table) as [[interval unit']|].
    + destruct IH as (before & after & seconds' & -> & Hi & Hle & Hbefore).
      exists ((unit, seconds) :: before), after, seconds'.
      repeat split; try assumption. constructor; assumption.
    + constructor; assumption.
Qed.

(** The table lists its units from the longest to the shortest. *)
Lemma intervals_decreasing (before after : list (string * Z)) (unit : string) (seconds : Z) :
  intervals = before ++ (unit, seconds) :: after ->
  Forall (fun row => 0 < row.2) intervals /\
  60 <= seconds /\
  forall (unit' : string) (seconds' : Z),
    (unit', seconds') ∈ intervals -> seconds < seconds' -> (unit', seconds') ∈ before.
Proof.
  intros Hsplit.
  assert (Hpos : Forall (fun row => 0 < row.2) intervals)
    by (unfold intervals; repeat constructor).
  split; [assumption|].
  unfold intervals in Hsplit.
  repeat (destruct before as [|? before];
          [injection Hsplit as <- <- <-; split; [lia|];
           intros u' s' Hin Hlt; unfold intervals in Hin;
           repeat (apply elem_of_cons in Hin as [[= -> ->]|Hin];
                   [first [lia | set_solver]|]);
           apply elem_of_nil in Hin; contradiction
          |injection Hsplit as <- Hsplit]).
  destruct before; discriminate.
Qed.

Lemma timeAgo_cases (now date : Z) :
  let diff := (now - date) / 1000 in
  (diff < 60 -> timeAgo now date = "Just now"%string) /\
  (60 <= diff ->
   exists (unit : string) (seconds : Z),
     (unit, seconds) ∈ intervals /\
     timeAgo now date = ago (diff / seconds) unit /\
     1 <= diff / seconds /\
     seconds * (diff / seconds) <= diff < seconds * (diff / seconds + 1) /\
     forall (unit' : string) (seconds' : Z),
       (unit', seconds') ∈ intervals -> seconds < seconds' -> diff < seconds').
Proof.
  intros diff. unfold timeAgo. fold diff.
  assert (Hpos : Forall (fun row => 0 < row.2) intervals)
    by (unfold intervals; repeat constructor).
  pose proof (first_fit_spec diff intervals Hpos) as Hfit.
  destruct (first_fit diff intervals) as [[interval unit]|].
  - destruct Hfit as (before & after & seconds & Hsplit & -> & Hle & Hbefore).
    destruct (intervals_decreasing _ _ _ _ Hsplit) as (_ & Hmin & Hlarger).
    split; [intros Hlt; lia|]. intros _.
    assert (Hs : 0 < seconds) by lia.
    exists unit, seconds. split; [rewrite Hsplit; set_solver|].
    split; [reflexivity|]. split; [apply Z.leb_le, whole_unit_fits; assumption|].
    split.
    + pose proof (Z.mul_div_le diff seconds Hs).
      pose proof (Z.mul_succ_div_gt diff seconds Hs). lia.
    + intros unit' seconds' Hin Hlt. apply Hlarger in Hin; [|assumption].
      rewrite Forall_forall in Hbefore. apply (Hbefore _ Hin).
  - split; [reflexivity|]. intros Hge. exfalso.
    rewrite Forall_forall in Hfit.
    assert (Hin : ("minute"%string, 60) ∈ intervals) by (apply list_elem_of_In; simpl; tauto).
    apply Hfit in Hin. simpl in Hin. lia.
Qed.

(** X12.  [timeAgo] answers "Just now" for every date less than a minute
    back, dates in the future included.  From one minute on it names the
    largest unit of the table of which a whole one has elapsed, with the
    number of whole units elapsed, which is at least 1. *)
Theorem timeAgo_unit (now date : Z) :
  let diff := (now - date) / 1000 in
  (diff < 60 -> timeAgo now date = "Just now"%string) /\
  (60 <= diff ->
   exists (unit : string) (seconds : Z),
     (unit, seconds) ∈ intervals /\
     timeAgo now date = ago (diff / seconds) unit /\
     1 <= diff / seconds /\
     seconds * (diff / seconds) <= diff < seconds * (diff / seconds + 1) /\
     forall (unit' : string) (seconds' : Z),
       (unit', seconds') ∈ intervals -> seconds < seconds' -> diff < seconds').
Proof. exact (timeAgo_cases now date). Qed.

Lemma timeAgo_unit_witness :
  timeAgo 1700000000000 1700000030000 = "Just now"%string /\
  exists (unit : string) (seconds : Z),
    (unit, seconds) ∈ intervals /\
    timeAgo 1700007200000 1700000000000 = ago (7200 / seconds) unit /\
    1 <= 7200 / seconds /\
    seconds * (7200 / seconds) <= 7200 < seconds * (7200 / seconds + 1) /\
    forall (unit' : string) (seconds' : Z),
      (unit', seconds') ∈ intervals -> seconds < seconds' -> 7200 < seconds'.
Proof.
  destruct (timeAgo_unit 1700000000000 1700000030000) as [Hnow _].
  destruct (timeAgo_unit 1700007200000 1700000000000) as [_ Hago].
  split; [apply Hnow; vm_compute; reflexivity|].
  apply Hago. vm_compute. discriminate.
Defined.

Example timeAgo_two_hours : timeAgo 1700007200000 1700000000000 = "2 hours ago"%string.
Proof. vm_compute. reflexivity. Qed.

(** X13.  The number that [timeAgo] prints is bounded by the next unit of the
    table: at most 59 minutes, 23 hours, 6 days, 4 weeks and 12 months (a
    month counting 30 days and a year 365, "4 weeks ago" and "12 months ago"
    do appear); only the years are unbounded. *)
Theorem timeAgo_count_bounded (now date : Z) :
  let diff := (now - date) / 1000 in
  60 <= diff ->
  exists (unit : string) (count : Z),
    timeAgo now date = ago count unit /\
    (unit = "minute"%string /\ 1 <= count <= 59 \/
     unit = "hour"%string /\ 1 <= count <= 23 \/
     unit = "day"%string /\ 1 <= count <= 6 \/
     unit = "week"%string /\ 1 <= count <= 4 \/
     unit = "month"%string /\ 1 <= count <= 12 \/
     unit = "year"%string /\ 1 <= count).
Proof.
  intros diff Hge.
  destruct (timeAgo_cases now date) as [_ Hago].
  destruct (Hago Hge) as (unit & seconds & Hin & Heq & Hone & Hb & Hlarger).
  fold diff in Heq, Hone, Hb, Hlarger.
  exists unit, (diff / seconds). split; [exact Heq|].
  assert (Hcap : forall (unit' : string) (seconds' : Z),
            (unit', seconds') ∈ intervals -> seconds < seconds' -> diff < seconds')
    by exact Hlarger.
  unfold intervals in Hin.
  repeat (apply elem_of_cons in Hin as [[= -> ->]|Hin];
          [| ]).
  all: try (apply elem_of_nil in Hin; contradiction).
  - do 5 right. split; [reflexivity | lia].
  - do 4 right. left. split; [reflexivity|]. split; [lia|].
    assert (diff < 31536000) by (apply (Hcap "year"%string); [apply list_elem_of_In; simpl; tauto | lia]).
    apply Z.lt_succ_r, Z.div_lt_upper_bound; lia.
  - do 3 right. left. split; [reflexivity|]. split; [lia|].
    assert (diff < 2592000) by (apply (Hcap "month"%string); [apply list_elem_of_In; simpl; tauto | lia]).
    apply Z.lt_succ_r, Z.div_lt_upper_bound; lia.
  - do 2 right. left. split; [reflexivity|]. split; [lia|].
    assert (diff < 604800) by (apply (Hcap "week"%string); [apply list_elem_of_In; simpl; tauto | lia]).
    apply Z.lt_succ_r, Z.div_lt_upper_bound; lia.
  - right. left. split; [reflexivity|]. split; [lia|].
    assert (diff < 86400) by (apply (Hcap "day"%string); [apply list_elem_of_In; simpl; tauto | lia]).
    apply Z.lt_succ_r, Z.div_lt_upper_bound; lia.
  - left. split; [reflexivity|]. split; [lia|].
    assert (diff < 3600) by (apply (Hcap "hour"%string); [apply list_elem_of_In; simpl; tauto | lia]).
    apply Z.lt_succ_r, Z.div_lt_upper_bound; lia.
Qed.

Lemma timeAgo_count_bounded_witness :
  exists (unit : string) (count : Z),
    timeAgo 1731500000000 1700000000000 = ago count unit /\
    (unit = "minute"%string /\ 1 <= count <= 59 \/
     unit = "hour"%string /\ 1 <= count <= 23 \/
     unit = "day"%string /\ 1 <= count <= 6 \/
     unit = "week"%string /\ 1 <= count <= 4 \/
     unit = "month"%string /\ 1 <= count <= 12 \/
     unit = "year"%string /\ 1 <= count).
Proof.
  apply (timeAgo_count_bounded 1731500000000 1700000000000).
  vm_compute. discriminate.
Defined.

Example timeAgo_twelve_months :
  timeAgo 1731500000000 1700000000000 = "12 months ago"%string.
Proof. vm_compute. reflexivity. Qed.

End TimeAgo.

(** ** [debounce] *)

Module Debounce.
Import UtilsHelpers.
Local Open Scope Z_scope.

Section Debounced.
Context {A : Type}.

(** What can happen to a debounced function: a call, or one of its timers
    running. *)
Inductive event : Type :=
| Call (args : A)
| Timer (id : positive).

Definition step (d : debounced A) (ev : event) : debounced A :=
  match ev with
  | Call args => executedFunction args d
  | Timer id => later id d
  end.

Definition run (d : debounced A) (evs : list event) : debounced A :=
  fold_left step evs d.

(** The only timer that can be pending is the one in [timeout]. *)
Definition at_most_one (d : debounced A) : Prop :=
  forall (id : positive) (x : A * Z), pending d !! id = Some x -> timeout d = Some id.

Lemma at_most_one_step (d : debounced A) (ev : event) :
  at_most_one d -> at_most_one (step d ev).
Proof.
  intros Hd. destruct d as [w [t|] p n c]; destruct ev as [args|id];
    unfold at_most_one, step, executedFunction, later, clearTimeout in *; simpl in *;
    try destruct (p !! id) as [[a z]|] eqn:Hp; simpl;
    intros j x Hj;
    repeat match goal with
           | H : <[_ := _]> _ !! _ = Some _ |- _ => apply lookup_insert_Some in H
           | H : delete _ _ !! _ = Some _ |- _ => apply lookup_delete_Some in H
           | H : _ /\ _ |- _ => destruct H
           | H : _ \/ _ |- _ => destruct H
           end; subst; try reflexivity;
    try (match goal with H : p !! _ = Some _ |- _ => apply Hd in H end; congruence).
Qed.

Lemma at_most_one_run (evs : list event) : forall d : debounced A,
  at_most_one d -> at_most_one (run d evs).
Proof.
  induction evs as [|ev evs IH]; intros d Hd; simpl; [assumption|].
  apply IH, at_most_one_step, Hd.
Qed.

Lemma step_wait (d : debounced A) (ev : event) :
  UtilsHelpers.wait (step d ev) = UtilsHelpers.wait d.
Proof.
  destruct ev as [args|id]; simpl.
  - destruct d as [? [?|] ? ? ?]; reflexivity.
  - unfold later. destruct (pending d !! id) as [[? ?]|]; [|reflexivity].
    destruct d as [? [?|] ? ? ?]; reflexivity.
Qed.

Lemma run_wait (evs : list event) : forall d : debounced A,
  UtilsHelpers.wait (run d evs) = UtilsHelpers.wait d.
Proof.
  induction evs as [|ev evs IH]; intros d; simpl; [reflexivity|].
  rewrite IH. apply step_wait.
Qed.

Lemma call_replaces (d : debounced A) (args : A) :
  at_most_one d ->
  pending (executedFunction args d) = {[next_timer d := (args, wait d)]} /\
  timeout (executedFunction args d) = Some (next_timer d) /\
  calls (executedFunction args d) = calls d /\
  wait (executedFunction args d) = wait d.
Proof.
  intros Hd. destruct d as [w [t|] p n c];
    unfold executedFunction, clearTimeout, at_most_one in *; simpl in *;
    (split; [|repeat split]).
  - apply map_eq. intros j. rewrite lookup_insert, lookup_singleton.
    destruct (decide (n = j)); [reflexivity|].
    rewrite lookup_delete. destruct (decide (t = j)); [reflexivity|].
    destruct (p !! j) eqn:Hj; [|reflexivity]. apply Hd in Hj. congruence.
  - apply map_eq. intros j. rewrite lookup_insert, lookup_singleton.
    destruct (decide (n = j)); [reflexivity|].
    destruct (p !! j) eqn:Hj; [|reflexivity]. apply Hd in Hj. discriminate.
Qed.

Lemma later_single (d : debounced A) (id : positive) (args : A) (w : Z) :
  pending d = {[id := (args, w)]} -> timeout d = Some id ->
  calls (later id d) = calls d ++ [args] /\ pending (later id d) = ∅.
Proof.
  destruct d as [w0 t p n c]. simpl. intros -> ->.
  unfold later. simpl. rewrite lookup_singleton_eq. simpl.
  split; [reflexivity|]. rewrite delete_singleton_eq. apply delete_empty.
Qed.

(** X14.  However a debounced function has been used before, a burst of
    calls leaves a single timer pending, which carries the arguments of the
    last call of the burst and the configured wait; [func] is not called
    during the burst, and when the timer runs it is called once, with those
    arguments, and no timer is left. *)
Theorem debounce_burst (wait : Z) (history : list event) (burst : list A) (last : A) :
  let d := run (debounce wait) history in
  let d' := run d (map Call (burst ++ [last])) in
  exists id : positive,
    pending d' = {[id := (last, wait)]} /\
    calls d' = calls d /\
    calls (step d' (Timer id)) = calls d ++ [last] /\
    pending (step d' (Timer id)) = ∅.
Proof.
  intros d d'.
  assert (Hd : at_most_one d /\ UtilsHelpers.wait d = wait).
  { subst d. split.
    - apply at_most_one_run. intros id x Hx. simpl in Hx.
      rewrite lookup_empty in Hx. discriminate.
    - rewrite run_wait. reflexivity. }
  destruct Hd as [Hone Hwait].
  assert (Hburst : forall (l : list A) (d0 : debounced A),
            at_most_one d0 ->
            calls (run d0 (map Call l)) = calls d0 /\
            UtilsHelpers.wait (run d0 (map Call l)) = UtilsHelpers.wait d0 /\
            at_most_one (run d0 (map Call l))).
  { induction l as [|a l IH]; intros d0 Hd0; simpl; [auto|].
    destruct (call_replaces d0 a Hd0) as (_ & _ & Hc & Hw).
    destruct (IH (executedFunction a d0)) as (IHc & IHw & IHo).
    - apply (at_most_one_step d0 (Call a)), Hd0.
    - split; [congruence|]. split; [congruence | assumption]. }
  assert (Hrun : d' = executedFunction last (run d (map Call burst))).
  { subst d'. unfold run. rewrite map_app, fold_left_app. reflexivity. }
  rewrite Hrun. clear Hrun.
  destruct (Hburst burst d Hone) as (Hc & Hw & Ho).
  destruct (call_replaces (run d (map Call burst)) last Ho) as (Hp & Ht & Hc' & Hw').
  exists (next_timer (run d (map Call burst))).
  split; [rewrite Hp, Hw, Hwait; reflexivity|].
  split; [congruence|].
  change (step ?x (Timer ?i)) with (later i x).
  destruct (later_single _ _ _ _ Hp Ht) as [Hl Hl'].
  split; [congruence | assumption].
Qed.

End Debounced.

Example debounce_typing :
  calls (run (debounce 300) [Call "h"; Call "he"; Timer 2; Call "hey"; Timer 3]%string)
  = ["he"; "hey"]%string.
Proof. vm_compute. reflexivity. Qed.

End Debounce.

(** ** [checkPasswordStrength] *)

Module PasswordStrength.
Import UtilsHelpers.
Local Open Scope Z_scope.

Definition is_special (c : ascii) : bool :=
  negb (is_upper c || is_lower c || is_digit c).

(** The five criteria. *)
Definition criteria (password : list ascii) : list bool :=
  [ (8 <=? length password)%nat; existsb is_upper password; existsb is_lower password;
    existsb is_digit password; existsb is_special password ].

Definition met (password : list ascii) : Z :=
  Z.of_nat (length (filter (fun b => b = true) (criteria password))).

Lemma score_met (password : list ascii) :
  score (checkPasswordStrength password) = met password.
Proof.
  unfold checkPasswordStrength, met, criteria, check. fold is_special.
  destruct (8 <=? length password)%nat, (existsb is_upper password),
    (existsb is_lower password), (existsb is_digit password),
    (existsb is_special password); reflexivity.
Qed.

Lemma feedback_strong (password : list ascii) :
  feedback (checkPasswordStrength password) = "Strong password!"%string <->
  met password = 5.
Proof.
  unfold checkPasswordStrength, met, criteria, check. fold is_special.
  destruct (8 <=? length password)%nat, (existsb is_upper password),
    (existsb is_lower password), (existsb is_digit password),
    (existsb is_special password); simpl; split; (reflexivity || discriminate).
Qed.

(** X15.  The score is the number of criteria met, between 0 and 5, and the
    label depends on it alone: weak up to 2, medium at 3, strong from 4 on.
    The feedback is "Strong password!" exactly when all five criteria are met;
    in every other case it starts with "Missing: ". *)
Theorem password_score (password : list ascii) :
  let report := checkPasswordStrength password in
  score report = met password /\
  0 <= score report <= 5 /\
  strength report = (if score report <=? 2 then "weak"%string
                     else if score report =? 3 then "medium"%string
                     else "strong"%string) /\
  (feedback report = "Strong password!"%string <-> score report = 5) /\
  (score report < 5 -> exists rest, feedback report = ("Missing: " +:+ rest)%string).
Proof.
  intros report. subst report.
  split; [apply score_met|]. rewrite score_met.
  split; [|split; [|split]].
  - unfold met, criteria.
    destruct (8 <=? length password)%nat, (existsb is_upper password),
      (existsb is_lower password), (existsb is_digit password),
      (existsb is_special password); simpl; lia.
  - unfold checkPasswordStrength, met, criteria, check. fold is_special.
    destruct (8 <=? length password)%nat, (existsb is_upper password),
      (existsb is_lower password), (existsb is_digit password),
      (existsb is_special password); reflexivity.
  - apply feedback_strong.
  - unfold checkPasswordStrength, met, criteria, check. fold is_special.
    destruct (8 <=? length password)%nat, (existsb is_upper password),
      (existsb is_lower password), (existsb is_digit password),
      (existsb is_special password); simpl; intros Hlt;
      try (exfalso; lia); eexists; reflexivity.
Qed.

Lemma password_score_witness :
  let report := checkPasswordStrength (Utils.text_of "hunter2") in
  score report = met (Utils.text_of "hunter2") /\
  0 <= score report <= 5 /\
  strength report = (if score report <=? 2 then "weak"%string
                     else if score report =? 3 then "medium"%string
                     else "strong"%string) /\
  (feedback report = "Strong password!"%string <-> score report = 5) /\
  exists rest, feedback report = ("Missing: " +:+ rest)%string.
Proof.
  destruct (password_score (Utils.text_of "hunter2")) as (H1 & H2 & H3 & H4 & H5).
  repeat (split; [assumption|]). apply H5. vm_compute. reflexivity.
Defined.

Example password_hunter2 :
  checkPasswordStrength (Utils.text_of "hunter2") =
    {| score := 2; strength := "weak";
       feedback := "Missing: At least 8 characters, One uppercase letter, One special character" |}.
Proof. vm_compute. reflexivity. Qed.

(** Every character belongs to one of the four classes. *)
Lemma some_class (c : ascii) :
  is_upper c || is_lower c || is_digit c || is_special c = true.
Proof. unfold is_special. destruct (is_upper c || is_lower c || is_digit c); reflexivity. Qed.

(** X16.  The empty password is the only one that scores 0: every password
    of at least one character meets at least one criterion. *)
Theorem password_zero_iff_empty (password : list ascii) :
  score (checkPasswordStrength password) = 0 <-> password = [].
Proof.
  rewrite score_met. split; [|intros ->; reflexivity].
  destruct password as [|c rest]; [reflexivity|]. intros H. exfalso.
  assert (Hclass : existsb is_upper (c :: rest) || existsb is_lower (c :: rest)
                   || existsb is_digit (c :: rest) || existsb is_special (c :: rest) = true).
  { pose proof (some_class c) as Hc. cbn [existsb].
    destruct (is_upper c), (is_lower c), (is_digit c), (is_special c);
      simpl in *; try discriminate Hc; rewrite ?orb_true_r; reflexivity. }
  unfold met, criteria in H. revert H Hclass.
  generalize (8 <=? length (c :: rest))%nat, (existsb is_upper (c :: rest)),
    (existsb is_lower (c :: rest)), (existsb is_digit (c :: rest)),
    (existsb is_special (c :: rest)).
  intros [] [] [] [] []; simpl; intros; (lia || discriminate).
Qed.

(** X17.  Length is only one criterion among five: a password with an
    uppercase letter, a lowercase letter, a digit and another character is
    labelled strong, however short it is. *)
Theorem short_password_strong (password : list ascii) :
  existsb is_upper password = true ->
  existsb is_lower password = true ->
  existsb is_digit password = true ->
  existsb is_special password = true ->
  strength (checkPasswordStrength password) = "strong"%string /\
  4 <= score (checkPasswordStrength password).
Proof.
  intros Hu Hl Hd Hs.
  unfold checkPasswordStrength, check. fold is_special. rewrite Hu, Hl, Hd, Hs.
  destruct (8 <=? length password)%nat; simpl; split; (reflexivity || lia).
Qed.

Lemma short_password_strong_witness :
  strength (checkPasswordStrength (Utils.text_of "aA1!")) = "strong"%string /\
  4 <= score (checkPasswordStrength (Utils.text_of "aA1!")).
Proof.
  apply (short_password_strong (Utils.text_of "aA1!")); vm_compute; reflexivity.
Defined.

End PasswordStrength.

(** ** The hue of the avatar placeholder *)

Module AvatarHue.
Import UtilsHelpers.
Local Open Scope Z_scope.

Lemma to_int32_range (x : Z) : - 2 ^ 31 <= to_int32 x < 2 ^ 31.
Proof.
  unfold to_int32. pose proof (Z.mod_pos_bound (x + 2 ^ 31) (2 ^ 32)). lia.
Qed.

Lemma to_int32_decomp (x : Z) : exists k : Z, to_int32 x = x + k * 2 ^ 32.
Proof.
  exists (- ((x + 2 ^ 31) / 2 ^ 32)). unfold to_int32.
  pose proof (Z.div_mod (x + 2 ^ 31) (2 ^ 32)). lia.
Qed.

Lemma to_int32_shift (x k : Z) : to_int32 (x + k * 2 ^ 32) = to_int32 x.
Proof.
  unfold to_int32. replace (x + k * 2 ^ 32 + 2 ^ 31) with (x + 2 ^ 31 + k * 2 ^ 32) by lia.
  rewrite Z_mod_plus_full. reflexivity.
Qed.

(** The polynomial [c1 * 31^(n-1) + ... + cn] of the character codes. *)
Definition polynomial (name : list ascii) : Z :=
  fold_left (fun a b => 31 * a + Z.of_nat (nat_of_ascii b)) name 0.

Lemma hash_step_polynomial (a p : Z) (b : ascii) :
  a = to_int32 p ->
  hash_step a b = to_int32 (31 * p + Z.of_nat (nat_of_ascii b)).
Proof.
  intros ->. unfold hash_step.
  destruct (to_int32_decomp p) as [k1 Hp].
  destruct (to_int32_decomp (to_int32 (to_int32 p) * 2 ^ 5)) as [k2 Hs].
  destruct (to_int32_decomp (to_int32 p)) as [k3 Hpp].
  rewrite Hs, Hpp, Hp.
  rewrite <- (to_int32_shift (31 * p + Z.of_nat (nat_of_ascii b)) (31 * k1 + 32 * k3 + k2)).
  f_equal. lia.
Qed.

(** X18.  The hash of a name is the polynomial of its character codes with
    multiplier 31, wrapped to a signed 32-bit integer; the hue derived from
    it is a whole number of degrees from 0 to 359. *)
Theorem avatar_hue_range (name : list ascii) :
  name_hash name = to_int32 (polynomial name) /\
  - 2 ^ 31 <= name_hash name < 2 ^ 31 /\
  0 <= name_hue name < 360.
Proof.
  assert (Hhash : name_hash name = to_int32 (polynomial name)).
  { unfold name_hash, polynomial.
    assert (H : forall a p, a = to_int32 p ->
              fold_left hash_step name a =
              to_int32 (fold_left (fun a b => 31 * a + Z.of_nat (nat_of_ascii b)) name p)).
    { induction name as [|c name IH]; intros a p Ha; simpl; [assumption|].
      apply IH, hash_step_polynomial, Ha. }
    apply H. reflexivity. }
  split; [assumption|]. split.
  - rewrite Hhash. apply to_int32_range.
  - unfold name_hue. rewrite Z.rem_mod_nonneg by lia.
    apply Z.mod_pos_bound. lia.
Qed.

Example avatar_hue_bob : name_hue (Utils.text_of "bob") = 157.
Proof. vm_compute. reflexivity. Qed.

Example avatar_hash_wraps :
  name_hash (Utils.text_of "Community Platform") = -2107568374 /\
  name_hue (Utils.text_of "Community Platform") = 214.
Proof. vm_compute. split; reflexivity. Qed.

End AvatarHue.

(** ** Mentions, written and read back *)

Module MentionRoundTrip.
Import Utils.
Import UtilsHelpers.
Import Mentions.

Lemma exec_loop_unfold (text : list ascii) (lastIndex : nat) :
  exec_loop text lastIndex =
    match regex_exec text lastIndex with
    | None => []
    | Some (index, w) => w :: exec_loop text (index + 1 + length w)
    end.
Proof.
  funelim (exec_loop text lastIndex).
  - rewrite Hm. reflexivity.
  - match goal with H : regex_exec _ _ = None |- _ => rewrite H end. reflexivity.
Qed.

(** A user name that [/@(\w+)/] reads back whole. *)
Definition word (u : list ascii) : Prop :=
  u <> [] /\ Forall (fun c => is_word c = true) u.

(** A line that mentions the users one after the other. *)
Definition mention_line (users : list (list ascii)) : list ascii :=
  concat (map (fun u => formatUserMention u ++ [" "%char]) users).

Lemma exec_at_mention (pre u rest : list ascii) :
  word u -> stops rest ->
  regex_exec (pre ++ formatUserMention u ++ rest) (length pre) = Some (length pre, u).
Proof.
  intros [Hne Hw] Hstop. unfold regex_exec, formatUserMention.
  rewrite drop_app_length. simpl.
  rewrite take_word_maximal by assumption.
  destruct u; [contradiction | reflexivity].
Qed.

Lemma exec_skips (pre rest : list ascii) (c : ascii) :
  is_at c = false ->
  regex_exec (pre ++ c :: rest) (length pre) = regex_exec (pre ++ c :: rest) (S (length pre)).
Proof.
  intros Hc. unfold regex_exec.
  rewrite drop_app_length.
  replace (pre ++ c :: rest) with ((pre ++ [c]) ++ rest) by (rewrite <- app_assoc; reflexivity).
  replace (S (length pre)) with (length (pre ++ [c])) at 1
    by (rewrite length_app; simpl; lia).
  rewrite drop_app_length. simpl. rewrite Hc. reflexivity.
Qed.

Lemma exec_loop_line (users : list (list ascii)) : forall pre : list ascii,
  Forall word users ->
  exec_loop (pre ++ mention_line users) (length pre) = users.
Proof.
  induction users as [|u users IH]; intros pre Hwords.
  - rewrite exec_loop_unfold. unfold regex_exec, mention_line. simpl.
    rewrite app_nil_r, drop_all. reflexivity.
  - apply Forall_cons in Hwords as [Hu Hwords].
    rewrite exec_loop_unfold.
    change (mention_line (u :: users))
      with ((formatUserMention u ++ [" "%char]) ++ mention_line users).
    rewrite <- (app_assoc (formatUserMention u)).
    rewrite exec_at_mention by (assumption || reflexivity).
    f_equal.
    set (text := pre ++ formatUserMention u ++ [" "%char] ++ mention_line users).
    assert (Htext : text = (pre ++ formatUserMention u) ++ " "%char :: mention_line users).
    { subst text. rewrite <- app_assoc. reflexivity. }
    assert (Hlen : length pre + 1 + length u = length (pre ++ formatUserMention u)).
    { rewrite length_app. unfold formatUserMention. simpl. lia. }
    rewrite Hlen, Htext.
    rewrite exec_loop_unfold, exec_skips, <- exec_loop_unfold by reflexivity.
    replace ((pre ++ formatUserMention u) ++ " "%char :: mention_line users)
      with (((pre ++ formatUserMention u) ++ [" "%char]) ++ mention_line users)
      by (rewrite <- (app_assoc _ [" "%char]); reflexivity).
    replace (S (length (pre ++ formatUserMention u)))
      with (length ((pre ++ formatUserMention u) ++ [" "%char]))
      by (rewrite (length_app _ [" "%char]); simpl; lia).
    apply IH, Hwords.
Qed.

Lemma Set_of_NoDup (l : list (list ascii)) : NoDup l -> Set_of l = l.
Proof.
  induction l as [|x l IH] using rev_ind; intros Hnd; [reflexivity|].
  apply NoDup_app in Hnd as (Hl & Hx & _).
  rewrite Set_of_snoc, IH by assumption. unfold Set_add.
  destruct (decide (x ∈ l)) as [Hin|]; [|reflexivity].
  exfalso. apply (Hx x Hin). apply list_elem_of_singleton. reflexivity.
Qed.

(** X19.  Mentions written with [formatUserMention] are read back by
    [extractMentions]: from a line that mentions users one after the other,
    each name being a non-empty run of word characters, it returns the names
    in the order of the line, each once; a single mention gives back its
    name. *)
Theorem mentions_round_trip (users : list (list ascii)) :
  Forall word users ->
  extractMentions (mention_line users) = Set_of users /\
  (NoDup users -> extractMentions (mention_line users) = users) /\
  (forall u : list ascii, word u -> extractMentions (formatUserMention u) = [u]).
Proof.
  intros Hwords.
  assert (Hline : forall us, Forall word us -> extractMentions (mention_line us) = Set_of us).
  { intros us Hus. unfold extractMentions.
    rewrite <- (exec_loop_line us [] Hus) at 2. reflexivity. }
  split; [apply Hline, Hwords|]. split.
  - intros Hnd. rewrite Hline by assumption. apply Set_of_NoDup, Hnd.
  - intros u Hu. unfold extractMentions.
    rewrite exec_loop_unfold.
    assert (He : regex_exec (formatUserMention u) 0 = Some (0, u)).
    { pose proof (exec_at_mention [] u [] Hu I) as He.
      rewrite app_nil_r in He. exact He. }
    rewrite He, exec_loop_unfold. unfold regex_exec.
    rewrite drop_ge by (unfold formatUserMention; simpl; lia). reflexivity.
Qed.

Lemma mentions_round_trip_witness :
  let users := [text_of "bob"; text_of "alice_99"; text_of "bob"] in
  extractMentions (mention_line users) = Set_of users /\
  extractMentions (mention_line [text_of "bob"; text_of "alice_99"])
    = [text_of "bob"; text_of "alice_99"] /\
  extractMentions (formatUserMention (text_of "bob")) = [text_of "bob"].
Proof.
  assert (Hword : forall s, s = text_of "bob" \/ s = text_of "alice_99" -> word s).
  { intros s [-> | ->]; (split; [discriminate | repeat constructor]). }
  destruct (mentions_round_trip [text_of "bob"; text_of "alice_99"; text_of "bob"])
    as (H1 & _ & H3); [repeat constructor; apply Hword; tauto|].
  destruct (mentions_round_trip [text_of "bob"; text_of "alice_99"])
    as (_ & H2 & _); [repeat constructor; apply Hword; tauto|].
  split; [exact H1|]. split.
  - apply H2. repeat constructor; rewrite ?elem_of_cons, ?elem_of_nil;
      intros H; repeat destruct H as [H|H]; try discriminate H; assumption.
  - apply H3, Hword. tauto.
Defined.

End MentionRoundTrip.

(** ** The expiring storage under sequences of operations *)

Module StorageOps.
Import Utils.
Local Open Scope Z_scope.

(** A call of one of the two functions, with the time at which it is made. *)
Inductive op : Type :=
| Write (key : string) (v : value) (ttl now : Z)
| Read (key : string) (now : Z).

Definition key_of (o : op) : string :=
  match o with Write key _ _ _ => key | Read key _ => key end.

Definition apply (localStorage : gmap string item) (o : op) : gmap string item :=
  match o with
  | Write key v ttl now => setStorageWithExpiry now key v ttl localStorage
  | Read key now => (getStorageWithExpiry now key localStorage).2
  end.

Lemma apply_other (localStorage : gmap string item) (o : op) (key : string) :
  key_of o <> key -> apply localStorage o !! key = localStorage !! key.
Proof.
  destruct o as [k v ttl now|k now]; simpl; intros Hne.
  - apply Storage.other_key_set, Hne.
  - apply Storage.other_key_get, Hne.
Qed.

Lemma apply_others (ops : list op) (key : string) : forall localStorage : gmap string item,
  Forall (fun o => key_of o <> key) ops ->
  fold_left apply ops localStorage !! key = localStorage !! key.
Proof.
  induction ops as [|o ops IH]; intros localStorage Hops; simpl; [reflexivity|].
  apply Forall_cons in Hops as [Ho Hops].
  rewrite IH by assumption. apply apply_other, Ho.
Qed.

(** X20.  Entries do not interfere: after a value is stored under a key, any
    number of writes and reads of other keys, at any times, expired or not,
    leave a later read of that key with the same answer: up to the expiry
    what JSON reads back of the value (the value itself if it is a JSON
    value), [null] after it. *)
Theorem storage_keys_independent (localStorage : gmap string item) (ops : list op)
    (key : string) (v : value) (ttl t t' : Z) :
  Forall (fun o => key_of o <> key) ops ->
  let later := fold_left apply ops (setStorageWithExpiry t key v ttl localStorage) in
  (getStorageWithExpiry t' key later).1
    = (if t' >? t + ttl then VNull else Storage.read_back v) /\
  (Storage.is_JSON v = true ->
   (getStorageWithExpiry t' key later).1 = if t' >? t + ttl then VNull else v).
Proof.
  intros Hops later.
  assert (Hl : later !! key = Some {| item_value := JSON_stringify v; expiry := t + ttl |}).
  { subst later. rewrite apply_others by assumption. apply Storage.stored_lookup. }
  rewrite (Storage.read_entry later key v (t + ttl) t' Hl).
  split; [destruct (t' >? t + ttl); reflexivity|].
  intros Hv. rewrite Storage.read_back_JSON by assumption.
  destruct (t' >? t + ttl); reflexivity.
Qed.

Lemma storage_keys_independent_witness :
  let later := fold_left apply
                 [Write "lang" (VStr "en") 10 5500; Read "lang" 5600; Read "font" 5700]
                 (setStorageWithExpiry 5000 "theme" (VStr "dark") 1000 ∅) in
  (getStorageWithExpiry 5900 "theme" later).1
    = (if 5900 >? 5000 + 1000 then VNull else Storage.read_back (VStr "dark")) /\
  (Storage.is_JSON (VStr "dark") = true ->
   (getStorageWithExpiry 5900 "theme" later).1
     = if 5900 >? 5000 + 1000 then VNull else VStr "dark").
Proof.
  apply (storage_keys_independent ∅
           [Write "lang" (VStr "en") 10 5500; Read "lang" 5600; Read "font" 5700]
           "theme" (VStr "dark") 1000 5000 5900).
  repeat constructor; discriminate.
Defined.

(** X21.  The last write decides and an eviction is final: a second write
    under the same key replaces value and expiry, even when the first entry
    had longer to live, so that a read gives what JSON reads back of the
    second value (that value itself if it is a JSON value) up to the second
    expiry; and once a read has found the entry expired, every later read
    returns [null], also one made with the clock set back before the
    expiry. *)
Theorem storage_overwrite_and_eviction (localStorage : gmap string item) (key : string)
    (v v' : value) (ttl ttl' t t' now : Z) :
  let once := setStorageWithExpiry t key v ttl localStorage in
  let twice := setStorageWithExpiry t' key v' ttl' once in
  (getStorageWithExpiry now key twice).1
    = (if now >? t' + ttl' then VNull else Storage.read_back v') /\
  (Storage.is_JSON v' = true ->
   (getStorageWithExpiry now key twice).1 = if now >? t' + ttl' then VNull else v') /\
  (t + ttl < t' ->
   (getStorageWithExpiry now key (getStorageWithExpiry t' key once).2).1 = VNull).
Proof.
  intros once twice.
  assert (Hread : (getStorageWithExpiry now key twice).1
                  = if now >? t' + ttl' then VNull else Storage.read_back v').
  { rewrite (Storage.read_entry twice key v' (t' + ttl') now) by apply Storage.stored_lookup.
    destruct (now >? t' + ttl'); reflexivity. }
  split; [exact Hread|]. split.
  - intros Hv. rewrite Hread, Storage.read_back_JSON by assumption. reflexivity.
  - intros Hlate.
    rewrite (Storage.read_entry once key v (t + ttl) t') by apply Storage.stored_lookup.
    assert ((t' >? t + ttl) = true) as -> by lia. simpl.
    unfold getStorageWithExpiry. rewrite lookup_delete_eq. reflexivity.
Qed.

Lemma storage_overwrite_and_eviction_witness :
  let once := setStorageWithExpiry 5000 "theme" (VStr "dark") 1000 ∅ in
  let twice := setStorageWithExpiry 5100 "theme" (VStr "light") 10 once in
  (getStorageWithExpiry 5200 "theme" twice).1 = (if 5200 >? 5100 + 10 then VNull else VStr "light") /\
  (getStorageWithExpiry 5500 "theme" (getStorageWithExpiry 6100 "theme" once).2).1 = VNull.
Proof.
  destruct (storage_overwrite_and_eviction ∅ "theme" (VStr "dark") (VStr "light")
              1000 10 5000 5100 5200) as (_ & H1 & _).
  destruct (storage_overwrite_and_eviction ∅ "theme" (VStr "dark") (VStr "light")
              1000 10 5000 6100 5500) as (_ & _ & H2).
  split; [apply H1; reflexivity | apply H2; lia].
Defined.

End StorageOps.

(** ** More on [truncateText] *)

Module TruncationEdges.
Import Utils.
Local Open Scope Z_scope.

Lemma truncated_length (text suffix : list ascii) (maxLength : Z) :
  Z.of_nat (length suffix) <= maxLength ->
  Z.of_nat (length (truncateText text maxLength suffix)) <= maxLength.
Proof.
  intros Hsuffix. unfold truncateText.
  destruct (Z.of_nat (length text) <=? maxLength) eqn:E; [lia|].
  rewrite Truncation.substring_from_start by lia.
  rewrite length_app, length_take. lia.
Qed.

(** X22.  Truncation is idempotent: when [maxLength] is at least the length
    of the suffix, truncating a truncated text again, to the same length with
    the same suffix, changes nothing (no second ellipsis is added). *)
Theorem truncateText_idempotent (text suffix : list ascii) (maxLength : Z) :
  Z.of_nat (length suffix) <= maxLength ->
  truncateText (truncateText text maxLength suffix) maxLength suffix
    = truncateText text maxLength suffix.
Proof.
  intros Hsuffix. pose proof (truncated_length text suffix maxLength Hsuffix) as Hlen.
  unfold truncateText at 1.
  assert ((Z.of_nat (length (truncateText text maxLength suffix)) <=? maxLength) = true)
    as -> by lia.
  reflexivity.
Qed.

Lemma truncateText_idempotent_witness :
  truncateText (truncateText (text_of "hello world") 8 default_suffix) 8 default_suffix
    = truncateText (text_of "hello world") 8 default_suffix.
Proof.
  apply (truncateText_idempotent (text_of "hello world") default_suffix 8).
  vm_compute. discriminate.
Defined.

(** X23.  A limit shorter than the suffix cannot be kept: when [maxLength]
    is below the length of the suffix (zero and negative limits included) and
    the text is longer than [maxLength], the result is the suffix alone, which
    is longer than [maxLength]. *)
Theorem truncateText_short_limit (text suffix : list ascii) (maxLength : Z) :
  maxLength < Z.of_nat (length suffix) ->
  maxLength < Z.of_nat (length text) ->
  truncateText text maxLength suffix = suffix /\
  maxLength < Z.of_nat (length (truncateText text maxLength suffix)).
Proof.
  intros Hsuffix Htext.
  assert (H : truncateText text maxLength suffix = suffix).
  { unfold truncateText.
    assert ((Z.of_nat (length text) <=? maxLength) = false) as -> by lia.
    unfold substring.
    rewrite (Z.min_l (maxLength - Z.of_nat (length suffix))) by lia.
    rewrite (Z.min_l 0), !(Z.max_l 0) by lia.
    rewrite (Z.min_l 0 0) by lia. reflexivity. }
  rewrite H. split; [reflexivity | assumption].
Qed.

Lemma truncateText_short_limit_witness :
  truncateText (text_of "hello world") 2 default_suffix = default_suffix /\
  2 < Z.of_nat (length (truncateText (text_of "hello world") 2 default_suffix)).
Proof.
  apply (truncateText_short_limit (text_of "hello world") default_suffix 2);
    vm_compute; reflexivity.
Defined.

End TruncationEdges.

(** ** What the derivative matcher accepts *)

Module RegexFacts.
Import Regex.

(** The texts that an expression denotes. *)
Inductive Matches : regex -> list ascii -> Prop :=
| MEps : Matches Eps []
| MClass (member : ascii -> bool) (c : ascii) :
    member c = true -> Matches (Class member) [c]
| MSeq (r1 r2 : regex) (s1 s2 : list ascii) :
    Matches r1 s1 -> Matches r2 s2 -> Matches (Seq r1 r2) (s1 ++ s2)
| MAltL (r1 r2 : regex) (s : list ascii) : Matches r1 s -> Matches (Alt r1 r2) s
| MAltR (r1 r2 : regex) (s : list ascii) : Matches r2 s -> Matches (Alt r1 r2) s
| MStarNil (r : regex) : Matches (Star r) []
| MStarCons (r : regex) (s1 s2 : list ascii) :
    Matches r s1 -> Matches (Star r) s2 -> Matches (Star r) (s1 ++ s2).

Lemma seq_inv (r1 r2 : regex) (s : list ascii) :
  Matches (Seq r1 r2) s ->
  exists s1 s2 : list ascii, s = s1 ++ s2 /\ Matches r1 s1 /\ Matches r2 s2.
Proof. inversion 1; subst; eauto. Qed.

Lemma nullable_spec (r : regex) : nullable r = true <-> Matches r [].
Proof.
  induction r as [| |m|r1 IH1 r2 IH2|r1 IH1 r2 IH2|r IH]; simpl.
  - split; [discriminate | inversion 1].
  - split; [constructor | reflexivity].
  - split; [discriminate | inversion 1].
  - rewrite andb_true_iff, IH1, IH2. split.
    + intros [H1 H2]. apply (MSeq r1 r2 [] []); assumption.
    + intros H. apply seq_inv in H as (s1 & s2 & E & H1 & H2).
      symmetry in E. apply app_eq_nil in E as [-> ->]. auto.
  - rewrite orb_true_iff, IH1, IH2. split.
    + intros [H|H]; [apply MAltL | apply MAltR]; assumption.
    + inversion 1; subst; auto.
  - split; [constructor | reflexivity].
Qed.

(** A non-empty match of a star starts with a non-empty match of its body. *)
Lemma star_cons (r : regex) (s : list ascii) :
  Matches (Star r) s ->
  forall (c : ascii) (rest : list ascii), s = c :: rest ->
  exists s1 s2 : list ascii,
    rest = s1 ++ s2 /\ Matches r (c :: s1) /\ Matches (Star r) s2.
Proof.
  remember (Star r) as r' eqn:Hr. intros H. revert Hr.
  induction H as [| | | | | r0 | r0 s1 s2 H1 _ H2 IH2]; intros Hr; try discriminate.
  injection Hr as ->. intros c rest E.
  destruct s1 as [|c1 s1]; simpl in E.
  - apply IH2; [reflexivity | assumption].
  - injection E as -> <-. exists s1, s2. auto.
Qed.

Lemma deriv_spec (r : regex) : forall (c : ascii) (s : list ascii),
  Matches (deriv c r) s <-> Matches r (c :: s).
Proof.
  induction r as [| |m|r1 IH1 r2 IH2|r1 IH1 r2 IH2|r IH]; intros c s; simpl.
  - split; inversion 1.
  - split; inversion 1.
  - destruct (m c) eqn:Hm; split.
    + inversion 1; subst. constructor. assumption.
    + inversion 1; subst. constructor.
    + inversion 1.
    + inversion 1; subst. congruence.
  - assert (Hfirst : forall s1 s2, Matches (deriv c r1) s1 -> Matches r2 s2 ->
              Matches (Seq r1 r2) (c :: s1 ++ s2)).
    { intros s1 s2 H1 H2. apply IH1 in H1. apply (MSeq r1 r2 (c :: s1) s2); assumption. }
    assert (Hback : Matches (Seq r1 r2) (c :: s) ->
              (exists s1 s2, s = s1 ++ s2 /\ Matches (deriv c r1) s1 /\ Matches r2 s2) \/
              (Matches r1 [] /\ Matches (deriv c r2) s)).
    { intros H. apply seq_inv in H as (s1 & s2 & E & H1 & H2).
      destruct s1 as [|c1 s1]; simpl in E.
      - right. subst s2. split; [assumption | apply IH2; assumption].
      - injection E as <- ->. left. exists s1, s2. rewrite IH1. auto. }
    destruct (nullable r1) eqn:Hn; split.
    + inversion 1 as [| | |? ? ? Hl|? ? ? Hr| |]; subst.
      * inversion Hl; subst. apply Hfirst; assumption.
      * apply nullable_spec in Hn. apply IH2 in Hr.
        apply (MSeq r1 r2 [] (c :: s)); assumption.
    + intros H. destruct (Hback H) as [(s1 & s2 & -> & H1 & H2)|[H1 H2]].
      * apply MAltL. constructor; assumption.
      * apply MAltR. assumption.
    + inversion 1; subst. apply Hfirst; assumption.
    + intros H. destruct (Hback H) as [(s1 & s2 & -> & H1 & H2)|[H1 H2]].
      * constructor; assumption.
      * apply nullable_spec in H1. congruence.
  - split.
    + inversion 1; subst; [apply MAltL, IH1 | apply MAltR, IH2]; assumption.
    + inversion 1; subst; [apply MAltL, IH1 | apply MAltR, IH2]; assumption.
  - split.
    + intros H. apply seq_inv in H as (s1 & s2 & -> & H1 & H2). apply IH in H1.
      apply (MStarCons r (c :: s1) s2); assumption.
    + intros H. destruct (star_cons r _ H c s eq_refl) as (s1 & s2 & -> & H1 & H2).
      constructor; [apply IH|]; assumption.
Qed.

(** [test] decides membership. *)
Lemma test_spec (s : list ascii) : forall r : regex, test r s = true <-> Matches r s.
Proof.
  induction s as [|c s IH]; intros r; simpl.
  - apply nullable_spec.
  - rewrite IH. apply deriv_spec.
Qed.

(** [[class]+] denotes the non-empty runs of characters of the class. *)
Lemma plus_class (member : ascii -> bool) (s : list ascii) :
  Matches (Plus (Class member)) s <->
  s <> [] /\ Forall (fun c => member c = true) s.
Proof.
  assert (Hstar : forall s, Matches (Star (Class member)) s <->
                    Forall (fun c => member c = true) s).
  { clear s. intros s. split.
    - remember (Star (Class member)) as r eqn:Hr. intros H. revert Hr.
      induction H as [| | | | | |r0 s1 s2 H1 _ H2 IH2]; intros Hr; try discriminate.
      + constructor.
      + injection Hr as ->. inversion H1; subst. constructor; [assumption|].
        apply IH2. reflexivity.
    - induction 1 as [|c s Hc _ IH]; [constructor|].
      apply (MStarCons _ [c] s); [constructor|]; assumption. }
  unfold Plus. split.
  - intros H. apply seq_inv in H as (s1 & s2 & -> & H1 & H2).
    inversion H1; subst. apply Hstar in H2. split; [discriminate|].
    constructor; assumption.
  - intros [Hne Hall]. destruct s as [|c s]; [contradiction|].
    apply Forall_cons in Hall as [Hc Hall].
    apply (MSeq _ _ [c] s); [constructor; assumption | apply Hstar, Hall].
Qed.

End RegexFacts.

(** ** Form validation of the accounts pages *)

Module EmailShape.
Import Regex RegexFacts AccountsManager.

Lemma code_spec (c : ascii) (n : nat) :
  n < 256 -> (nat_of_ascii c =? n)%nat = true <-> c = ascii_of_nat n.
Proof.
  intros Hn. rewrite Nat.eqb_eq. split.
  - intros <-. symmetry. apply ascii_nat_embedding.
  - intros ->. apply nat_ascii_embedding. assumption.
Qed.

Lemma is_at_spec (c : ascii) : Utils.is_at c = true <-> c = "@"%char.
Proof. apply (code_spec c 64). lia. Qed.

Lemma is_dot_spec (c : ascii) : is_dot c = true <-> c = "."%char.
Proof. apply (code_spec c 46). lia. Qed.

(** A non-empty run of characters that are neither white space (what [\s]
    matches: the characters 9 to 13, the space, the no-break space) nor [@]. *)
Definition part (s : list ascii) : Prop :=
  s <> [] /\ Forall (fun c => plain c = true) s.

(** X24.  [isValidEmail] accepts exactly the texts [local@domain.rest] whose
    three parts are non-empty and free of whitespace and of [@]: so exactly one
    [@], not first, and after it a dot that is neither next to it nor last. *)
Theorem isValidEmail_shape (email : string) :
  isValidEmail email = true <->
  exists loc dom rest : list ascii,
    list_ascii_of_string email = loc ++ "@"%char :: dom ++ "."%char :: rest /\
    part loc /\ part dom /\ part rest.
Proof.
  unfold isValidEmail, emailRegex, part. rewrite test_spec. split.
  - intros H.
    apply seq_inv in H as (loc & s1 & -> & Hloc & H).
    apply seq_inv in H as (a & s2 & -> & Ha & H).
    apply seq_inv in H as (dom & s3 & -> & Hdom & H).
    apply seq_inv in H as (d & rest & -> & Hd & Hrest).
    inversion Ha as [|? ca Hca| | | | |]; subst. apply is_at_spec in Hca as ->.
    inversion Hd as [|? cd Hcd| | | | |]; subst. apply is_dot_spec in Hcd as ->.
    apply plus_class in Hloc, Hdom, Hrest.
    exists loc, dom, rest. simpl. auto.
  - intros (loc & dom & rest & -> & Hloc & Hdom & Hrest).
    apply plus_class in Hloc, Hdom, Hrest.
    apply MSeq; [assumption|].
    apply (MSeq _ _ ["@"%char]); [constructor; reflexivity|].
    apply MSeq; [assumption|].
    apply (MSeq _ _ ["."%char]); [constructor; reflexivity | assumption].
Qed.

Example email_accepted : isValidEmail "ann.lee@mail.example.org" = true.
Proof. vm_compute. reflexivity. Qed.

Example email_rejected :
  map isValidEmail ["ann@mail"; "ann@@mail.org"; "ann lee@mail.org"; "ann@.org";
                    "ann@mail."; "@mail.org";
                    String "a" (String RoomChannel.nbsp "b@mail.org")]%string
  = [false; false; false; false; false; false; false].
Proof. vm_compute. reflexivity. Qed.

End EmailShape.

Module FieldValidation.
Import AccountsManager.
Import ChatRoomManager (is_space, trimStart, trimEnd, trim).

Lemma trimEnd_cons (c c' : ascii) (s s' : string) :
  trimEnd s = String c' s' -> trimEnd (String c s) = String c (String c' s').
Proof. intros H. simpl. rewrite H. reflexivity. Qed.

Lemma trimEnd_idempotent (s : string) : trimEnd (trimEnd s) = trimEnd s.
Proof.
  induction s as [|c s IH]; [reflexivity|].
  destruct (trimEnd s) as [|c' s'] eqn:Hs.
  - simpl. rewrite Hs. destruct (is_space c) eqn:Hc; simpl; [|rewrite Hc]; reflexivity.
  - rewrite (trimEnd_cons c c' s s' Hs). apply trimEnd_cons, IH.
Qed.

Lemma trimEnd_head (c : ascii) (s : string) :
  is_space c = false -> trimEnd (String c s) = String c (trimEnd s).
Proof. intros Hc. simpl. rewrite Hc. destruct (trimEnd s); reflexivity. Qed.

Lemma trimStart_trimEnd (s : string) : trimStart (trimEnd (trimStart s)) = trimEnd (trimStart s).
Proof.
  induction s as [|c s IH]; [reflexivity|].
  simpl trimStart at 2 3. destruct (is_space c) eqn:Hc; [assumption|].
  rewrite trimEnd_head by assumption. simpl. rewrite Hc. reflexivity.
Qed.

(** Trimming twice is trimming once. *)
Lemma trim_idempotent (s : string) : trim (trim s) = trim s.
Proof. unfold trim. rewrite trimStart_trimEnd. apply trimEnd_idempotent. Qed.

(** X25.  The confirmation field is compared after trimming with the untrimmed
    value of [password1]: when the first password begins or ends with white
    space (a character that [trim] strips), no confirmation is ever accepted, and a non-blank one that is
    not an email field is told that the passwords do not match, even when the
    two boxes hold the same text. *)
Theorem padded_password_never_confirmed (p1 : string) (f : field) :
  name f = "password2"%string -> trim p1 <> p1 ->
  isValid (validateField (Some p1) f) = false /\
  (type f <> "email"%string -> trim (value f) <> ""%string ->
   validateField (Some p1) f = FieldError "Passwords do not match").
Proof.
  intros Hname Hpad. unfold validateField. rewrite Hname.
  assert (Hne : String.eqb (trim (value f)) p1 = false).
  { apply String.eqb_neq. intros E. apply Hpad. rewrite <- E. apply trim_idempotent. }
  rewrite Hne. split.
  - repeat case_match; simplify_eq/=; reflexivity.
  - intros Hty Hv. apply String.eqb_neq in Hty, Hv. rewrite Hty, Hv.
    rewrite andb_false_r. reflexivity.
Qed.

Lemma padded_password_never_confirmed_witness :
  let f := {| value := "hunter22 "; required := true; type := "password";
              name := "password2" |} in
  isValid (validateField (Some "hunter22 "%string) f) = false /\
  (type f <> "email"%string -> trim (value f) <> ""%string ->
   validateField (Some "hunter22 "%string) f = FieldError "Passwords do not match").
Proof.
  apply (padded_password_never_confirmed "hunter22 "
           {| value := "hunter22 "; required := true; type := "password";
              name := "password2" |}).
  - reflexivity.
  - vm_compute. discriminate.
Defined.

(** X26.  A field is shown as valid exactly when it passes all four rules on its
    trimmed value: the chain of [else if]s decides which message is shown, not
    whether the field is valid.  A blank optional field passes the email and
    length rules. *)
Theorem validateField_valid_iff (password1 : option string) (f : field) :
  let v := trim (value f) in
  isValid (validateField password1 f) = true <->
  (required f = true -> v <> ""%string) /\
  (type f = "email"%string -> v <> ""%string -> isValidEmail v = true) /\
  (name f = "password1"%string -> v <> ""%string -> 8 <= String.length v) /\
  (name f = "password2"%string -> forall p1, password1 = Some p1 -> v = p1).
Proof.
  intros v. unfold validateField. fold v.
  destruct (String.eqb_spec v "") as [Hv|Hv];
  destruct (required f) eqn:Hreq;
  destruct (String.eqb_spec (type f) "email") as [Hty|Hty];
  destruct (isValidEmail v) eqn:Hem;
  destruct (String.eqb_spec (name f) "password1") as [Hn1|Hn1];
  destruct (Z.ltb_spec (Z.of_nat (String.length v)) 8) as [Hlen|Hlen];
  destruct (String.eqb_spec (name f) "password2") as [Hn2|Hn2];
  simpl;
  try (rewrite Hn1 in Hn2; discriminate);
  try (destruct password1 as [p1|]; [destruct (String.eqb_spec v p1) as [Hp|Hp]|]; simpl);
  (split;
   [ try discriminate; intros _; repeat split; intros; try congruence; try lia
   | intros (H1 & H2 & H3 & H4); try reflexivity; exfalso;
     try (specialize (H1 eq_refl)); try (specialize (H2 Hty Hv));
     try (specialize (H3 Hn1 Hv)); try (specialize (H4 Hn2 _ eq_refl));
     try congruence; try lia ]).
Qed.

Example nbsp_fields :
  map (validateField (Some "hunter22"%string))
    [ {| value := String RoomChannel.nbsp ""; required := true; type := "text";
         name := "username" |};
      {| value := String RoomChannel.nbsp ""; required := true; type := "password";
         name := "password2" |};
      {| value := String RoomChannel.nbsp "hunter22"; required := true;
         type := "password"; name := "password2" |} ]
  = [FieldError "This field is required"; FieldError "This field is required";
     FieldSuccess].
Proof. vm_compute. reflexivity. Qed.

Example short_optional_fields :
  map (validateField None)
    [ {| value := "  "; required := false; type := "email"; name := "email" |};
      {| value := "  "; required := false; type := "password"; name := "password1" |};
      {| value := " 1234567 "; required := true; type := "password"; name := "password1" |} ]
  = [FieldSuccess; FieldSuccess; FieldError "Password must be at least 8 characters long"].
Proof. vm_compute. reflexivity. Qed.

End FieldValidation.

(** ** The user search box *)

Module UserSearch.
Import AccountsManager.
Import ChatRoomManager (trim).

Inductive event : Type :=
| Input (text : string)        (* the [input] event, with the value of the box *)
| Timer (id : positive).       (* the browser runs a timer of [setTimeout] *)

Definition step (s : search) (ev : event) : search :=
  match ev with
  | Input text => oninput text s
  | Timer id => ontimer id s
  end.

Definition run (s : search) (evs : list event) : search := fold_left step evs s.

(** A search that is worth running: the trimmed text of some input, of two
    characters at least. *)
Definition worthy (evs : list event) (query : string) : Prop :=
  2 <= String.length query /\ exists text, Input text ∈ evs /\ query = trim text.

Definition performed (evs : list event) (e : search_effect) : Prop :=
  match e with
  | PerformUserSearch query => worthy evs query
  | ClearSearchResults => True
  end.

Record invariant (evs : list event) (s : search) : Prop := {
  inv_latest : forall id query, pending s !! id = Some query ->
                 searchTimeout s = Some id /\ worthy evs query;
  inv_done : Forall (performed evs) (done s)
}.

Lemma worthy_mono (evs : list event) (ev : event) (query : string) :
  worthy evs query -> worthy (evs ++ [ev]) query.
Proof.
  intros [Hlen (text & Hin & ->)]. split; [assumption|].
  exists text. split; [|reflexivity]. apply elem_of_app. left. assumption.
Qed.

Lemma performed_mono (evs : list event) (ev : event) (e : search_effect) :
  performed evs e -> performed (evs ++ [ev]) e.
Proof. destruct e; simpl; [trivial | apply worthy_mono]. Qed.

Lemma search_invariant_step (evs : list event) (s : search) (ev : event) :
  invariant evs s -> invariant (evs ++ [ev]) (step s ev).
Proof.
  intros [Hlatest Hdone].
  assert (Hdone' : Forall (performed (evs ++ [ev])) (done s)).
  { eapply Forall_impl; [exact Hdone|]. intros e. apply performed_mono. }
  destruct ev as [text|id]; simpl.
  - unfold oninput. destruct (Z.ltb_spec (Z.of_nat (String.length (trim text))) 2) as [Hlen|Hlen].
    + split; simpl.
      * intros id query Hq. exfalso.
        destruct (searchTimeout s) as [old|] eqn:Hold.
        -- apply lookup_delete_Some in Hq as [Hne Hq].
           apply Hlatest in Hq as [Hq _]. congruence.
        -- apply Hlatest in Hq as [Hq _]. congruence.
      * apply Forall_app. split; [assumption|]. repeat constructor.
    + split; simpl; [|assumption].
      intros id query Hq. apply lookup_insert_Some in Hq as [[<- <-]|[Hne Hq]].
      * split; [reflexivity|]. split; [lia|]. exists text. split; [|reflexivity].
        apply elem_of_app. right. apply list_elem_of_singleton. reflexivity.
      * exfalso. destruct (searchTimeout s) as [old|] eqn:Hold.
        -- apply lookup_delete_Some in Hq as [Hne' Hq].
           apply Hlatest in Hq as [Hq _]. congruence.
        -- apply Hlatest in Hq as [Hq _]. congruence.
  - unfold ontimer. destruct (pending s !! id) as [query|] eqn:Hid.
    + split; simpl.
      * intros id' query' Hq. apply lookup_delete_Some in Hq as [Hne Hq].
        apply Hlatest in Hq as [Hq Hw]. split; [assumption | apply worthy_mono, Hw].
      * apply Forall_app. split; [assumption|]. constructor; [|constructor].
        simpl. apply worthy_mono. apply (Hlatest id query Hid).
    + split; [|assumption].
      intros id' query' Hq. apply Hlatest in Hq as [Hq Hw].
      split; [assumption | apply worthy_mono, Hw].
Qed.

Lemma invariant_run (evs : list event) : invariant evs (run setupUserSearch evs).
Proof.
  induction evs as [|ev evs IH] using rev_ind.
  - split; simpl; [intros id query Hq; rewrite lookup_empty in Hq; discriminate | constructor].
  - unfold run. rewrite fold_left_app. simpl. apply search_invariant_step, IH.
Qed.

(** X27.  The search box is debounced by cancel and restart: whatever was typed
    and whichever timers have run, every search performed is for the trimmed
    text of some input and has two characters at least; at most the timer of
    the latest input is pending; and an input leaves pending exactly its own
    search if its trimmed text has two characters, and none (clearing the
    results) if it is shorter. *)
Theorem search_debounced (evs : list event) :
  let s := run setupUserSearch evs in
  Forall (performed evs) (done s) /\
  (forall id query, pending s !! id = Some query -> pending s = {[ id := query ]}) /\
  (forall text,
     let s' := step s (Input text) in
     if Z.of_nat (String.length (trim text)) <? 2 then
       pending s' = ∅ /\ done s' = done s ++ [ClearSearchResults]
     else
       pending s' = {[ next_timer s := trim text ]} /\ done s' = done s)%Z.
Proof.
  intros s. destruct (invariant_run evs) as [Hlatest Hdone]. fold s in Hlatest, Hdone.
  assert (Hcancel : match searchTimeout s with
                    | Some id => delete id (pending s)
                    | None => pending s
                    end = ∅).
  { apply map_empty. intros id.
    destruct (searchTimeout s) as [old|] eqn:Hold.
    - destruct (delete old (pending s) !! id) as [query|] eqn:Hq; [|reflexivity].
      apply lookup_delete_Some in Hq as [Hne Hq].
      apply Hlatest in Hq as [Hq _]. congruence.
    - destruct (pending s !! id) as [query|] eqn:Hq; [|reflexivity].
      apply Hlatest in Hq as [Hq _]. congruence. }
  split; [assumption|]. split.
  - intros id query Hq. apply map_eq. intros id'.
    destruct (decide (id' = id)) as [->|Hne].
    + rewrite lookup_singleton_eq. assumption.
    + rewrite lookup_singleton_ne by congruence.
      destruct (pending s !! id') as [query'|] eqn:Hq'; [|reflexivity].
      apply Hlatest in Hq as [Hq _]. apply Hlatest in Hq' as [Hq' _]. congruence.
  - intros text. simpl. unfold oninput. rewrite Hcancel.
    destruct (Z.of_nat (String.length (trim text)) <? 2)%Z; simpl; split; reflexivity.
Qed.

Example search_nbsp :
  let s := run setupUserSearch
             [Input "ann"; Input (String RoomChannel.nbsp (String RoomChannel.nbsp ""))] in
  done s = [ClearSearchResults] /\ pending s = ∅.
Proof. split; vm_compute; reflexivity. Qed.

Example search_typing :
  done (run setupUserSearch
          [Input "a"; Input "an"; Input "ann"; Timer 1; Timer 2; Input " ann "; Timer 3])
  = [ClearSearchResults; PerformUserSearch "ann"; PerformUserSearch "ann"].
Proof. vm_compute. reflexivity. Qed.

End UserSearch.

(** ** The members of a group under creation *)

Module GroupMembers.
Import ChatHomeManager.

Inductive op : Type :=
| Add (userId : string)        (* a click on a search result *)
| Remove (userId : string).    (* a click on the cross of a badge *)

Definition apply (selectedMembers : list string) (o : op) : list string :=
  match o with
  | Add userId => addMemberToGroup userId selectedMembers
  | Remove userId => removeMember userId selectedMembers
  end.

Definition run (selectedMembers : list string) (ops : list op) : list string :=
  fold_left apply ops selectedMembers.

(** Whether the last click that concerns [userId] added it; [before] when no
    click concerns it. *)
Definition chosen (userId : string) (before : bool) (ops : list op) : bool :=
  fold_left (fun b o =>
               match o with
               | Add u => if bool_decide (u = userId) then true else b
               | Remove u => if bool_decide (u = userId) then false else b
               end) ops before.

Lemma elem_of_add (id userId : string) (l : list string) :
  id ∈ addMemberToGroup userId l <-> id = userId \/ id ∈ l.
Proof.
  unfold addMemberToGroup. case_bool_decide as Hin.
  - split; [auto|]. intros [E|H]; [subst id|]; assumption.
  - rewrite elem_of_app, list_elem_of_singleton. tauto.
Qed.

Lemma elem_of_remove (id userId : string) (l : list string) :
  id ∈ removeMember userId l <-> id <> userId /\ id ∈ l.
Proof. unfold removeMember. rewrite list_elem_of_filter. reflexivity. Qed.

Lemma NoDup_apply (l : list string) (o : op) : NoDup l -> NoDup (apply l o).
Proof.
  intros Hl. destruct o as [u|u]; simpl.
  - unfold addMemberToGroup. case_bool_decide as Hin; [assumption|].
    apply NoDup_app. split; [assumption|]. split; [|apply NoDup_singleton].
    intros x Hx ->%list_elem_of_singleton. contradiction.
  - apply NoDup_filter. assumption.
Qed.

Lemma run_spec (ops : list op) : forall l : list string,
  NoDup l ->
  NoDup (run l ops) /\
  forall id, id ∈ run l ops <-> chosen id (bool_decide (id ∈ l)) ops = true.
Proof.
  induction ops as [|o ops IH]; intros l Hl; simpl.
  - split; [assumption|]. intros id. rewrite bool_decide_eq_true. reflexivity.
  - destruct (IH (apply l o) (NoDup_apply l o Hl)) as [Hnd Hin].
    split; [assumption|]. intros id. rewrite Hin.
    assert (E : bool_decide (id ∈ apply l o) =
                match o with
                | Add u => if bool_decide (u = id) then true else bool_decide (id ∈ l)
                | Remove u => if bool_decide (u = id) then false else bool_decide (id ∈ l)
                end).
    { destruct o as [u|u]; simpl; destruct (decide (u = id)) as [Hu|Hu].
      - rewrite (bool_decide_eq_true_2 (u = id)) by assumption. subst.
        apply bool_decide_eq_true. apply elem_of_add. auto.
      - rewrite (bool_decide_eq_false_2 (u = id)) by assumption.
        apply bool_decide_ext. rewrite elem_of_add. split; [|auto].
        intros [E|H]; [congruence | assumption].
      - rewrite (bool_decide_eq_true_2 (u = id)) by assumption. subst.
        apply bool_decide_eq_false. rewrite elem_of_remove. tauto.
      - rewrite (bool_decide_eq_false_2 (u = id)) by assumption.
        apply bool_decide_ext. rewrite elem_of_remove. split; [tauto|].
        intros H. split; [congruence | assumption]. }
    unfold chosen. simpl. rewrite E. reflexivity.
Qed.

(** X28.  Whatever is clicked, [selectedMembers] behaves as a set: it never
    holds a user twice, and it holds a user exactly when the last click that
    concerned this user added it. *)
Theorem selected_members_set (ops : list op) :
  NoDup (run [] ops) /\
  forall id, id ∈ run [] ops <-> chosen id false ops = true.
Proof.
  destruct (run_spec ops [] (NoDup_nil_2)) as [Hnd Hin]. split; [assumption|].
  intros id. rewrite Hin. rewrite bool_decide_eq_false_2; [reflexivity|].
  apply not_elem_of_nil.
Qed.

Example members_clicked :
  run [] [Add "7"; Add "3"; Add "7"; Remove "3"; Add "9"; Add "3"]%string
  = ["7"; "9"; "3"]%string.
Proof. vm_compute. reflexivity. Qed.

(** [formData.getAll(key)] *)
Definition formData_getAll (key : string) (formData : list (string * string)) : list string :=
  map snd (filter (fun kv => kv.1 = key) formData).

Lemma formData_get_app (key : string) (form more : list (string * string)) (v : string) :
  formData_get key form = Some v -> formData_get key (form ++ more) = Some v.
Proof.
  induction form as [|[k w] form IH]; simpl; [discriminate|].
  destruct (String.eqb k key); [trivial | assumption].
Qed.

Lemma getAll_members (l : list string) :
  formData_getAll "members[]" (map (fun id => ("members[]"%string, id)) l) = l.
Proof.
  unfold formData_getAll. induction l as [|id l IH]; [reflexivity|].
  cbn [map]. rewrite filter_cons_True by reflexivity. cbn [map snd]. f_equal. assumption.
Qed.

(** X29.  A group is only requested with a name that is not empty and with at
    least one member; the request carries the fields of the form followed by
    the selected members, each of them once, in the order of selection. *)
Theorem group_request (form : list (string * string)) (ops : list op)
    (formData : list (string * string)) :
  formData_getAll "members[]" form = [] ->
  createGroupChat form (run [] ops) = CreateRoom formData ->
  formData = form ++ map (fun id => ("members[]"%string, id)) (run [] ops) /\
  (exists name, formData_get "name" formData = Some name /\ name <> ""%string) /\
  formData_getAll "members[]" formData = run [] ops /\
  run [] ops <> [] /\ NoDup (formData_getAll "members[]" formData).
Proof.
  intros Hform H. unfold createGroupChat in H.
  destruct (formData_get "name" form) as [[|c name]|] eqn:Hname; try discriminate.
  destruct (run [] ops) as [|m l] eqn:Hrun; [discriminate|].
  cbn [length Nat.eqb] in H. injection H as <-.
  assert (Hall : formData_getAll "members[]"
                   (form ++ map (fun id => ("members[]"%string, id)) (m :: l)) = m :: l).
  { pose proof (getAll_members (m :: l)) as Hm. unfold formData_getAll in *.
    rewrite filter_app, map_app, Hform, Hm. reflexivity. }
  split; [reflexivity|]. split; [|split; [|split]].
  - exists (String c name). split; [|discriminate].
    apply formData_get_app. assumption.
  - exact Hall.
  - discriminate.
  - destruct (run_spec ops [] (NoDup_nil_2)) as [Hnd _].
    rewrite Hrun, <- Hall in Hnd. exact Hnd.
Qed.

Lemma group_request_witness :
  let form := [("name", "Team")]%string in
  let ops := [Add "7"; Add "3"; Add "7"] in
  let formData := [("name", "Team"); ("members[]", "7"); ("members[]", "3")]%string in
  formData = form ++ map (fun id => ("members[]"%string, id)) (run [] ops) /\
  (exists name, formData_get "name" formData = Some name /\ name <> ""%string) /\
  formData_getAll "members[]" formData = run [] ops /\
  run [] ops <> [] /\ NoDup (formData_getAll "members[]" formData).
Proof.
  apply (group_request [("name", "Team")]%string [Add "7"; Add "3"; Add "7"]
           [("name", "Team"); ("members[]", "7"); ("members[]", "3")]%string).
  - vm_compute. reflexivity.
  - vm_compute. reflexivity.
Defined.

End GroupMembers.
